(** * Glassmorphism music player: a shallow embedding of the JavaScript sources

    The development follows the repository file by file:
    - the audio utility module (validateAudioFile, formatTime,
      getAudioMetadata, saveToLocalStorage, loadFromLocalStorage,
      createAudioContext, connectAudioAnalyser, getFrequencyData,
      getAverageFrequency),
    - pages/index.js (the [Home] page),
    - components/AudioVisualizer.js,
    - the [MusicPlayer] and [FileUpload] components,
    - the object URLs behind createAudioUrl and revokeAudioUrl, what the
      page and the visualizer draw, and the events of [MusicPlayer] and
      [FileUpload].

    The browser primitives the code calls (strings, numbers, JSON,
    localStorage, the Web Audio API, requestAnimationFrame) are modelled
    first, in the [JS] part of the file. *)

From Stdlib Require Import ZArith QArith Qround Qreduction Qcanon String Ascii List Bool Lia.
From Stdlib.Strings Require Import Byte.
From stdpp Require Import gmap strings.

Import ListNotations.
Local Open Scope Z_scope.

#[local] Arguments String.append !s1 s2 : simpl nomatch.

(** ** JavaScript numbers

    A finite number is modelled by its exact rational value: every finite
    double is a dyadic rational, hence a [Q].  Arithmetic is exact (the
    rounding of a double operation is not modelled); results are kept in
    lowest terms so that equal numbers are equal terms. *)

Inductive number : Type :=
| NaN
| PosInfinity
| NegInfinity
| Fin (q : Q).

Definition num_of_Z (z : Z) : number := Fin (inject_Z z).

(** [isNaN] on a number. *)
Definition Number_isNaN (n : number) : bool :=
  match n with NaN => true | _ => false end.

(** ToBoolean on a number: [0] and [NaN] are falsy. *)
Definition number_truthy (n : number) : bool :=
  match n with
  | NaN => false
  | Fin q => negb (Qnum q =? 0)
  | _ => true
  end.

(** [x + y]. *)
Definition js_add (x y : number) : number :=
  match x, y with
  | NaN, _ | _, NaN => NaN
  | PosInfinity, NegInfinity | NegInfinity, PosInfinity => NaN
  | PosInfinity, _ | _, PosInfinity => PosInfinity
  | NegInfinity, _ | _, NegInfinity => NegInfinity
  | Fin a, Fin b => Fin (Qred (a + b))
  end.

(** [x / y]; the sign of a zero is not modelled, [x / 0] for [x > 0] is
    taken as [+Infinity]. *)
Definition js_div (x y : number) : number :=
  match x, y with
  | NaN, _ | _, NaN => NaN
  | Fin a, Fin b =>
      if Qnum b =? 0 then
        (if Qnum a =? 0 then NaN
         else if 0 <? Qnum a then PosInfinity else NegInfinity)
      else Fin (Qred (a / b))
  | Fin _, _ => Fin 0
  | PosInfinity, Fin b => if Qnum b <? 0 then NegInfinity else PosInfinity
  | NegInfinity, Fin b => if Qnum b <? 0 then PosInfinity else NegInfinity
  | _, _ => NaN
  end.

(** Truncation towards zero of a rational. *)
Definition Qtrunc (q : Q) : Z := Z.quot (Qnum q) (Zpos (Qden q)).

(** [x % y]: the remainder has the sign of the dividend
    ([x - y * trunc (x / y)]). *)
Definition js_rem (x y : number) : number :=
  match x, y with
  | Fin a, Fin b =>
      if Qnum b =? 0 then NaN
      else Fin (Qred (a - b * inject_Z (Qtrunc (a / b))))
  | Fin a, (PosInfinity | NegInfinity) => Fin a
  | _, _ => NaN
  end.

(** [Math.floor]. *)
Definition Math_floor (x : number) : number :=
  match x with
  | Fin q => Fin (inject_Z (Qfloor q))
  | other => other
  end.

(** Strict equality on numbers: [NaN] differs from itself. *)
Definition number_eqb (x y : number) : bool :=
  match x, y with
  | Fin a, Fin b => Qeq_bool a b
  | PosInfinity, PosInfinity | NegInfinity, NegInfinity => true
  | _, _ => false
  end.

(** [x - y]. *)
Definition js_sub (x y : number) : number :=
  match x, y with
  | NaN, _ | _, NaN => NaN
  | PosInfinity, PosInfinity | NegInfinity, NegInfinity => NaN
  | PosInfinity, _ | _, NegInfinity => PosInfinity
  | NegInfinity, _ | _, PosInfinity => NegInfinity
  | Fin a, Fin b => Fin (Qred (a - b))
  end.

(** The sign of an infinite product: [0 * Infinity] is [NaN]. *)
Definition signed_infinity (positive : bool) (a : Q) : number :=
  if Qnum a =? 0 then NaN
  else if Bool.eqb positive (0 <? Qnum a) then PosInfinity else NegInfinity.

(** [x * y]. *)
Definition js_mul (x y : number) : number :=
  match x, y with
  | NaN, _ | _, NaN => NaN
  | Fin a, Fin b => Fin (Qred (a * b))
  | Fin a, PosInfinity | PosInfinity, Fin a => signed_infinity true a
  | Fin a, NegInfinity | NegInfinity, Fin a => signed_infinity false a
  | PosInfinity, PosInfinity | NegInfinity, NegInfinity => PosInfinity
  | PosInfinity, NegInfinity | NegInfinity, PosInfinity => NegInfinity
  end.

(** [Math.max(x, y)]. *)
Definition Math_max (x y : number) : number :=
  match x, y with
  | NaN, _ | _, NaN => NaN
  | PosInfinity, _ | _, PosInfinity => PosInfinity
  | NegInfinity, other | other, NegInfinity => other
  | Fin a, Fin b => if Qle_bool a b then Fin b else Fin a
  end.

(** ** JavaScript strings

    A string is a [String.string]: a sequence of 8-bit units, non-ASCII
    text being held as its UTF-8 bytes. *)

Definition ascii_in_range (lo hi : nat) (c : ascii) : bool :=
  (lo <=? nat_of_ascii c)%nat && (nat_of_ascii c <=? hi)%nat.

(** Lower-casing of one unit; only the ASCII capitals move. *)
Definition char_toLowerCase (c : ascii) : ascii :=
  if ascii_in_range 65 90 c then ascii_of_nat (nat_of_ascii c + 32) else c.

(** [s.toLowerCase()]. *)
Fixpoint toLowerCase (s : string) : string :=
  match s with
  | EmptyString => EmptyString
  | String c r => String (char_toLowerCase c) (toLowerCase r)
  end.

(** [s.startsWith(p)]. *)
Fixpoint startsWith (s p : string) {struct p} : bool :=
  match p, s with
  | EmptyString, _ => true
  | String a p', String b s' => Ascii.eqb a b && startsWith s' p'
  | String _ _, EmptyString => false
  end.

(** Drop the first [n] units. *)
Fixpoint string_drop (n : nat) (s : string) : string :=
  match n, s with
  | O, _ => s
  | S n', String _ r => string_drop n' r
  | S _, EmptyString => EmptyString
  end.

(** [s.endsWith(p)]: [p] is compared with the last [p.length] units. *)
Definition endsWith (s p : string) : bool :=
  (String.length p <=? String.length s)%nat &&
  String.eqb (string_drop (String.length s - String.length p) s) p.

(** [s.replace(pat, rep)] for a string pattern: the first occurrence of
    [pat], scanning from the left, is replaced (no [$] pattern occurs in the
    replacements used by the sources). *)
Fixpoint replace_first (pat rep s : string) : string :=
  if startsWith s pat then rep +:+ string_drop (String.length pat) s
  else match s with
       | EmptyString => EmptyString
       | String c r => String c (replace_first pat rep r)
       end.

(** [String(c).repeat(n)]. *)
Fixpoint string_repeat (c : ascii) (n : nat) : string :=
  match n with
  | O => EmptyString
  | S n' => String c (string_repeat c n')
  end.

(** [s.padStart(n, c)] for a one-unit filler [c]. *)
Definition padStart (n : nat) (c : ascii) (s : string) : string :=
  string_repeat c (n - String.length s) +:+ s.

(** *** Decimal numerals *)

Definition digit_char (d : Z) : ascii := ascii_of_nat (48 + Z.to_nat d).

Definition is_digit (c : ascii) : bool := ascii_in_range 48 57 c.

Definition digit_val (c : ascii) : Z := Z.of_nat (nat_of_ascii c) - 48.

(** The decimal digits of [n >= 0], most significant first, in front of
    [acc]; [fuel] bounds the number of digits. *)
Fixpoint digits_fuel (fuel : nat) (n : Z) (acc : string) : string :=
  let acc' := String (digit_char (n mod 10)) acc in
  match fuel with
  | O => acc'
  | S f => if n <? 10 then acc' else digits_fuel f (n / 10) acc'
  end.

Definition digits (n : Z) : string :=
  digits_fuel (Z.to_nat (Z.log2 n)) n EmptyString.

(** The value of a digit string read from the left, starting from [a]. *)
Fixpoint digits_val (s : string) (a : Z) : Z :=
  match s with
  | EmptyString => a
  | String c r => digits_val r (10 * a + digit_val c)
  end.

(** The smallest [k' >= k] within [fuel] steps such that [d] divides
    [10 ^ k']. *)
Fixpoint find_places (fuel : nat) (k : nat) (d : Z) : option nat :=
  if (10 ^ Z.of_nat k) mod d =? 0 then Some k
  else match fuel with
       | O => None
       | S f => find_places f (S k) d
       end.

(** The number of decimals needed to write the rational exactly, when it is
    a decimal fraction (every dyadic rational is one). *)
Definition decimal_places (q : Q) : option nat :=
  find_places (Z.to_nat (Z.log2 (Zpos (Qden q)))) 0 (Zpos (Qden q)).

(** Number::toString for a finite number.  The numeral is written in plain
    positional notation: sign, integer part and, when the number is not an
    integer, a point and its decimals.  (The exponent notation that
    JavaScript switches to from 1e21 on and below 1e-6 is not modelled; a
    rational that is no decimal fraction, which no double is, is cut after
    17 decimals.) *)
Definition Q_toString (q : Q) : string :=
  let q := Qred q in
  let k := match decimal_places q with Some k => k | None => 17%nat end in
  let m := Z.abs (Qnum q) * 10 ^ Z.of_nat k / Zpos (Qden q) in
  let ip := digits (m / 10 ^ Z.of_nat k) in
  let fp := padStart k "0" (digits (m mod 10 ^ Z.of_nat k)) in
  (if Qnum q <? 0 then "-" else "") +:+ ip +:+
  (match k with O => "" | S _ => String "." fp end).

Definition Number_toString (n : number) : string :=
  match n with
  | NaN => "NaN"
  | PosInfinity => "Infinity"
  | NegInfinity => "-Infinity"
  | Fin q => Q_toString q
  end.

(** ** JavaScript values *)

(** A [File] of the File API, as far as the sources read it. *)
Record File : Type := mkFile {
  file_name : string;
  file_type : string;
  file_size : Z
}.

(** Values.  An object is the list of its own enumerable properties in
    enumeration order, each key occurring once.  A [File] is a host object:
    its [name], [type] and [size] are accessors of the prototype, it has no
    own enumerable property. *)
#[local] Unset Elimination Schemes.
Inductive value : Type :=
| VUndefined
| VNull
| VBool (b : bool)
| VNum (n : number)
| VStr (s : string)
| VArr (elems : list value)
| VObj (props : list (string * value))
| VFile (f : File).
#[local] Set Elimination Schemes.

(** Lookup of an own property. *)
Fixpoint props_get (o : list (string * value)) (k : string) : option value :=
  match o with
  | [] => None
  | (k', v) :: o' => if String.eqb k k' then Some v else props_get o' k
  end.

(** Definition of an own property: an existing key keeps its place and
    takes the new value, a new key goes last. *)
Fixpoint props_set (o : list (string * value)) (k : string) (v : value)
  : list (string * value) :=
  match o with
  | [] => [(k, v)]
  | (k', v') :: o' =>
      if String.eqb k k' then (k', v) :: o' else (k', v') :: props_set o' k v
  end.

(** [v?.k]: the property [k] of an object; [undefined] on [null] and
    [undefined], and for a key the object does not have. *)
Definition get_prop (v : value) (k : string) : value :=
  match v with
  | VObj o => match props_get o k with Some x => x | None => VUndefined end
  | VFile f =>
      if String.eqb k "name" then VStr (file_name f)
      else if String.eqb k "type" then VStr (file_type f)
      else if String.eqb k "size" then VNum (num_of_Z (file_size f))
      else VUndefined
  | _ => VUndefined
  end.

(** [a === b].  Primitives are compared by value.  Objects are compared by
    identity, which values do not carry: two objects are taken as distinct. *)
Definition strict_eq (a b : value) : bool :=
  match a, b with
  | VUndefined, VUndefined | VNull, VNull => true
  | VBool x, VBool y => Bool.eqb x y
  | VNum x, VNum y => number_eqb x y
  | VStr x, VStr y => String.eqb x y
  | _, _ => false
  end.

(** ToBoolean. *)
Definition truthy (v : value) : bool :=
  match v with
  | VUndefined | VNull => false
  | VBool b => b
  | VNum n => number_truthy n
  | VStr s => negb (String.eqb s "")
  | _ => true
  end.

(** The own enumerable properties copied by an object spread [{...v}]. *)
Definition spread_props (v : value) : list (string * value) :=
  match v with
  | VObj o => o
  | VArr l =>
      snd (fold_left (fun '(i, acc) x => (i + 1, acc ++ [(digits i, x)]))
                     l (0, []))
  | VStr s =>
      snd (fold_left (fun '(i, acc) c => (i + 1, acc ++ [(digits i, VStr (String c ""))]))
                     (list_ascii_of_string s) (0, []))
  | _ => []
  end.

(** ** JSON *)

Definition dquote : ascii := "034"%char.
Definition backslash : ascii := "092"%char.

Definition hex_char (n : nat) : ascii :=
  if (n <? 10)%nat then ascii_of_nat (48 + n) else ascii_of_nat (87 + n).

(** QuoteJSONString, one unit at a time. *)
Definition escape_char (c : ascii) : string :=
  let n := nat_of_ascii c in
  if (n =? 34)%nat then String backslash (String dquote "")
  else if (n =? 92)%nat then String backslash (String backslash "")
  else if (n =? 8)%nat then String backslash "b"
  else if (n =? 12)%nat then String backslash "f"
  else if (n =? 10)%nat then String backslash "n"
  else if (n =? 13)%nat then String backslash "r"
  else if (n =? 9)%nat then String backslash "t"
  else if (n <? 32)%nat then
    String backslash
      (String "u" (String "0" (String "0"
         (String (hex_char (n / 16)) (String (hex_char (n mod 16)) "")))))
  else String c "".

Fixpoint escape (s : string) : string :=
  match s with
  | EmptyString => EmptyString
  | String c r => escape_char c +:+ escape r
  end.

Definition quote (s : string) : string :=
  String dquote (escape s +:+ String dquote "").

Fixpoint join (sep : string) (l : list string) : string :=
  match l with
  | [] => ""
  | [x] => x
  | x :: r => x +:+ sep +:+ join sep r
  end.

(** [JSON.stringify(v)]; [None] is the result [undefined].  In an array
    [undefined] is written [null]; a property whose value is [undefined] is
    left out; [NaN] and the infinities are written [null]; a [File] has no
    own enumerable property and is written as the empty object. *)
Fixpoint JSON_stringify (v : value) : option string :=
  match v with
  | VUndefined => None
  | VNull => Some "null"
  | VBool true => Some "true"
  | VBool false => Some "false"
  | VNum (Fin q) => Some (Q_toString q)
  | VNum _ => Some "null"
  | VStr s => Some (quote s)
  | VArr l =>
      Some ("[" +:+
            join "," (map (fun x => match JSON_stringify x with
                                    | Some t => t
                                    | None => "null"
                                    end) l)
            +:+ "]")
  | VObj o =>
      Some ("{" +:+
            join "," (flat_map (fun kx => match JSON_stringify (snd kx) with
                                          | Some t => [quote (fst kx) +:+ ":" +:+ t]
                                          | None => []
                                          end) o)
            +:+ "}")
  | VFile _ => Some "{}"
  end.

(** *** JSON.parse

    The grammar is that of ECMA-404: white space, the three literals,
    numbers, strings with their escapes, arrays and objects. *)

Definition is_ws (c : ascii) : bool :=
  let n := nat_of_ascii c in
  (n =? 32)%nat || (n =? 9)%nat || (n =? 10)%nat || (n =? 13)%nat.

Fixpoint skip_ws (s : string) : string :=
  match s with
  | String c r => if is_ws c then skip_ws r else s
  | EmptyString => s
  end.

Definition hex_val (c : ascii) : option N :=
  let n := N_of_ascii c in
  if ascii_in_range 48 57 c then Some (n - 48)%N
  else if ascii_in_range 97 102 c then Some (n - 87)%N
  else if ascii_in_range 65 70 c then Some (n - 55)%N
  else None.

Definition hex4 (a b c d : ascii) : option N :=
  match hex_val a, hex_val b, hex_val c, hex_val d with
  | Some x, Some y, Some z, Some w => Some (((x * 16 + y) * 16 + z) * 16 + w)%N
  | _, _, _, _ => None
  end.

(** The UTF-8 bytes of a code point (a lone surrogate is written like any
    other three-byte code point). *)
Definition utf8 (cp : N) : string :=
  if (cp <? 128)%N then String (ascii_of_N cp) ""
  else if (cp <? 2048)%N then
    String (ascii_of_N (192 + cp / 64))
      (String (ascii_of_N (128 + cp mod 64)) "")
  else if (cp <? 65536)%N then
    String (ascii_of_N (224 + cp / 4096))
      (String (ascii_of_N (128 + (cp / 64) mod 64))
         (String (ascii_of_N (128 + cp mod 64)) ""))
  else
    String (ascii_of_N (240 + cp / 262144))
      (String (ascii_of_N (128 + (cp / 4096) mod 64))
         (String (ascii_of_N (128 + (cp / 64) mod 64))
            (String (ascii_of_N (128 + cp mod 64)) ""))).

Definition is_high_surrogate (cp : N) : bool :=
  (55296 <=? cp)%N && (cp <=? 56319)%N.

Definition is_low_surrogate (cp : N) : bool :=
  (56320 <=? cp)%N && (cp <=? 57343)%N.

(** The unit denoted by a one-letter escape. *)
Definition simple_escape (e : ascii) : option ascii :=
  let n := nat_of_ascii e in
  if (n =? 34)%nat then Some dquote
  else if (n =? 92)%nat then Some backslash
  else if (n =? 47)%nat then Some "/"%char
  else if (n =? 98)%nat then Some (ascii_of_nat 8)
  else if (n =? 102)%nat then Some (ascii_of_nat 12)
  else if (n =? 110)%nat then Some (ascii_of_nat 10)
  else if (n =? 114)%nat then Some (ascii_of_nat 13)
  else if (n =? 116)%nat then Some (ascii_of_nat 9)
  else None.

Definition prepend (p : string) (r : option (string * string))
  : option (string * string) :=
  match r with
  | Some (t, rest) => Some (p +:+ t, rest)
  | None => None
  end.

(** The characters of a string literal after its opening quote: the decoded
    string and the text after the closing quote. *)
Fixpoint parse_string_body (s : string) : option (string * string) :=
  match s with
  | EmptyString => None
  | String c r =>
      if Ascii.eqb c dquote then Some ("", r)
      else if Ascii.eqb c backslash then
        match r with
        | String e r1 =>
            if Ascii.eqb e "u" then
              match r1 with
              | String h1 (String h2 (String h3 (String h4 r2))) =>
                  match hex4 h1 h2 h3 h4 with
                  | Some hi =>
                      if is_high_surrogate hi then
                        match r2 with
                        | String b (String u (String l1 (String l2 (String l3 (String l4 r3))))) =>
                            match hex4 l1 l2 l3 l4 with
                            | Some lo =>
                                if Ascii.eqb b backslash && Ascii.eqb u "u"
                                   && is_low_surrogate lo
                                then prepend
                                       (utf8 (65536 + (hi - 55296) * 1024 + (lo - 56320))%N)
                                       (parse_string_body r3)
                                else prepend (utf8 hi) (parse_string_body r2)
                            | None => prepend (utf8 hi) (parse_string_body r2)
                            end
                        | _ => prepend (utf8 hi) (parse_string_body r2)
                        end
                      else prepend (utf8 hi) (parse_string_body r2)
                  | None => None
                  end
              | _ => None
              end
            else
              match simple_escape e with
              | Some c' => prepend (String c' "") (parse_string_body r1)
              | None => None
              end
        | EmptyString => None
        end
      else if (nat_of_ascii c <? 32)%nat then None
      else prepend (String c "") (parse_string_body r)
  end.

(** The longest prefix of digits, and the rest. *)
Fixpoint span_digits (s : string) : string * string :=
  match s with
  | String c r =>
      if is_digit c then let (ds, rest) := span_digits r in (String c ds, rest)
      else ("", s)
  | EmptyString => ("", "")
  end.

(** The integer part of a numeral: not empty, no leading zero. *)
Definition int_part_ok (ip : string) : bool :=
  match ip with
  | EmptyString => false
  | String c r => negb (Ascii.eqb c "0") || String.eqb r ""
  end.

(** [n * 10 ^ x] as a rational in lowest terms. *)
Definition decimal_Q (n x : Z) : Q :=
  Qred (if 0 <=? x then inject_Z (n * 10 ^ x) else n # Z.to_pos (10 ^ (- x))).

(** Whether the text starts with the unit [c]. *)
Definition head_is (c : ascii) (s : string) : bool :=
  match s with
  | String x _ => Ascii.eqb x c
  | EmptyString => false
  end.

(** The numeral after its sign: integer part, optional fraction, optional
    exponent. *)
Definition parse_unsigned (neg : bool) (s1 : string) : option (Q * string) :=
  let (ip, s2) := span_digits s1 in
  if negb (int_part_ok ip) then None else
  let frac := if head_is "." s2 then
                let (fp, r) := span_digits (string_drop 1 s2) in
                if String.eqb fp "" then None else Some (fp, r)
              else Some (EmptyString, s2) in
  match frac with
  | None => None
  | Some (fp, s3) =>
      let expo := if head_is "e" s3 || head_is "E" s3 then
                    let r := string_drop 1 s3 in
                    let eneg := head_is "-" r in
                    let r1 := if eneg || head_is "+" r then string_drop 1 r
                              else r in
                    let (ed, r2) := span_digits r1 in
                    if String.eqb ed "" then None
                    else Some ((if eneg then -1 else 1) * digits_val ed 0, r2)
                  else Some (0, s3) in
      match expo with
      | None => None
      | Some (e, s4) =>
          let m := digits_val (ip +:+ fp) 0 in
          Some (decimal_Q (if neg then - m else m)
                          (e - Z.of_nat (String.length fp)), s4)
      end
  end.

(** A numeral: optional minus, then the rest. *)
Definition parse_number (s : string) : option (Q * string) :=
  if head_is "-" s then parse_unsigned true (string_drop 1 s)
  else parse_unsigned false s.

(** One JSON value at the head of the text (after white space), and the
    text after it.  [fuel] bounds the number of values and of array or
    object entries read; a text never needs more than its length. *)
Fixpoint parse_value (fuel : nat) (s : string) : option (value * string) :=
  match fuel with
  | O => None
  | S fuel' =>
      match skip_ws s with
      | EmptyString => None
      | String c r as t =>
          if Ascii.eqb c "{" then
            if head_is "}" (skip_ws r) then Some (VObj [], string_drop 1 (skip_ws r))
            else parse_members fuel' r []
          else if Ascii.eqb c "[" then
            if head_is "]" (skip_ws r) then Some (VArr [], string_drop 1 (skip_ws r))
            else parse_elems fuel' r []
          else if Ascii.eqb c dquote then
            match parse_string_body r with
            | Some (str, rest) => Some (VStr str, rest)
            | None => None
            end
          else if startsWith t "true" then Some (VBool true, string_drop 4 t)
          else if startsWith t "false" then Some (VBool false, string_drop 5 t)
          else if startsWith t "null" then Some (VNull, string_drop 4 t)
          else
            match parse_number t with
            | Some (q, rest) => Some (VNum (Fin q), rest)
            | None => None
            end
      end
  end

with parse_elems (fuel : nat) (s : string) (acc : list value)
  : option (value * string) :=
  match fuel with
  | O => None
  | S fuel' =>
      match parse_value fuel' s with
      | Some (v, rest) =>
          let r := skip_ws rest in
          if head_is "," r then parse_elems fuel' (string_drop 1 r) (acc ++ [v])
          else if head_is "]" r then Some (VArr (acc ++ [v]), string_drop 1 r)
          else None
      | None => None
      end
  end

with parse_members (fuel : nat) (s : string) (acc : list (string * value))
  : option (value * string) :=
  match fuel with
  | O => None
  | S fuel' =>
      if head_is dquote (skip_ws s) then
        match parse_string_body (string_drop 1 (skip_ws s)) with
        | Some (k, rest) =>
            if head_is ":" (skip_ws rest) then
              match parse_value fuel' (string_drop 1 (skip_ws rest)) with
              | Some (v, rest') =>
                  let r := skip_ws rest' in
                  if head_is "," r
                  then parse_members fuel' (string_drop 1 r) (props_set acc k v)
                  else if head_is "}" r
                  then Some (VObj (props_set acc k v), string_drop 1 r)
                  else None
              | None => None
              end
            else None
        | None => None
        end
      else None
  end.

(** Exceptions. *)
Inductive exn : Type :=
| SyntaxError
| TypeError
| QuotaExceededError
| InvalidStateError
| NotSupportedError
| Error (message : string).

(** The outcome of a call: a result or a thrown exception. *)
Inductive outcome (A : Type) : Type :=
| Ret (a : A)
| Throw (e : exn).
Arguments Ret {A} a.
Arguments Throw {A} e.

(** [JSON.parse(text)]: the whole text must be one value, white space
    apart; anything else throws a [SyntaxError]. *)
Definition JSON_parse (text : string) : outcome value :=
  match parse_value (String.length text) text with
  | Some (v, rest) =>
      match skip_ws rest with
      | EmptyString => Ret v
      | _ => Throw SyntaxError
      end
  | None => Throw SyntaxError
  end.

(** ** Effects

    A call runs in a state and either returns or throws; the state it
    leaves is kept in both cases. *)

Definition M (S A : Type) : Type := S -> outcome A * S.

Definition ret {S A : Type} (a : A) : M S A := fun s => (Ret a, s).

Definition throw {S A : Type} (e : exn) : M S A := fun s => (Throw e, s).

Definition bind {S A B : Type} (m : M S A) (k : A -> M S B) : M S B :=
  fun s =>
    match m s with
    | (Ret a, s') => k a s'
    | (Throw e, s') => (Throw e, s')
    end.

(** [try { body } catch (error) { handler }]. *)
Definition try_catch {S A : Type} (body : M S A) (handler : exn -> M S A)
  : M S A :=
  fun s =>
    match body s with
    | (Ret a, s') => (Ret a, s')
    | (Throw e, s') => handler e s'
    end.

Definition get {S : Type} : M S S := fun s => (Ret s, s).

Definition modify {S : Type} (f : S -> S) : M S unit := fun s => (Ret tt, f s).

Definition is_Some_bool {A : Type} (o : option A) : bool :=
  match o with Some _ => true | None => false end.

(** An outcome computed outside the state. *)
Definition lift {S A : Type} (o : outcome A) : M S A := fun s => (o, s).

Notation "x <- m ;; k" := (bind m (fun x => k))
  (at level 100, m at next level, right associativity).
Notation "m ;; k" := (bind m (fun _ => k))
  (at level 100, right associativity).

(** *** The page: localStorage, console, window *)

(** An [AudioContext], as far as the sources read it. *)
Inductive context_state : Type := Suspended | Running | Closed.

Record AudioContext : Type := mkAudioContext {
  ctx_state : context_state
}.

(** What [new C()] does for a constructor [C] of the window. *)
Inductive constructor : Type :=
| Constructs (c : AudioContext)
| Fails (e : exn).

Record World : Type := mkWorld {
  localStorage : gmap string string;
  (** the number of units the storage area may hold *)
  storage_quota : N;
  (** the messages written by console.error *)
  console : list string;
  window_AudioContext : option constructor;
  window_webkitAudioContext : option constructor
}.

Definition set_localStorage (m : gmap string string) (w : World) : World :=
  mkWorld m (storage_quota w) (console w)
          (window_AudioContext w) (window_webkitAudioContext w).

Definition console_error {A : Type} (message : string) (_ : A) : M World unit :=
  modify (fun w => mkWorld (localStorage w) (storage_quota w)
                           (console w ++ [message])
                           (window_AudioContext w) (window_webkitAudioContext w)).

(** The room taken by a storage area: keys and values. *)
Definition storage_usage (m : gmap string string) : N :=
  map_fold (fun k v acc => (acc + N.of_nat (String.length k)
                            + N.of_nat (String.length v))%N) 0%N m.

(** [localStorage.getItem(key)]; [None] is [null]. *)
Definition getItem (key : string) : M World (option string) :=
  fun w => (Ret (localStorage w !! key), w).

(** [localStorage.setItem(key, text)]: throws a [QuotaExceededError], and
    stores nothing, when the new contents would not fit. *)
Definition setItem (key text : string) : M World unit :=
  fun w =>
    let m := <[key := text]> (localStorage w) in
    if (storage_usage m <=? storage_quota w)%N
    then (Ret tt, set_localStorage m w)
    else (Throw QuotaExceededError, w).

(** [localStorage.removeItem(key)]. *)
Definition removeItem (key : string) : M World unit :=
  modify (fun w => set_localStorage (delete key (localStorage w)) w).

(** [String(x)] for the result of [JSON.stringify]. *)
Definition text_of (t : option string) : string :=
  match t with
  | Some s => s
  | None => "undefined"
  end.

(** [new (window.AudioContext || window.webkitAudioContext)()]; calling
    [new] on [undefined] is a [TypeError]. *)
Definition new_AudioContext {S : Type} (w : World) : M S AudioContext :=
  let C := match window_AudioContext w with
           | Some c => Some c
           | None => window_webkitAudioContext w
           end in
  match C with
  | Some (Constructs c) => ret c
  | Some (Fails e) => throw e
  | None => throw TypeError
  end.

(** *** The Web Audio API *)

(** An [AnalyserNode]. *)
Record AnalyserNode : Type := mkAnalyser {
  fftSize : Z;
  smoothingTimeConstant : Q
}.

Definition frequencyBinCount (a : AnalyserNode) : Z := fftSize a / 2.

(** [audioContext.createAnalyser()]: a node with the defaults of the Web
    Audio API, an FFT size of 2048 and a smoothing time constant of 0.8. *)
Definition createAnalyser : AnalyserNode :=
  mkAnalyser 2048 (8 # 10).

Definition set_fftSize (n : Z) (a : AnalyserNode) : AnalyserNode :=
  mkAnalyser n (smoothingTimeConstant a).

Definition set_smoothingTimeConstant (x : Q) (a : AnalyserNode) : AnalyserNode :=
  mkAnalyser (fftSize a) x.

(** An [<audio>] element: a media element takes one source node in its
    life, [createMediaElementSource] throws an [InvalidStateError] on the
    second. *)
Record AudioElement : Type := mkAudioElement {
  has_source : bool
}.

Definition createMediaElementSource {S : Type} (el : AudioElement)
  : M S AudioElement :=
  if has_source el then throw InvalidStateError
  else ret (mkAudioElement true).

(** ** The audio utility module *)

Module AudioUtils.

(** [validateAudioFile(file)]; [None] is a missing file. *)
Definition validateAudioFile (file : option File) : bool :=
  match file with
  | None => false
  | Some f =>
      let validTypes := ["audio/mp3"; "audio/mpeg"]%string in
      let validExtensions := [".mp3"]%string in
      let hasValidType := existsb (String.eqb (file_type f)) validTypes in
      let hasValidExtension :=
        existsb (fun ext => endsWith (toLowerCase (file_name f)) ext)
                validExtensions in
      hasValidType || hasValidExtension
  end.

(** [createAudioUrl(file)]; [blob] is the URL that
    [URL.createObjectURL] hands out. *)
Definition createAudioUrl {S : Type} (blob : string) (file : option File)
  : M S string :=
  if negb (validateAudioFile file)
  then throw (Error "Invalid audio file format. Only MP3 files are supported.")
  else ret blob.

(** [formatTime(seconds)]; [None] is a missing argument. *)
Definition formatTime (seconds : option number) : string :=
  match seconds with
  | None => "0:00"
  | Some s =>
      if negb (number_truthy s) || Number_isNaN s then "0:00"
      else
        let mins := Math_floor (js_div s (num_of_Z 60)) in
        let secs := Math_floor (js_rem s (num_of_Z 60)) in
        Number_toString mins +:+ ":" +:+ padStart 2 "0" (Number_toString secs)
  end.

(** [name.replace(/\.[^/.]+$/, '')]: the match starts at a dot that is
    followed, up to the end, by one or more units other than [/] and
    [.]; the leftmost such dot is taken. *)
Fixpoint remove_extension (name : string) : string :=
  match name with
  | EmptyString => EmptyString
  | String c r =>
      if Ascii.eqb c "." && negb (String.eqb r "")
         && forallb (fun x => negb (Ascii.eqb x "/" || Ascii.eqb x "."))
                    (list_ascii_of_string r)
      then EmptyString
      else String c (remove_extension r)
  end.

(** What the media element answers after [audio.src = url]. *)
Inductive media_event : Type :=
| LoadedMetadata (duration : number)
| MediaError.

(** [getAudioMetadata(file)]: the promise resolves ([Ret]) with the
    metadata object or rejects ([Throw]). *)
Definition getAudioMetadata (blob : string) (answer : media_event)
                            (file : option File) : outcome value :=
  match file with
  | Some f =>
      if negb (validateAudioFile file) then Throw (Error "Invalid audio file")
      else
        match answer with
        | LoadedMetadata duration =>
            Ret (VObj [("name", VStr (remove_extension (file_name f)));
                       ("duration", VNum duration);
                       ("size", VNum (num_of_Z (file_size f)));
                       ("type", VStr (file_type f));
                       ("url", VStr blob)]%string)
        | MediaError => Throw (Error "Failed to load audio metadata")
        end
  | None => Throw (Error "Invalid audio file")
  end.

(** [saveToLocalStorage(key, audioData)]; [now] is [Date.now()]. *)
Definition saveToLocalStorage (now : Z) (key : string) (audioData : value)
  : M World unit :=
  try_catch
    (let dataToStore :=
       VObj (props_set (spread_props audioData) "timestamp" (VNum (num_of_Z now))) in
     setItem key (text_of (JSON_stringify dataToStore)))
    (fun error => console_error "Failed to save to localStorage:" error).

(** [loadFromLocalStorage(key)]. *)
Definition loadFromLocalStorage (key : string) : M World value :=
  try_catch
    (stored <- getItem key ;;
     match stored with
     | Some text =>
         if negb (String.eqb text "") then lift (JSON_parse text)
         else ret VNull
     | None => ret VNull
     end)
    (fun error =>
       console_error "Failed to load from localStorage:" error ;;
       ret VNull).

(** [removeFromLocalStorage(key)]. *)
Definition removeFromLocalStorage (key : string) : M World unit :=
  try_catch (removeItem key)
    (fun error => console_error "Failed to remove from localStorage:" error).

(** [createAudioContext()]; [None] is [null]. *)
Definition createAudioContext : M World (option AudioContext) :=
  try_catch
    (w <- get ;;
     c <- new_AudioContext w ;;
     ret (Some c))
    (fun error =>
       console_error "Web Audio API not supported:" error ;;
       ret None).

(** [connectAudioAnalyser(audioElement, audioContext)]: the analyser, or
    [null], and the audio element as the call leaves it. *)
Definition connectAudioAnalyser (audioElement : option AudioElement)
                                (audioContext : option AudioContext)
  : M World (option AnalyserNode * option AudioElement) :=
  try_catch
    (match audioContext, audioElement with
     | Some ctx, Some el =>
         el' <- createMediaElementSource el ;;
         let analyser := createAnalyser in
         let analyser := set_fftSize 256 analyser in
         let analyser := set_smoothingTimeConstant (8 # 10) analyser in
         ret (Some analyser, Some el')
     | _, _ => ret (None, audioElement)
     end)
    (fun error =>
       console_error "Failed to connect audio analyser:" error ;;
       ret (None, audioElement)).

(** [getFrequencyData(analyser)]: [sample] is what the analyser writes
    into a buffer of the given length. *)
Definition getFrequencyData (sample : nat -> list byte)
                            (analyser : option AnalyserNode) : list byte :=
  match analyser with
  | None => []
  | Some a => sample (Z.to_nat (frequencyBinCount a))
  end.

Definition byte_number (b : byte) : number :=
  num_of_Z (Z.of_N (Byte.to_N b)).

(** [getAverageFrequency(frequencyData)]; [None] is [null]. *)
Definition getAverageFrequency (frequencyData : option (list byte)) : number :=
  match frequencyData with
  | None => num_of_Z 0
  | Some data =>
      if (length data =? 0)%nat then num_of_Z 0
      else
        let sum := fold_left (fun acc value => js_add acc (byte_number value))
                             data (num_of_Z 0) in
        js_div sum (num_of_Z (Z.of_nat (length data)))
  end.

End AudioUtils.

(** ** requestAnimationFrame

    The browser keeps the pending callbacks under their ids; ids start at 1.
    A callback is kept with what the component needs to run it. *)

Section AnimationFrames.
Context {C : Type}.

Record FrameQueue : Type := mkFrameQueue {
  pending : list (nat * C);
  next_id : nat
}.

Definition no_frames : FrameQueue := mkFrameQueue [] 1.

(** [requestAnimationFrame(callback)]: the new queue and the id. *)
Definition request_frame (callback : C) (q : FrameQueue) : FrameQueue * nat :=
  (mkFrameQueue (pending q ++ [(next_id q, callback)]) (S (next_id q)),
   next_id q).

(** [cancelAnimationFrame(id)]. *)
Definition cancel_frame (id : nat) (q : FrameQueue) : FrameQueue :=
  mkFrameQueue (List.filter (fun f => negb (fst f =? id)%nat) (pending q))
               (next_id q).

(** The callback pending under [id], if any. *)
Fixpoint find_frame (id : nat) (l : list (nat * C)) : option C :=
  match l with
  | [] => None
  | (i, c) :: r => if (i =? id)%nat then Some c else find_frame id r
  end.
End AnimationFrames.
Arguments FrameQueue C : clear implicits.

(** ** pages/index.js *)

Module Home.

(** *** The playlist effects *)

(** The effect that loads the playlist on mount; the result is the value
    handed to [setPlaylist], if any. *)
Definition loadPlaylistEffect : M World (option value) :=
  savedPlaylist <- getItem "musicPlayerPlaylist" ;;
  match savedPlaylist with
  | Some text =>
      if negb (String.eqb text "")
      then playlist <- lift (JSON_parse text) ;; ret (Some playlist)
      else ret None
  | None => ret None
  end.

(** The effect that saves the playlist whenever it changes. *)
Definition savePlaylistEffect (playlist : value) : M World unit :=
  setItem "musicPlayerPlaylist" (text_of (JSON_stringify playlist)).

(** Mounting the page: both effects run after the first render, in which
    the playlist is the empty array; a loaded playlist becomes the state
    of the next render, after which the saving effect runs again.  The
    result is the playlist the page ends with. *)
Definition mount : M World value :=
  loaded <- loadPlaylistEffect ;;
  savePlaylistEffect (VArr []) ;;
  match loaded with
  | Some playlist => savePlaylistEffect playlist ;; ret playlist
  | None => ret (VArr [])
  end.

(** *** handleFileUpload *)

(** The files that pass the filter of [handleFileUpload]. *)
Definition mp3Files (files : list File) : list File :=
  List.filter (fun file => String.eqb (file_type file) "audio/mpeg") files.

(** The track built in [reader.onload]: [now] is [Date.now()], [random]
    is [Math.random()] and [result] the data URL read from the file. *)
Definition newTrack (now : Z) (random : Q) (result : string) (file : File)
  : value :=
  VObj [("id", VNum (js_add (num_of_Z now) (Fin random)));
        ("name", VStr (replace_first ".mp3" "" (file_name file)));
        ("url", VStr result);
        ("file", VFile file)]%string.

(** *** The page state: React state, refs, and the browser side *)

Record State : Type := mkState {
  currentTrack : value;
  isPlaying : bool;
  playlist : list value;
  (** [audioRef.current]: the audio element while the page is mounted *)
  audioRef : option AudioElement;
  audioContextRef : option AudioContext;
  analyserRef : option AnalyserNode;
  (** [dataArrayRef.current]: the length of the byte buffer *)
  dataArrayRef : option nat;
  animationRef : option nat;
  (** pending animation frames; the callback is [updateVisualization] *)
  frames : FrameQueue unit;
  (** the analyser as it was at each [getByteFrequencyData] *)
  reads : list AnalyserNode;
  world : World
}.

Definition init (w : World) : State :=
  mkState VNull false [] (Some (mkAudioElement false)) None None None None
          no_frames [] w.

Definition set_currentTrack (x : value) (s : State) : State :=
  mkState x (isPlaying s) (playlist s) (audioRef s) (audioContextRef s)
          (analyserRef s) (dataArrayRef s) (animationRef s) (frames s)
          (reads s) (world s).
Definition set_isPlaying (x : bool) (s : State) : State :=
  mkState (currentTrack s) x (playlist s) (audioRef s) (audioContextRef s)
          (analyserRef s) (dataArrayRef s) (animationRef s) (frames s)
          (reads s) (world s).
Definition set_playlist (x : list value) (s : State) : State :=
  mkState (currentTrack s) (isPlaying s) x (audioRef s) (audioContextRef s)
          (analyserRef s) (dataArrayRef s) (animationRef s) (frames s)
          (reads s) (world s).
Definition set_audioRef (x : option AudioElement) (s : State) : State :=
  mkState (currentTrack s) (isPlaying s) (playlist s) x (audioContextRef s)
          (analyserRef s) (dataArrayRef s) (animationRef s) (frames s)
          (reads s) (world s).
Definition set_audioContextRef (x : option AudioContext) (s : State) : State :=
  mkState (currentTrack s) (isPlaying s) (playlist s) (audioRef s) x
          (analyserRef s) (dataArrayRef s) (animationRef s) (frames s)
          (reads s) (world s).
Definition set_analyserRef (x : option AnalyserNode) (s : State) : State :=
  mkState (currentTrack s) (isPlaying s) (playlist s) (audioRef s)
          (audioContextRef s) x (dataArrayRef s) (animationRef s) (frames s)
          (reads s) (world s).
Definition set_dataArrayRef (x : option nat) (s : State) : State :=
  mkState (currentTrack s) (isPlaying s) (playlist s) (audioRef s)
          (audioContextRef s) (analyserRef s) x (animationRef s) (frames s)
          (reads s) (world s).
Definition set_animationRef (x : option nat) (s : State) : State :=
  mkState (currentTrack s) (isPlaying s) (playlist s) (audioRef s)
          (audioContextRef s) (analyserRef s) (dataArrayRef s) x (frames s)
          (reads s) (world s).
Definition set_frames (x : FrameQueue unit) (s : State) : State :=
  mkState (currentTrack s) (isPlaying s) (playlist s) (audioRef s)
          (audioContextRef s) (analyserRef s) (dataArrayRef s)
          (animationRef s) x (reads s) (world s).
Definition set_reads (x : list AnalyserNode) (s : State) : State :=
  mkState (currentTrack s) (isPlaying s) (playlist s) (audioRef s)
          (audioContextRef s) (analyserRef s) (dataArrayRef s)
          (animationRef s) (frames s) x (world s).
Definition set_world (x : World) (s : State) : State :=
  mkState (currentTrack s) (isPlaying s) (playlist s) (audioRef s)
          (audioContextRef s) (analyserRef s) (dataArrayRef s)
          (animationRef s) (frames s) (reads s) x.

(** A call on the page's world, run in the page state. *)
Definition in_world {A : Type} (m : M World A) : M State A :=
  fun s => match m (world s) with (o, w) => (o, set_world w s) end.

Definition requestAnimationFrame : M State nat :=
  fun s => match request_frame tt (frames s) with
           | (q, id) => (Ret id, set_frames q s)
           end.

Definition cancelAnimationFrame (id : nat) : M State unit :=
  modify (fun s => set_frames (cancel_frame id (frames s)) s).

(** [if (animationRef.current) cancelAnimationFrame(animationRef.current)];
    the id [0] is falsy. *)
Definition cancel_pending : M State unit :=
  s <- get ;;
  match animationRef s with
  | Some id => if (id =? 0)%nat then ret tt else cancelAnimationFrame id
  | None => ret tt
  end.

(** [reader.onload]: [captured] is the [currentTrack] of the render in
    which the file was chosen. *)
Definition reader_onload (captured : value) (now : Z) (random : Q)
                         (result : string) (file : File) : M State unit :=
  let track := newTrack now random result file in
  modify (fun s => set_playlist (playlist s ++ [track]) s) ;;
  if negb (truthy captured) then modify (set_currentTrack track) else ret tt.

(** [initializeAudioContext()]. *)
Definition initializeAudioContext : M State unit :=
  s <- get ;;
  match audioContextRef s, audioRef s with
  | None, Some el =>
      ctx <- new_AudioContext (world s) ;;
      modify (set_audioContextRef (Some ctx)) ;;
      modify (set_analyserRef (Some createAnalyser)) ;;
      el' <- createMediaElementSource el ;;
      modify (set_audioRef (Some el')) ;;
      modify (fun s => set_analyserRef
                         (option_map (set_fftSize 256) (analyserRef s)) s) ;;
      modify (fun s => set_dataArrayRef
                         (option_map (fun a => Z.to_nat (frequencyBinCount a))
                                     (analyserRef s)) s)
  | _, _ => ret tt
  end.

(** [updateVisualization()]. *)
Definition updateVisualization : M State unit :=
  s <- get ;;
  match analyserRef s, dataArrayRef s with
  | Some a, Some _ => modify (set_reads (reads s ++ [a]))
  | _, _ => ret tt
  end ;;
  id <- requestAnimationFrame ;;
  modify (set_animationRef (Some id)).

(** [audioContextRef.current.resume()] when the context is suspended. *)
Definition resume_if_suspended : M State unit :=
  modify (fun s =>
            match audioContextRef s with
            | Some (mkAudioContext Suspended) =>
                set_audioContextRef (Some (mkAudioContext Running)) s
            | _ => s
            end).

(** [togglePlayPause()]; [play] is what [audioRef.current.play()]
    settles to.  The awaits of the handler are run without another event
    coming in between. *)
Definition togglePlayPause (play : outcome unit) : M State unit :=
  s <- get ;;
  if negb (truthy (currentTrack s)) || negb (is_Some_bool (audioRef s))
  then ret tt
  else
    try_catch
      ((if isPlaying s then cancel_pending
        else
          resume_if_suspended ;;
          initializeAudioContext ;;
          lift play ;;
          updateVisualization) ;;
       modify (set_isPlaying (negb (isPlaying s))))
      (fun error => in_world (console_error "Error playing audio:" error)).

(** [handleEnded()]. *)
Definition handleEnded : M State unit :=
  modify (set_isPlaying false) ;;
  cancel_pending.

(** [formatTime(time)]; [None] is a missing argument, which is [NaN] as
    a number. *)
Definition formatTime (time : option number) : string :=
  let time := match time with Some t => t | None => NaN end in
  let minutes := Math_floor (js_div time (num_of_Z 60)) in
  let seconds := Math_floor (js_rem time (num_of_Z 60)) in
  Number_toString minutes +:+ ":" +:+ padStart 2 "0" (Number_toString seconds).

(** *** The events of the page *)

Inductive event : Type :=
| FileLoaded (captured : value) (now : Z) (random : Q) (result : string)
             (file : File)
| SelectTrack (track : value)
| PlayPauseClick (play : outcome unit)
| AudioEnded
| AnimationFrame (id : nat)
| Unmount.

(** One event.  The handlers of the page run while it is mounted; a
    pending animation frame runs whenever the browser fires it.  The page
    has no effect cleanup: unmounting only detaches [audioRef]. *)
Definition step (s : State) (e : event) : State :=
  let mounted := is_Some_bool (audioRef s) in
  match e with
  | FileLoaded captured now random result file =>
      if mounted then snd (reader_onload captured now random result file s)
      else s
  | SelectTrack track => if mounted then set_currentTrack track s else s
  | PlayPauseClick play =>
      if mounted then snd (togglePlayPause play s) else s
  | AudioEnded => if mounted then snd (handleEnded s) else s
  | AnimationFrame id =>
      match find_frame id (pending (frames s)) with
      | Some _ =>
          snd (updateVisualization
                 (set_frames (cancel_frame id (frames s)) s))
      | None => s
      end
  | Unmount => set_audioRef None s
  end.

Definition run (s : State) (evs : list event) : State :=
  fold_left step evs s.

End Home.

(** ** components/AudioVisualizer.js *)

Module AudioVisualizer.

Record State : Type := mkState {
  (** the props of the last render *)
  audioElement : option AudioElement;
  isPlaying : bool;
  (** React state: the rendered value, and the update queued by
      [setIsInitialized] for the next render *)
  isInitialized : bool;
  queued_isInitialized : option bool;
  (** [canvasRef.current] is set while the component is mounted *)
  mounted : bool;
  audioContextRef : option AudioContext;
  analyserRef : option AnalyserNode;
  sourceRef : bool;
  dataArrayRef : option nat;
  animationRef : option nat;
  (** whether the last run of each effect returned a cleanup *)
  cleanup_init : bool;
  cleanup_animation : bool;
  (** pending animation frames; the callback is a [draw] closure, kept
      with the [isPlaying] it has captured *)
  frames : FrameQueue bool;
  (** the analyser as it was at each [getByteFrequencyData] *)
  reads : list AnalyserNode;
  world : World
}.

Definition init (w : World) : State :=
  mkState None false false None false None None false None None false false
          no_frames [] w.

Definition set_props (el : option AudioElement) (playing : bool) (s : State)
  : State :=
  mkState el playing (isInitialized s) (queued_isInitialized s) (mounted s)
          (audioContextRef s) (analyserRef s) (sourceRef s) (dataArrayRef s)
          (animationRef s) (cleanup_init s) (cleanup_animation s) (frames s)
          (reads s) (world s).
Definition set_audioElement (x : option AudioElement) (s : State) : State :=
  set_props x (isPlaying s) s.
Definition set_isInitialized (x : bool) (q : option bool) (s : State) : State :=
  mkState (audioElement s) (isPlaying s) x q (mounted s)
          (audioContextRef s) (analyserRef s) (sourceRef s) (dataArrayRef s)
          (animationRef s) (cleanup_init s) (cleanup_animation s) (frames s)
          (reads s) (world s).
Definition set_mounted (x : bool) (s : State) : State :=
  mkState (audioElement s) (isPlaying s) (isInitialized s)
          (queued_isInitialized s) x
          (audioContextRef s) (analyserRef s) (sourceRef s) (dataArrayRef s)
          (animationRef s) (cleanup_init s) (cleanup_animation s) (frames s)
          (reads s) (world s).
Definition set_audioContextRef (x : option AudioContext) (s : State) : State :=
  mkState (audioElement s) (isPlaying s) (isInitialized s)
          (queued_isInitialized s) (mounted s)
          x (analyserRef s) (sourceRef s) (dataArrayRef s)
          (animationRef s) (cleanup_init s) (cleanup_animation s) (frames s)
          (reads s) (world s).
Definition set_analyserRef (x : option AnalyserNode) (s : State) : State :=
  mkState (audioElement s) (isPlaying s) (isInitialized s)
          (queued_isInitialized s) (mounted s)
          (audioContextRef s) x (sourceRef s) (dataArrayRef s)
          (animationRef s) (cleanup_init s) (cleanup_animation s) (frames s)
          (reads s) (world s).
Definition set_sourceRef (x : bool) (s : State) : State :=
  mkState (audioElement s) (isPlaying s) (isInitialized s)
          (queued_isInitialized s) (mounted s)
          (audioContextRef s) (analyserRef s) x (dataArrayRef s)
          (animationRef s) (cleanup_init s) (cleanup_animation s) (frames s)
          (reads s) (world s).
Definition set_dataArrayRef (x : option nat) (s : State) : State :=
  mkState (audioElement s) (isPlaying s) (isInitialized s)
          (queued_isInitialized s) (mounted s)
          (audioContextRef s) (analyserRef s) (sourceRef s) x
          (animationRef s) (cleanup_init s) (cleanup_animation s) (frames s)
          (reads s) (world s).
Definition set_animationRef (x : option nat) (s : State) : State :=
  mkState (audioElement s) (isPlaying s) (isInitialized s)
          (queued_isInitialized s) (mounted s)
          (audioContextRef s) (analyserRef s) (sourceRef s) (dataArrayRef s)
          x (cleanup_init s) (cleanup_animation s) (frames s)
          (reads s) (world s).
Definition set_cleanup_init (x : bool) (s : State) : State :=
  mkState (audioElement s) (isPlaying s) (isInitialized s)
          (queued_isInitialized s) (mounted s)
          (audioContextRef s) (analyserRef s) (sourceRef s) (dataArrayRef s)
          (animationRef s) x (cleanup_animation s) (frames s)
          (reads s) (world s).
Definition set_cleanup_animation (x : bool) (s : State) : State :=
  mkState (audioElement s) (isPlaying s) (isInitialized s)
          (queued_isInitialized s) (mounted s)
          (audioContextRef s) (analyserRef s) (sourceRef s) (dataArrayRef s)
          (animationRef s) (cleanup_init s) x (frames s)
          (reads s) (world s).
Definition set_frames (x : FrameQueue bool) (s : State) : State :=
  mkState (audioElement s) (isPlaying s) (isInitialized s)
          (queued_isInitialized s) (mounted s)
          (audioContextRef s) (analyserRef s) (sourceRef s) (dataArrayRef s)
          (animationRef s) (cleanup_init s) (cleanup_animation s) x
          (reads s) (world s).
Definition set_reads (x : list AnalyserNode) (s : State) : State :=
  mkState (audioElement s) (isPlaying s) (isInitialized s)
          (queued_isInitialized s) (mounted s)
          (audioContextRef s) (analyserRef s) (sourceRef s) (dataArrayRef s)
          (animationRef s) (cleanup_init s) (cleanup_animation s) (frames s)
          x (world s).
Definition set_world (x : World) (s : State) : State :=
  mkState (audioElement s) (isPlaying s) (isInitialized s)
          (queued_isInitialized s) (mounted s)
          (audioContextRef s) (analyserRef s) (sourceRef s) (dataArrayRef s)
          (animationRef s) (cleanup_init s) (cleanup_animation s) (frames s)
          (reads s) x.

Definition in_world {A : Type} (m : M World A) : M State A :=
  fun s => match m (world s) with (o, w) => (o, set_world w s) end.

Definition requestAnimationFrame (closure : bool) : M State nat :=
  fun s => match request_frame closure (frames s) with
           | (q, id) => (Ret id, set_frames q s)
           end.

Definition cancelAnimationFrame (id : nat) : M State unit :=
  modify (fun s => set_frames (cancel_frame id (frames s)) s).

(** [if (animationRef.current) cancelAnimationFrame(animationRef.current)],
    the body of both cleanups. *)
Definition cancel_pending : M State unit :=
  s <- get ;;
  match animationRef s with
  | Some id => if (id =? 0)%nat then ret tt else cancelAnimationFrame id
  | None => ret tt
  end.

(** [initializeAudioContext()] of the first effect. *)
Definition initializeAudioContext (el : AudioElement) : M State unit :=
  try_catch
    (s <- get ;;
     match audioContextRef s with
     | None =>
         ctx <- new_AudioContext (world s) ;;
         modify (set_audioContextRef (Some ctx)) ;;
         modify (set_analyserRef (Some createAnalyser)) ;;
         modify (fun s => set_analyserRef
                            (option_map (set_fftSize 256) (analyserRef s)) s) ;;
         modify (fun s => set_dataArrayRef
                            (option_map (fun a => Z.to_nat (frequencyBinCount a))
                                        (analyserRef s)) s) ;;
         s <- get ;;
         (if negb (sourceRef s) then
            el' <- createMediaElementSource el ;;
            modify (set_audioElement (Some el')) ;;
            modify (set_sourceRef true)
          else ret tt) ;;
         modify (fun s => set_isInitialized (isInitialized s) (Some true) s)
     | Some _ => ret tt
     end)
    (fun error =>
       in_world (console_error "Error initializing audio context:" error)).

(** The first effect (dependencies: [audioElement]). *)
Definition init_effect : M State unit :=
  s <- get ;;
  match audioElement s with
  | Some el =>
      if mounted s then
        initializeAudioContext el ;;
        modify (set_cleanup_init true)
      else modify (set_cleanup_init false)
  | None => modify (set_cleanup_init false)
  end.

(** [draw()], for a closure that has captured [captured] as its
    [isPlaying]. *)
Definition draw (captured : bool) : M State unit :=
  if negb captured then ret tt
  else
    s <- get ;;
    match analyserRef s with
    | Some a => modify (set_reads (reads s ++ [a]))
    | None => throw TypeError
    end ;;
    id <- requestAnimationFrame captured ;;
    modify (set_animationRef (Some id)).

Definition resume_if_suspended : M State unit :=
  modify (fun s =>
            match audioContextRef s with
            | Some (mkAudioContext Suspended) =>
                set_audioContextRef (Some (mkAudioContext Running)) s
            | _ => s
            end).

(** The second effect (dependencies: [isPlaying], [isInitialized]). *)
Definition animation_effect : M State unit :=
  s <- get ;;
  if negb (isInitialized s) || negb (isPlaying s) || negb (mounted s)
     || negb (is_Some_bool (analyserRef s))
  then
    cancel_pending ;;
    modify (set_cleanup_animation false)
  else
    resume_if_suspended ;;
    draw (isPlaying s) ;;
    modify (set_cleanup_animation true).

(** The effects of one commit: the cleanups of the effects that run
    again, then these effects. *)
Definition run_effects (init_again animation_again : bool) : M State unit :=
  s <- get ;;
  (if init_again && cleanup_init s then cancel_pending else ret tt) ;;
  (if animation_again && cleanup_animation s then cancel_pending else ret tt) ;;
  (if init_again then init_effect else ret tt) ;;
  (if animation_again then animation_effect else ret tt).

(** The render that a queued state update asks for. *)
Definition flush_state : M State unit :=
  s <- get ;;
  match queued_isInitialized s with
  | Some b =>
      modify (set_isInitialized b None) ;;
      if Bool.eqb b (isInitialized s) then ret tt
      else run_effects false true
  | None => ret tt
  end.

(** Mounting the component with its first props: both effects run, then
    the render that [setIsInitialized] asks for. *)
Definition mount (el : option AudioElement) (playing : bool) (w : World)
  : State :=
  snd ((run_effects true true ;; flush_state)
         (set_mounted true (set_props el playing (init w)))).

(** The events of a mounted component. *)
Inductive event : Type :=
| Render (el : option AudioElement) (playing : bool) (same_element : bool)
| AnimationFrame (id : nat)
| Unmount.

(** One event.  [Render] is a render with new props; [same_element]
    tells whether the [audioElement] prop is the object of the last
    render.  An unmounted component is not rendered again. *)
Definition step (s : State) (e : event) : State :=
  match e with
  | Render el playing same_element =>
      if mounted s then
        snd ((run_effects (negb same_element)
                          (negb (Bool.eqb playing (isPlaying s))) ;;
              flush_state)
               (set_props (if same_element then audioElement s else el)
                          playing s))
      else s
  | AnimationFrame id =>
      match find_frame id (pending (frames s)) with
      | Some captured =>
          snd (draw captured (set_frames (cancel_frame id (frames s)) s))
      | None => s
      end
  | Unmount =>
      if mounted s then
        snd (((if cleanup_init s then cancel_pending else ret tt) ;;
              (if cleanup_animation s then cancel_pending else ret tt) ;;
              modify (set_cleanup_init false) ;;
              modify (set_cleanup_animation false))
               (set_mounted false s))
      else s
  end.

Definition run (s : State) (evs : list event) : State :=
  fold_left step evs s.

End AudioVisualizer.

(** ** The MusicPlayer component *)

Module MusicPlayer.

(** A track of the playlist prop: an object, given by its properties. *)
Definition Track : Type := list (string * value).

Definition track_prop (t : Track) (k : string) : value :=
  get_prop (VObj t) k.

(** [array.findIndex(p)]: the first index at which [p] holds, or [-1]. *)
Fixpoint findIndex (p : Track -> bool) (l : list Track) : Z :=
  match l with
  | [] => -1
  | t :: r =>
      if p t then 0
      else let i := findIndex p r in if i <? 0 then -1 else i + 1
  end.

(** [array[i]]: [undefined] outside the array. *)
Definition at_index (l : list Track) (i : Z) : value :=
  if i <? 0 then VUndefined
  else match nth_error l (Z.to_nat i) with
       | Some t => VObj t
       | None => VUndefined
       end.

(** [handlePrevious()]: the argument of the call of [onTrackChange], if
    it is called.  A missing playlist is [None]. *)
Definition handlePrevious (playlist : option (list Track))
                          (currentTrack : value) : option value :=
  match playlist with
  | None => None
  | Some playlist =>
      if (length playlist =? 0)%nat then None
      else
        let currentIndex :=
          findIndex (fun track => strict_eq (track_prop track "id")
                                            (get_prop currentTrack "id"))
                    playlist in
        let prevIndex := if currentIndex >? 0 then currentIndex - 1
                         else Z.of_nat (length playlist) - 1 in
        Some (at_index playlist prevIndex)
  end.

(** [handleNext()]. *)
Definition handleNext (playlist : option (list Track))
                      (currentTrack : value) : option value :=
  match playlist with
  | None => None
  | Some playlist =>
      if (length playlist =? 0)%nat then None
      else
        let currentIndex :=
          findIndex (fun track => strict_eq (track_prop track "id")
                                            (get_prop currentTrack "id"))
                    playlist in
        let nextIndex := if currentIndex <? Z.of_nat (length playlist) - 1
                         then currentIndex + 1 else 0 in
        Some (at_index playlist nextIndex)
  end.

(** [formatTime(time)]; a missing argument is [NaN] as a number. *)
Definition formatTime (time : option number) : string :=
  let time := match time with Some t => t | None => NaN end in
  if Number_isNaN time then "0:00"
  else
    let minutes := Math_floor (js_div time (num_of_Z 60)) in
    let seconds := Math_floor (js_rem time (num_of_Z 60)) in
    Number_toString minutes +:+ ":" +:+ padStart 2 "0" (Number_toString seconds).

End MusicPlayer.

(** ** The FileUpload component *)

Module FileUpload.

Record State : Type := mkState {
  (** the message shown under the drop zone *)
  error : string;
  (** the calls of the [onFileSelect] prop, oldest first *)
  onFileSelect_calls : list (option File)
}.

Definition setError (message : string) (s : State) : State :=
  mkState message (onFileSelect_calls s).

Definition onFileSelect (file : option File) (s : State) : State :=
  mkState (error s) (onFileSelect_calls s ++ [file]).

(** [handleFileSelect(file)]; [None] is a missing file. *)
Definition handleFileSelect (file : option File) (s : State) : State :=
  let s := setError "" s in
  match file with
  | None => s
  | Some f =>
      if negb (String.eqb (file_type f) "audio/mpeg")
         && negb (endsWith (toLowerCase (file_name f)) ".mp3")
      then setError "Please select an MP3 file only" s
      else if file_size f >? 50 * 1024 * 1024
      then setError "File size must be less than 50MB" s
      else onFileSelect file s
  end.

(** [clearFile()]. *)
Definition clearFile (s : State) : State :=
  setError "" (onFileSelect None s).

End FileUpload.

(** ** Object URLs

    [URL.createObjectURL] hands out a URL of the scheme [blob:], which is
    alive until [URL.revokeObjectURL] is called on it.  The state is the set
    of the URLs that are alive. *)

Module ObjectURLs.

Definition Live : Type := gset string.

(** The URL that the browser makes of [uuid]. *)
Definition blob_url (uuid : string) : string := "blob:" +:+ uuid.

(** [URL.createObjectURL(file)]; [uuid] is what the browser writes after
    the scheme. *)
Definition createObjectURL (uuid : string) : M Live string :=
  fun live => (Ret (blob_url uuid), {[ blob_url uuid ]} ∪ live).

(** [URL.revokeObjectURL(url)]; a URL that is not alive is left alone. *)
Definition revokeObjectURL (url : string) : M Live unit :=
  modify (fun live => live ∖ {[ url ]}).

(** [createAudioUrl(file)]. *)
Definition createAudioUrl (uuid : string) (file : option File) : M Live string :=
  if negb (AudioUtils.validateAudioFile file)
  then throw (Error "Invalid audio file format. Only MP3 files are supported.")
  else createObjectURL uuid.

(** [revokeAudioUrl(url)].  A truthy value that is no string has no
    [startsWith] method, and calling it is a [TypeError]. *)
Definition revokeAudioUrl (url : value) : M Live unit :=
  if truthy url then
    match url with
    | VStr s => if startsWith s "blob:" then revokeObjectURL s else ret tt
    | _ => throw TypeError
    end
  else ret tt.

(** [getAudioMetadata(file)], with the object URL it creates: the promise
    resolves ([Ret]) on [loadedmetadata] and rejects ([Throw]) on [error],
    after the URL is revoked. *)
Definition getAudioMetadata (uuid : string) (answer : AudioUtils.media_event)
                            (file : option File) : M Live value :=
  match file with
  | Some f =>
      if negb (AudioUtils.validateAudioFile file)
      then throw (Error "Invalid audio file")
      else
        url <- createAudioUrl uuid file ;;
        match answer with
        | AudioUtils.LoadedMetadata duration =>
            ret (VObj [("name", VStr (AudioUtils.remove_extension (file_name f)));
                       ("duration", VNum duration);
                       ("size", VNum (num_of_Z (file_size f)));
                       ("type", VStr (file_type f));
                       ("url", VStr url)]%string)
        | AudioUtils.MediaError =>
            revokeAudioUrl (VStr url) ;;
            throw (Error "Failed to load audio metadata")
        end
  | None => throw (Error "Invalid audio file")
  end.

End ObjectURLs.

(** ** pages/index.js: what the page draws *)

Module HomeView.

(** [audioData[index]]; [None] is [undefined], outside the array. *)
Definition sample_at (audioData : list byte) (index : nat) : option number :=
  option_map AudioUtils.byte_number (nth_error audioData index).

(** The height, in percent, of the bar at [index]:
    [Math.max(audioData[index] ? (audioData[index] / 255) * 100 : 0, 2)]. *)
Definition bar_height (audioData : list byte) (index : nat) : number :=
  let height :=
    match sample_at audioData index with
    | Some x =>
        if number_truthy x
        then js_mul (js_div x (num_of_Z 255)) (num_of_Z 100)
        else num_of_Z 0
    | None => num_of_Z 0
    end in
  Math_max height (num_of_Z 2).

(** The bars of the page: [Array.from({ length: 32 }).map(...)]. *)
Definition bars (audioData : list byte) : list number :=
  map (bar_height audioData) (seq 0 32).

(** The position of the progress slider:
    [duration ? (currentTime / duration) * 100 : 0]. *)
Definition progress (currentTime duration : number) : number :=
  if number_truthy duration
  then js_mul (js_div currentTime duration) (num_of_Z 100)
  else num_of_Z 0.

(** [handleSeek(e)]: the time handed to [audio.currentTime] and to
    [setCurrentTime]; [position] is [e.target.value] as a number. *)
Definition handleSeek (position duration : number) : number :=
  js_mul (js_div position (num_of_Z 100)) duration.

End HomeView.

(** ** components/AudioVisualizer.js: what [draw] paints *)

Module Canvas.

(** A call of [ctx.fillRect], with the fill style in force: the colour is
    kept by its channels, as numbers. *)
Record FillRect : Type := mkFillRect {
  fill_r : number;
  fill_g : number;
  fill_b : number;
  fill_alpha : number;
  rect_x : number;
  rect_y : number;
  rect_width : number;
  rect_height : number
}.

(** The attributes of the [<canvas>] element. *)
Definition canvas_width : number := num_of_Z 400.
Definition canvas_height : number := num_of_Z 128.

(** [dataArrayRef.current[i]] as a number. *)
Definition sample_at (data : list byte) (i : nat) : number :=
  match nth_error data i with
  | Some b => AudioUtils.byte_number b
  | None => NaN
  end.

(** One round of the loop of [draw]: the bar at index [i], drawn at
    abscissa [x]. *)
Definition bar (data : list byte) (height : number) (bufferLength : nat)
               (barWidth : number) (i : nat) (x : number) : FillRect :=
  let barHeight := js_mul (js_div (sample_at data i) (num_of_Z 255)) height in
  let ratio := js_div (num_of_Z (Z.of_nat i)) (num_of_Z (Z.of_nat bufferLength)) in
  let r := js_add barHeight (js_mul (num_of_Z 25) ratio) in
  let g := js_mul (num_of_Z 250) ratio in
  let b := num_of_Z 50 in
  mkFillRect r g b (Fin (4 # 5)) x (js_sub height barHeight) barWidth barHeight.

(** [x += barWidth + 1]. *)
Definition advance (barWidth : number) (x : number) : number :=
  js_add x (js_add barWidth (num_of_Z 1)).

(** The loop of [draw], with [k] rounds to go from index [i] and
    abscissa [x]. *)
Fixpoint bars_from (data : list byte) (height : number) (bufferLength : nat)
                   (barWidth : number) (k i : nat) (x : number)
  : list FillRect :=
  match k with
  | O => []
  | S k' =>
      bar data height bufferLength barWidth i x
      :: bars_from data height bufferLength barWidth k' (S i) (advance barWidth x)
  end.

(** The calls of [fillRect] in one run of [draw]: the veil over the last
    frame, then the bars. *)
Definition draw (data : list byte) (width height : number) (bufferLength : nat)
  : list FillRect :=
  let barWidth :=
    js_mul (js_div width (num_of_Z (Z.of_nat bufferLength))) (Fin (5 # 2)) in
  mkFillRect (num_of_Z 255) (num_of_Z 255) (num_of_Z 255) (Fin (1 # 10))
             (num_of_Z 0) (num_of_Z 0) width height
  :: bars_from data height bufferLength barWidth bufferLength 0 (num_of_Z 0).

End Canvas.

(** ** The MusicPlayer component: its events *)

Module MusicPlayerEvents.

Record State : Type := mkState {
  (** the props of the last render *)
  currentTrack : value;
  playlist : option (list MusicPlayer.Track);
  isPlaying : bool;
  (** the listeners that the first effect has put on the audio element,
      by the props of the render in which it ran *)
  listeners : option (option (list MusicPlayer.Track) * value);
  (** the calls of the [onTrackChange] prop, oldest first *)
  onTrackChange_calls : list value
}.

Definition init : State := mkState VNull None false None [].

Definition set_isPlaying (x : bool) (s : State) : State :=
  mkState (currentTrack s) (playlist s) x (listeners s) (onTrackChange_calls s).

Definition onTrackChange (track : option value) (s : State) : State :=
  match track with
  | Some t =>
      mkState (currentTrack s) (playlist s) (isPlaying s) (listeners s)
              (onTrackChange_calls s ++ [t])
  | None => s
  end.

(** [disabled={!playlist || playlist.length <= 1}]. *)
Definition skip_disabled (playlist : option (list MusicPlayer.Track)) : bool :=
  match playlist with
  | None => true
  | Some l => (length l <=? 1)%nat
  end.

Inductive event : Type :=
| Render (track : value) (tracks : option (list MusicPlayer.Track))
         (same_track : bool)
| Ended
| ClickNext
| ClickPrevious
| ClickPlayPause.

(** One event.  [Render] is a render with new props; [same_track] tells
    whether the [currentTrack] prop is the object of the last render.  The
    first effect (dependencies: [currentTrack]) runs again when it is not;
    it puts the listeners on the audio element, which is there when the
    track is.  The buttons are there when the track is. *)
Definition step (s : State) (e : event) : State :=
  match e with
  | Render track tracks same_track =>
      let track := if same_track then currentTrack s else track in
      mkState track tracks (isPlaying s)
              (if same_track then listeners s
               else if truthy track then Some (tracks, track) else None)
              (onTrackChange_calls s)
  | Ended =>
      match listeners s with
      | Some (tracks, track) =>
          onTrackChange (MusicPlayer.handleNext tracks track)
                        (set_isPlaying false s)
      | None => s
      end
  | ClickNext =>
      if truthy (currentTrack s) && negb (skip_disabled (playlist s))
      then onTrackChange (MusicPlayer.handleNext (playlist s) (currentTrack s)) s
      else s
  | ClickPrevious =>
      if truthy (currentTrack s) && negb (skip_disabled (playlist s))
      then onTrackChange (MusicPlayer.handlePrevious (playlist s) (currentTrack s)) s
      else s
  | ClickPlayPause =>
      if truthy (currentTrack s) then set_isPlaying (negb (isPlaying s)) s else s
  end.

Definition run (s : State) (evs : list event) : State :=
  fold_left step evs s.

(** [progressPercentage]. *)
Definition progressPercentage (currentTime duration : number) : number :=
  if number_truthy duration
  then js_mul (js_div currentTime duration) (num_of_Z 100)
  else num_of_Z 0.

(** [handleProgressClick(e)]: the time handed to [audio.currentTime] and to
    [setCurrentTime], for a click at [clientX] on a bar that starts at
    [left] and is [width] wide. *)
Definition handleProgressClick (clientX left width duration : number) : number :=
  let clickX := js_sub clientX left in
  js_mul (js_div clickX width) duration.

End MusicPlayerEvents.

(** ** The FileUpload component: its events *)

Module FileUploadEvents.

Record State : Type := mkState {
  upload : FileUpload.State;
  isDragOver : bool;
  (** [fileInputRef.current.value] *)
  input_value : string
}.

Definition init : State := mkState (FileUpload.mkState "" []) false "".

(** [files?.[0]]; a missing list is [None]. *)
Definition first_file (files : option (list File)) : option File :=
  match files with
  | Some (f :: _) => Some f
  | _ => None
  end.

Inductive event : Type :=
| FileChange (path : string) (files : option (list File))
| DragOver
| DragLeave
| Drop (files : option (list File))
| ClearFile.

(** One event: [handleFileChange] (the input then holds [path]),
    [handleDragOver], [handleDragLeave], [handleDrop] and [clearFile]. *)
Definition step (s : State) (e : event) : State :=
  match e with
  | FileChange path files =>
      mkState (FileUpload.handleFileSelect (first_file files) (upload s))
              (isDragOver s) path
  | DragOver => mkState (upload s) true (input_value s)
  | DragLeave => mkState (upload s) false (input_value s)
  | Drop files =>
      mkState (FileUpload.handleFileSelect (first_file files) (upload s))
              false (input_value s)
  | ClearFile => mkState (FileUpload.clearFile (upload s)) (isDragOver s) ""
  end.

Definition run (s : State) (evs : list event) : State :=
  fold_left step evs s.

End FileUploadEvents.

(** * Specification

    The notions in which the properties are stated. *)

(** The name ends, whatever the case of its letters, in [.mp3]. *)
Definition ends_in_mp3 (name : string) : Prop :=
  exists base ext, name = base +:+ ext /\ toLowerCase ext = ".mp3"%string.


(** [FileUpload] accepts a file when it hands it to [onFileSelect]. *)
Definition FileUpload_accepts (f : File) (s : FileUpload.State) : Prop :=
  FileUpload.onFileSelect_calls (FileUpload.handleFileSelect (Some f) s)
  = FileUpload.onFileSelect_calls s ++ [Some f].

Definition byte_sum (data : list byte) : Z :=
  fold_right (fun b acc => Z.of_N (Byte.to_N b) + acc) 0 data.

(** The minutes and seconds shown for [s] seconds: [floor (s / 60)], and
    the floor of what is left of [s]. *)
Definition minutes_of (s : Q) : Z := Qfloor (s / 60).
Definition seconds_of (s : Q) : Z := Qfloor (s - 60 * inject_Z (minutes_of s)).

(** A number below 100 on two digits. *)
Definition two_digits (r : Z) : string :=
  String (digit_char (r / 10)) (String (digit_char (r mod 10)) "").

(** The clock reading the specification asks for. *)
Definition clock (s : Q) : string :=
  digits (minutes_of s) +:+ ":" +:+ two_digits (seconds_of s).


Definition all_digits (s : string) : bool :=
  forallb is_digit (list_ascii_of_string s).

(** The text that may follow a value inside an array or an object, or at
    the end. *)
Definition delim (rest : string) : bool :=
  match rest with
  | EmptyString => true
  | String c _ => Ascii.eqb c "," || Ascii.eqb c "]" || Ascii.eqb c "}"
  end.

Definition head_digit (rest : string) : bool :=
  match rest with
  | String c _ => is_digit c
  | EmptyString => false
  end.

(** A finite number that JSON writes exactly: in lowest terms, with a
    denominator that divides a power of ten.  Every double is one. *)
Definition wf_Q (q : Q) : bool :=
  (Qnum (Qred q) =? Qnum q) && Pos.eqb (Qden (Qred q)) (Qden q)
  && is_Some_bool (decimal_places q).

(** What JSON keeps of a value: the value that [JSON.parse] gives for the
    text that [JSON.stringify] writes. *)
Fixpoint json_image (v : value) : value :=
  match v with
  | VNum (Fin q) => VNum (Fin q)
  | VNum _ => VNull
  | VArr l =>
      VArr (map (fun x => match x with
                          | VUndefined => VNull
                          | _ => json_image x
                          end) l)
  | VObj o =>
      VObj (flat_map (fun kx => match snd kx with
                                | VUndefined => []
                                | _ => [(fst kx, json_image (snd kx))]
                                end) o)
  | VFile _ => VObj []
  | other => other
  end.

Fixpoint nodup_keys (l : list string) : bool :=
  match l with
  | [] => true
  | k :: r => negb (existsb (String.eqb k) r) && nodup_keys r
  end.

(** The values of the model that stand for a JavaScript value: the keys of
    an object are distinct, the finite numbers are written exactly. *)
Fixpoint wf_value (v : value) : bool :=
  match v with
  | VNum (Fin q) => wf_Q q
  | VArr l => forallb wf_value l
  | VObj o => nodup_keys (map fst o) && forallb (fun kx => wf_value (snd kx)) o
  | _ => true
  end.

(** The first unit of the text of a value. *)
Definition is_value_head (c : ascii) : bool :=
  is_digit c || Ascii.eqb c "-" || Ascii.eqb c "n" || Ascii.eqb c "t"
  || Ascii.eqb c "f" || Ascii.eqb c dquote || Ascii.eqb c "[" || Ascii.eqb c "{".

Definition is_number_head (c : ascii) : bool :=
  is_digit c || Ascii.eqb c "-".

(** The text and the image of an array element: [undefined] is written,
    and read back, as [null]. *)
Definition elem_text (x : value) : string :=
  match JSON_stringify x with
  | Some t => t
  | None => "null"
  end.

Definition elem_image (x : value) : value :=
  match x with
  | VUndefined => VNull
  | _ => json_image x
  end.

Definition member_text (kx : string * value) : string :=
  quote (fst kx) +:+ ":" +:+ elem_text (snd kx).

Definition member_image (kx : string * value) : string * value :=
  (fst kx, json_image (snd kx)).

Definition is_defined (x : value) : bool :=
  match x with
  | VUndefined => false
  | _ => true
  end.

(** Reading back the text of [x], whatever follows it. *)
Definition reads_back (x : value) : Prop :=
  forall tail fuel,
    delim tail = true ->
    (String.length (elem_text x) <= fuel)%nat ->
    parse_value fuel (elem_text x +:+ tail) = Some (elem_image x, tail).

Definition defined_props (o : list (string * value)) : list (string * value) :=
  List.filter (fun kx => is_defined (snd kx)) o.


(** The object that [saveToLocalStorage] writes. *)
Definition with_timestamp (audioData : value) (now : Z) : value :=
  VObj (props_set (spread_props audioData) "timestamp" (VNum (num_of_Z now))).

(** Whether the text fits under the key. *)
Definition fits (key text : string) (w : World) : Prop :=
  (storage_usage (<[key := text]> (localStorage w)) <= storage_quota w)%N.

(** What comes back for a track of [handleFileUpload]: its [file] is an
    empty object. *)
Definition persisted_track (now : Z) (random : Q) (result : string) (file : File)
  : value :=
  VObj [("id", VNum (js_add (num_of_Z now) (Fin random)));
        ("name", VStr (replace_first ".mp3" "" (file_name file)));
        ("url", VStr result);
        ("file", VObj [])]%string.

(** The uploads behind the tracks of a playlist: [Date.now()],
    [Math.random()], the data URL and the file of each. *)
Definition upload : Type := (Z * Q * string * File)%type.

Definition track_of (u : upload) : value :=
  let '(now, random, result, file) := u in Home.newTrack now random result file.

Definition persisted_of (u : upload) : value :=
  let '(now, random, result, file) := u in persisted_track now random result file.

(** An analyser with an FFT size of 256 and a smoothing time constant of
    0.8. *)
Definition configured (a : AnalyserNode) : Prop :=
  fftSize a = 256 /\ (smoothingTimeConstant a == 8 # 10)%Q.


(** What holds of the visualizer whatever its props: the samples were read
    from a configured analyser, the analyser of the component is
    configured, and at most one frame is pending, the one that
    [animationRef] names. *)
Definition AV_base (s : AudioVisualizer.State) : Prop :=
  Forall configured (AudioVisualizer.reads s)
  /\ (forall a, AudioVisualizer.analyserRef s = Some a -> configured a)
  /\ (1 <= next_id (AudioVisualizer.frames s))%nat
  /\ (pending (AudioVisualizer.frames s) = []
      \/ exists id, pending (AudioVisualizer.frames s) = [(id, true)]
                    /\ AudioVisualizer.animationRef s = Some id /\ id <> 0%nat).

(** A frame is pending only while the component is mounted, initialized
    and playing, under the cleanup of the animation effect. *)
Definition AV_live (s : AudioVisualizer.State) : Prop :=
  pending (AudioVisualizer.frames s) <> [] ->
  AudioVisualizer.isPlaying s = true /\ AudioVisualizer.mounted s = true
  /\ AudioVisualizer.isInitialized s = true
  /\ AudioVisualizer.cleanup_animation s = true
  /\ AudioVisualizer.analyserRef s <> None.

Definition AV_inv (s : AudioVisualizer.State) : Prop := AV_base s /\ AV_live s.

(** The part of the state that the effects read and do not write. *)
Definition AV_keeps (s s' : AudioVisualizer.State) : Prop :=
  AudioVisualizer.isPlaying s' = AudioVisualizer.isPlaying s
  /\ AudioVisualizer.isInitialized s' = AudioVisualizer.isInitialized s
  /\ AudioVisualizer.mounted s' = AudioVisualizer.mounted s
  /\ (AudioVisualizer.analyserRef s <> None -> AudioVisualizer.analyserRef s' <> None).

(** What [loadFromLocalStorage] gives is read off the entry of the key. *)
Definition loaded_from (entry : option string) : value :=
  match entry with
  | Some text =>
      if String.eqb text "" then VNull
      else match JSON_parse text with
           | Ret v => v
           | Throw _ => VNull
           end
  | None => VNull
  end.

(** Whether [new (window.AudioContext || window.webkitAudioContext)()]
    gives an audio context. *)
Definition supports_web_audio (w : World) : bool :=
  match window_AudioContext w, window_webkitAudioContext w with
  | Some (Constructs _), _ => true
  | None, Some (Constructs _) => true
  | _, _ => false
  end.

(** The page after one more message on the console. *)
Definition logged (message : string) (w : World) : World :=
  mkWorld (localStorage w) (storage_quota w) (console w ++ [message])
          (window_AudioContext w) (window_webkitAudioContext w).

(** No unit of the text is a dot or a slash. *)
Definition no_dot_slash (e : string) : bool :=
  forallb (fun x => negb (Ascii.eqb x "/" || Ascii.eqb x "."))
          (list_ascii_of_string e).


(** What holds of the page, whatever the events, where no audio context can
    be made. *)
Definition Home_silent (s : Home.State) : Prop :=
  Home.isPlaying s = false
  /\ Home.audioContextRef s = None
  /\ Home.analyserRef s = None
  /\ Home.animationRef s = None
  /\ pending (Home.frames s) = []
  /\ Home.reads s = []
  /\ supports_web_audio (Home.world s) = false.

(** Two tracks have the same [id], by [===]. *)
Definition same_id (a b : MusicPlayer.Track) : bool :=
  strict_eq (MusicPlayer.track_prop a "id") (MusicPlayer.track_prop b "id").

(** The ids tell the tracks of the playlist apart: the [id] of a track is
    equal to itself (it is no object and not [NaN]) and to no other. *)
Definition distinct_ids (playlist : list MusicPlayer.Track) : Prop :=
  forall i j a b,
    nth_error playlist i = Some a -> nth_error playlist j = Some b ->
    (same_id a b = true <-> i = j).

(** [handleNext], [k] times in a row, each on the track that the last
    call handed to [onTrackChange]. *)
Fixpoint next_times (playlist : list MusicPlayer.Track) (k : nat) (current : value)
  : option value :=
  match k with
  | O => Some current
  | S k' =>
      match next_times playlist k' current with
      | Some track => MusicPlayer.handleNext (Some playlist) track
      | None => None
      end
  end.

(** The files that [FileUpload] hands on: MP3 by type or by name, of at
    most 50MB. *)
Definition acceptable (f : File) : Prop :=
  (file_type f = "audio/mpeg"%string \/ ends_in_mp3 (file_name f))
  /\ file_size f <= 50 * 1024 * 1024.

(** What holds of [FileUpload] whatever the events. *)
Definition FileUpload_inv (s : FileUpload.State) : Prop :=
  Forall (fun call => match call with
                      | Some f => acceptable f
                      | None => True
                      end) (FileUpload.onFileSelect_calls s)
  /\ (FileUpload.error s = ""%string
      \/ FileUpload.error s = "Please select an MP3 file only"%string
      \/ FileUpload.error s = "File size must be less than 50MB"%string).

(** A visualizer whose set-up has failed: it is not initialized and no
    update of [isInitialized] is queued, nothing is drawn or pending, and
    the set-up will not be tried again with success, the audio context being
    there already or impossible to make. *)
Definition AV_failed (s : AudioVisualizer.State) : Prop :=
  AudioVisualizer.isInitialized s = false
  /\ AudioVisualizer.queued_isInitialized s = None
  /\ pending (AudioVisualizer.frames s) = []
  /\ AudioVisualizer.reads s = []
  /\ (AudioVisualizer.audioContextRef s <> None
      \/ supports_web_audio (AudioVisualizer.world s) = false).

(** * Properties *)

(** ** Strings *)

Lemma append_nil_r (s : string) : s +:+ "" = s.
Proof. induction s as [|c s IH]; simpl; [reflexivity | now rewrite IH]. Qed.

Lemma append_assoc (a b c : string) : (a +:+ b) +:+ c = a +:+ (b +:+ c).
Proof. induction a as [|x a IH]; simpl; [reflexivity | now rewrite IH]. Qed.

Lemma length_append (a b : string) :
  String.length (a +:+ b) = (String.length a + String.length b)%nat.
Proof. induction a as [|x a IH]; simpl; [reflexivity | now rewrite IH]. Qed.

Lemma string_drop_append (a b : string) :
  string_drop (String.length a) (a +:+ b) = b.
Proof. induction a as [|x a IH]; simpl; [reflexivity | exact IH]. Qed.

Lemma string_drop_split (n : nat) (s : string) :
  (n <= String.length s)%nat ->
  exists pre, s = pre +:+ string_drop n s /\ String.length pre = n.
Proof.
  revert s; induction n as [|n IH]; intros s Hn.
  - exists ""%string; split; reflexivity.
  - destruct s as [|c s]; simpl in Hn; [lia|].
    destruct (IH s) as [pre [Hs Hl]]; [lia|].
    exists (String c pre); simpl; split; [now rewrite <- Hs | now rewrite Hl].
Qed.

(** [endsWith] holds exactly of the strings that have the suffix. *)
Lemma endsWith_spec (s p : string) :
  endsWith s p = true <-> exists pre, s = pre +:+ p.
Proof.
  unfold endsWith; rewrite andb_true_iff, Nat.leb_le, String.eqb_eq; split.
  - intros [Hle Hd].
    destruct (string_drop_split (String.length s - String.length p) s)
      as [pre [Hs _]]; [lia|].
    exists pre; now rewrite Hd in Hs.
  - intros [pre ->]; rewrite length_append; split; [lia|].
    replace (String.length pre + String.length p - String.length p)%nat
      with (String.length pre) by lia.
    apply string_drop_append.
Qed.

Lemma toLowerCase_append (a b : string) :
  toLowerCase (a +:+ b) = toLowerCase a +:+ toLowerCase b.
Proof. induction a as [|x a IH]; simpl; [reflexivity | now rewrite IH]. Qed.

Lemma toLowerCase_length (a : string) :
  String.length (toLowerCase a) = String.length a.
Proof. induction a as [|x a IH]; simpl; [reflexivity | now rewrite IH]. Qed.

Lemma append_inv_length (a b c d : string) :
  a +:+ b = c +:+ d -> String.length a = String.length c -> a = c /\ b = d.
Proof.
  revert c; induction a as [|x a IH]; intros [|y c] H Hl; simpl in *;
    try discriminate; [now split|].
  injection H as -> H; destruct (IH c H) as [-> ->]; [lia | now split].
Qed.

Lemma ends_in_mp3_iff (name : string) :
  endsWith (toLowerCase name) ".mp3" = true <-> ends_in_mp3 name.
Proof.
  rewrite endsWith_spec; split.
  - intros [pre H].
    assert (Hlen : (4 <= String.length name)%nat).
    { rewrite <- toLowerCase_length, H, length_append; simpl; lia. }
    destruct (string_drop_split (String.length name - 4) name)
      as [base [Hn Hb]]; [lia|].
    remember (string_drop (String.length name - 4) name) as ext eqn:Hext.
    clear Hext. subst name.
    exists base, ext; split; [reflexivity|].
    rewrite toLowerCase_append in H.
    rewrite length_append in Hb, Hlen.
    apply append_inv_length in H; [now destruct H|].
    apply (f_equal String.length) in H.
    rewrite !length_append, !toLowerCase_length in H.
    rewrite toLowerCase_length. simpl in H. lia.
  - intros [base [ext [-> He]]].
    exists (toLowerCase base); now rewrite toLowerCase_append, He.
Qed.

(** ** C1: which files are accepted *)


Lemma handleFileSelect_cases (f : File) (s : FileUpload.State) :
  let s' := FileUpload.handleFileSelect (Some f) s in
  if (String.eqb (file_type f) "audio/mpeg"
      || endsWith (toLowerCase (file_name f)) ".mp3")
     && (file_size f <=? 50 * 1024 * 1024)
  then FileUpload.onFileSelect_calls s' = FileUpload.onFileSelect_calls s ++ [Some f]
       /\ FileUpload.error s' = ""%string
  else FileUpload.onFileSelect_calls s' = FileUpload.onFileSelect_calls s
       /\ FileUpload.error s' <> ""%string.
Proof.
  cbv zeta. unfold FileUpload.handleFileSelect.
  change (50 * 1024 * 1024) with 52428800.
  rewrite Z.gtb_ltb, Z.ltb_antisym.
  destruct (String.eqb (file_type f) "audio/mpeg");
    destruct (endsWith (toLowerCase (file_name f)) ".mp3");
    destruct (file_size f <=? 52428800); simpl;
    (split; [reflexivity | try reflexivity; discriminate]).
Qed.


(** ** C8: next and previous track *)

Section NextPrevious.
Variable p : MusicPlayer.Track -> bool.

Lemma findIndex_range (l : list MusicPlayer.Track) :
  -1 <= MusicPlayer.findIndex p l < Z.of_nat (length l).
Proof.
  induction l as [|t l IH]; simpl; [lia|].
  destruct (p t); [lia|].
  destruct (Z.ltb_spec (MusicPlayer.findIndex p l) 0); lia.
Qed.

(** [findIndex] returns the first position at which [p] holds. *)
Lemma findIndex_first (l : list MusicPlayer.Track) (i : nat) (t : MusicPlayer.Track) :
  nth_error l i = Some t -> p t = true ->
  (forall j t', (j < i)%nat -> nth_error l j = Some t' -> p t' = false) ->
  MusicPlayer.findIndex p l = Z.of_nat i.
Proof.
  revert i; induction l as [|x l IH]; intros i Hi Hp Hmin.
  - destruct i; discriminate.
  - destruct i as [|i]; simpl in *.
    + injection Hi as ->. now rewrite Hp.
    + rewrite (Hmin O x) by (reflexivity || lia).
      rewrite (IH i Hi Hp).
      * destruct (Z.ltb_spec (Z.of_nat i) 0); lia.
      * intros j t' Hj Hn. apply (Hmin (S j) t'); [lia | exact Hn].
Qed.

(** [findIndex] returns [-1] when [p] holds nowhere. *)
Lemma findIndex_none (l : list MusicPlayer.Track) :
  (forall t, In t l -> p t = false) -> MusicPlayer.findIndex p l = -1.
Proof.
  induction l as [|x l IH]; intros H; simpl; [reflexivity|].
  rewrite (H x) by now left.
  rewrite IH by (intros t Ht; apply H; now right). reflexivity.
Qed.
End NextPrevious.

Lemma at_index_nth (l : list MusicPlayer.Track) (k : nat) :
  MusicPlayer.at_index l (Z.of_nat k)
  = match nth_error l k with Some t => VObj t | None => VUndefined end.
Proof.
  unfold MusicPlayer.at_index.
  destruct (Z.ltb_spec (Z.of_nat k) 0); [lia|]. now rewrite Nat2Z.id.
Qed.

(** C8.  In a playlist that is not empty, let the position of the current
    track be the first position whose track has the id of the current
    track.  [handleNext] hands the track at the next position to
    [onTrackChange], the first one after the last; [handlePrevious] hands
    over the track at the position before, the last one before the first.
    When no track has the id of the current track, [handleNext] selects the
    first track and [handlePrevious] the last. *)
Theorem C8_next_previous (playlist : list MusicPlayer.Track) (currentTrack : value) :
  playlist <> [] ->
  let n := length playlist in
  let same := fun track => strict_eq (MusicPlayer.track_prop track "id")
                                     (get_prop currentTrack "id") in
  (forall i t,
      nth_error playlist i = Some t -> same t = true ->
      (forall j t', (j < i)%nat -> nth_error playlist j = Some t' -> same t' = false) ->
      (exists next, nth_error playlist ((i + 1) mod n) = Some next
                    /\ MusicPlayer.handleNext (Some playlist) currentTrack
                       = Some (VObj next))
      /\ (exists prev, nth_error playlist ((i + n - 1) mod n) = Some prev
                       /\ MusicPlayer.handlePrevious (Some playlist) currentTrack
                          = Some (VObj prev)))
  /\ ((forall t, In t playlist -> same t = false) ->
      (exists first, nth_error playlist 0 = Some first
                     /\ MusicPlayer.handleNext (Some playlist) currentTrack
                        = Some (VObj first))
      /\ (exists last, nth_error playlist (n - 1) = Some last
                       /\ MusicPlayer.handlePrevious (Some playlist) currentTrack
                          = Some (VObj last))).
Proof.
  intros Hne n same.
  assert (Hn : (0 < n)%nat).
  { subst n. destruct playlist; [contradiction | simpl; lia]. }
  assert (Hnth : forall k, (k < n)%nat -> exists t, nth_error playlist k = Some t).
  { intros k Hk. destruct (nth_error playlist k) eqn:E; [eauto|].
    apply nth_error_None in E. subst n. lia. }
  assert (Hlen : (length playlist =? 0)%nat = false).
  { apply Nat.eqb_neq. subst n. lia. }
  unfold MusicPlayer.handleNext, MusicPlayer.handlePrevious. rewrite Hlen.
  fold same. fold n. split.
  - intros i t Hi Hs Hmin.
    rewrite (findIndex_first same playlist i t Hi Hs Hmin).
    assert (Hin : (i < n)%nat).
    { subst n. apply nth_error_Some. rewrite Hi. discriminate. }
    split.
    + destruct (Hnth ((i + 1) mod n)%nat) as [next Hnext];
        [apply Nat.mod_upper_bound; lia|].
      exists next; split; [exact Hnext|]. f_equal.
      destruct (Z.ltb_spec (Z.of_nat i) (Z.of_nat n - 1)).
      * replace (Z.of_nat i + 1) with (Z.of_nat (i + 1)) by lia.
        rewrite at_index_nth. rewrite Nat.mod_small in Hnext by lia.
        now rewrite Hnext.
      * replace (i + 1)%nat with n in Hnext by lia.
        rewrite Nat.Div0.mod_same in Hnext.
        change 0 with (Z.of_nat 0). rewrite at_index_nth. now rewrite Hnext.
    + destruct (Hnth ((i + n - 1) mod n)%nat) as [prev Hprev];
        [apply Nat.mod_upper_bound; lia|].
      exists prev; split; [exact Hprev|]. f_equal.
      rewrite Z.gtb_ltb. destruct (Z.ltb_spec 0 (Z.of_nat i)).
      * replace (Z.of_nat i - 1) with (Z.of_nat (i - 1)) by lia.
        rewrite at_index_nth.
        replace (i + n - 1)%nat with ((i - 1) + 1 * n)%nat in Hprev by lia.
        rewrite Nat.Div0.mod_add, Nat.mod_small in Hprev by lia.
        now rewrite Hprev.
      * replace (Z.of_nat n - 1) with (Z.of_nat (n - 1)) by lia.
        rewrite at_index_nth.
        replace (i + n - 1)%nat with (n - 1)%nat in Hprev by lia.
        rewrite Nat.mod_small in Hprev by lia. now rewrite Hprev.
  - intros Hnone. rewrite (findIndex_none same playlist Hnone). split.
    + destruct (Hnth 0%nat Hn) as [first Hfirst].
      exists first; split; [exact Hfirst|]. f_equal.
      destruct (Z.ltb_spec (-1) (Z.of_nat n - 1)); [|lia].
      change (-1 + 1) with (Z.of_nat 0). rewrite at_index_nth. now rewrite Hfirst.
    + destruct (Hnth (n - 1)%nat) as [last Hlast]; [lia|].
      exists last; split; [exact Hlast|]. f_equal.
      change (-1 >? 0) with false. cbv iota.
      replace (Z.of_nat n - 1) with (Z.of_nat (n - 1)) by lia.
      rewrite at_index_nth. now rewrite Hlast.
Qed.

(** C8 on a playlist of three tracks, the second being the current one. *)
Lemma C8_next_previous_witness :
  let track := fun i : Z => [("id", VNum (num_of_Z i))]%string in
  let playlist := [track 10; track 20; track 30] in
  playlist <> []
  /\ MusicPlayer.handleNext (Some playlist) (VObj (track 20)) = Some (VObj (track 30))
  /\ MusicPlayer.handlePrevious (Some playlist) (VObj (track 20)) = Some (VObj (track 10)).
Proof.
  intros track playlist.
  assert (Hne : playlist <> []) by discriminate.
  split; [exact Hne|].
  destruct (C8_next_previous playlist (VObj (track 20)) Hne) as [Hpos _].
  destruct (Hpos 1%nat (track 20)) as [[next [Hn Hnext]] [prev [Hp Hprev]]].
  - reflexivity.
  - reflexivity.
  - intros j t' Hj Hnth. destruct j as [|j]; [|lia].
    injection Hnth as <-. reflexivity.
  - injection Hn as <-. injection Hp as <-. split; assumption.
Defined.

(** ** C10: the average of the frequency data *)

Lemma byte_sum_bounds (data : list byte) :
  0 <= byte_sum data <= 255 * Z.of_nat (length data).
Proof.
  induction data as [|b data IH]; simpl; [lia|].
  pose proof (Byte.to_N_bounded b). lia.
Qed.

Lemma sum_frequencies (data : list byte) (a : Q) :
  exists q,
    fold_left (fun acc value => js_add acc (AudioUtils.byte_number value))
              data (Fin a) = Fin q
    /\ (q == a + inject_Z (byte_sum data))%Q.
Proof.
  revert a; induction data as [|b data IH]; intros a; simpl.
  - exists a; split; [reflexivity|]. unfold inject_Z. ring.
  - destruct (IH (Qred (a + inject_Z (Z.of_N (Byte.to_N b))))) as [q [Hq Heq]].
    exists q; split; [exact Hq|].
    rewrite Heq, Qred_correct, inject_Z_plus. ring.
Qed.

(** C10.  [getAverageFrequency] returns 0 for [null] and for an empty
    array; for any other array of bytes it returns the arithmetic mean of
    the entries, a number between 0 and 255. *)
Theorem C10_average_frequency :
  AudioUtils.getAverageFrequency None = Fin 0
  /\ AudioUtils.getAverageFrequency (Some []) = Fin 0
  /\ forall b data,
       exists mean,
         AudioUtils.getAverageFrequency (Some (b :: data)) = Fin mean
         /\ (mean == inject_Z (byte_sum (b :: data))
                     / inject_Z (Z.of_nat (length (b :: data))))%Q
         /\ (0 <= mean)%Q /\ (mean <= 255)%Q.
Proof.
  split; [reflexivity | split; [reflexivity|]].
  intros b data.
  set (l := b :: data).
  assert (Hlen : (0 < length l)%nat) by (subst l; simpl; lia).
  unfold AudioUtils.getAverageFrequency.
  replace (length l =? 0)%nat with false by (symmetry; apply Nat.eqb_neq; lia).
  destruct (sum_frequencies l 0) as [s [Hs Heq]].
  change (num_of_Z 0) with (Fin 0). rewrite Hs.
  unfold js_div, num_of_Z. simpl Qnum.
  replace (Z.of_nat (length l) =? 0) with false by (symmetry; apply Z.eqb_neq; lia).
  eexists; split; [reflexivity|].
  assert (Hmean : (Qred (s / inject_Z (Z.of_nat (length l)))
                   == inject_Z (byte_sum l) / inject_Z (Z.of_nat (length l)))%Q).
  { rewrite Qred_correct, Heq. field.
    intros H. unfold inject_Z, Qeq in H. simpl in H. lia. }
  split; [exact Hmean|].
  rewrite Hmean. pose proof (byte_sum_bounds l) as [Hlo Hhi].
  assert (Hpos : (0 < inject_Z (Z.of_nat (length l)))%Q).
  { unfold Qlt, inject_Z; simpl. lia. }
  split.
  - apply Qle_shift_div_l; [exact Hpos|]. rewrite Qmult_0_l.
    unfold Qle, inject_Z; cbn [Qnum Qden]. lia.
  - apply Qle_shift_div_r; [exact Hpos|].
    unfold Qle, Qmult, inject_Z; cbn [Qnum Qden Pos.mul]. lia.
Qed.

(** ** C6: formatTime *)

Lemma Qred_inject_Z (z : Z) : Qred (inject_Z z) = inject_Z z.
Proof. apply Qred_identity. unfold inject_Z; simpl. apply Z.gcd_1_r. Qed.

Lemma digits_small (d : Z) : 0 <= d < 10 -> digits d = String (digit_char d) "".
Proof.
  intros Hd. unfold digits.
  destruct (Z.to_nat (Z.log2 d)); simpl; rewrite Z.mod_small by lia;
    [reflexivity|].
  destruct (Z.ltb_spec d 10); [reflexivity | lia].
Qed.

(** Number::toString of a natural number is its decimal numeral. *)
Lemma Q_toString_nat (z : Z) : 0 <= z -> Q_toString (inject_Z z) = digits z.
Proof.
  intros Hz. unfold Q_toString. rewrite Qred_inject_Z.
  unfold decimal_places, inject_Z; cbn [Qnum Qden].
  change (find_places (Z.to_nat (Z.log2 1)) 0 1) with (Some 0%nat).
  cbv iota. change (10 ^ Z.of_nat 0) with 1.
  rewrite Z.abs_eq, Z.mul_1_r, !Z.div_1_r by lia.
  destruct (Z.ltb_spec z 0); [lia|]. simpl. apply append_nil_r.
Qed.

Lemma Qfloor_minus_Z (x : Q) (z : Z) : Qfloor (x - inject_Z z) = Qfloor x - z.
Proof.
  unfold Qfloor, Qminus, Qplus, Qopp, inject_Z. destruct x as [n d]. cbn [Qnum Qden].
  rewrite Pos.mul_1_r, Z.mul_1_r.
  replace (n + - z * Z.pos d) with (n + (- z) * Z.pos d) by ring.
  rewrite Z.div_add by lia. lia.
Qed.

(** In whole seconds: the minutes are the quotient by 60 and the seconds
    the remainder. *)
Lemma minutes_of_div (s : Q) : minutes_of s = Qfloor s / 60.
Proof.
  unfold minutes_of, Qfloor, Qdiv, Qmult, Qinv. destruct s as [n d].
  cbn [Qnum Qden]. rewrite Z.mul_1_r, Pos2Z.inj_mul.
  now rewrite Z.div_div by lia.
Qed.

Lemma seconds_of_mod (s : Q) : seconds_of s = Qfloor s mod 60.
Proof.
  unfold seconds_of.
  replace (60 * inject_Z (minutes_of s))%Q with (inject_Z (60 * minutes_of s))
    by (rewrite inject_Z_mult; reflexivity).
  rewrite Qfloor_minus_Z, minutes_of_div.
  rewrite (Z.div_mod (Qfloor s) 60) at 1 by lia. lia.
Qed.

Lemma seconds_range (s : Q) : 0 <= seconds_of s < 60.
Proof. rewrite seconds_of_mod. apply Z.mod_pos_bound. lia. Qed.

Lemma minutes_nonneg (s : Q) : (0 <= s)%Q -> 0 <= minutes_of s.
Proof.
  intros Hs. rewrite minutes_of_div. apply Z.div_pos; [|lia].
  change 0 with (Qfloor 0). now apply Qfloor_resp_le.
Qed.

Lemma padStart_two_digits (r : Z) :
  0 <= r < 60 -> padStart 2 "0" (digits r) = two_digits r.
Proof.
  intros Hr. rewrite <- (Z2Nat.id r) by lia.
  assert (Hn : (Z.to_nat r < 60)%nat) by lia.
  revert Hn. generalize (Z.to_nat r) as n. clear r Hr. intros n Hn.
  do 60 (destruct n as [|n]; [reflexivity|]). lia.
Qed.

Lemma js_div_60 (s : Q) :
  Math_floor (js_div (Fin s) (num_of_Z 60)) = Fin (inject_Z (minutes_of s)).
Proof.
  unfold js_div, num_of_Z, Math_floor, minutes_of. cbn [Qnum inject_Z Z.eqb].
  now rewrite Qred_correct.
Qed.

Lemma js_rem_60 (s : Q) :
  (0 <= s)%Q ->
  Math_floor (js_rem (Fin s) (num_of_Z 60)) = Fin (inject_Z (seconds_of s)).
Proof.
  intros Hs. unfold js_rem, num_of_Z, Math_floor, seconds_of. cbn [Qnum inject_Z Z.eqb].
  rewrite Qred_correct. do 3 f_equal.
  unfold Qtrunc, minutes_of, Qfloor.
  assert (Hn : 0 <= Qnum (s / inject_Z 60)).
  { unfold Qdiv, Qmult, Qinv, inject_Z; cbn [Qnum Qden].
    unfold Qle in Hs; cbn [Qnum Qden] in Hs. lia. }
  now rewrite Z.quot_div_nonneg by lia.
Qed.

(** For a finite number of seconds that is not negative, the three
    [formatTime] give the clock reading: the minutes, a colon, and the
    seconds on two digits. *)
Lemma formatTime_finite (s : Q) :
  (0 <= s)%Q ->
  AudioUtils.formatTime (Some (Fin s)) = clock s
  /\ Home.formatTime (Some (Fin s)) = clock s
  /\ MusicPlayer.formatTime (Some (Fin s)) = clock s.
Proof.
  intros Hs.
  assert (Hgen : Number_toString (Math_floor (js_div (Fin s) (num_of_Z 60)))
                 +:+ ":" +:+
                 padStart 2 "0" (Number_toString (Math_floor (js_rem (Fin s) (num_of_Z 60))))
                 = clock s).
  { rewrite js_div_60, (js_rem_60 s Hs). unfold Number_toString.
    pose proof (seconds_range s) as Hr.
    rewrite !Q_toString_nat by (apply minutes_nonneg, Hs || lia).
    now rewrite padStart_two_digits. }
  split; [|split]; [| exact Hgen | exact Hgen].
  unfold AudioUtils.formatTime. cbn [number_truthy Number_isNaN].
  destruct (Z.eqb_spec (Qnum s) 0) as [H0|H0]; [|exact Hgen].
  cbn [negb orb].
  assert (Hz : (s == 0)%Q) by (unfold Qeq; cbn [Qnum Qden]; lia).
  unfold clock. rewrite seconds_of_mod, minutes_of_div, Hz. reflexivity.
Qed.

(** C6.  For [NaN] and for a missing argument, the [formatTime] of the
    audio utilities and of [MusicPlayer] return [0:00]; the one of
    pages/index.js has no guard and returns [NaN:NaN]. *)
Theorem C6_Home_formatTime_NaN :
  Home.formatTime (Some NaN) = "NaN:NaN"%string
  /\ Home.formatTime None = "NaN:NaN"%string
  /\ AudioUtils.formatTime (Some NaN) = "0:00"%string
  /\ AudioUtils.formatTime None = "0:00"%string
  /\ MusicPlayer.formatTime (Some NaN) = "0:00"%string
  /\ MusicPlayer.formatTime None = "0:00"%string.
Proof. repeat split; reflexivity. Qed.

(** ** C3: the track built on file selection *)








(** ** JSON: reading back what was written *)

(** *** Numerals *)

Ltac digit_cases d :=
  let H := fresh "H" in
  assert (H : d = 0 \/ d = 1 \/ d = 2 \/ d = 3 \/ d = 4 \/ d = 5 \/ d = 6
              \/ d = 7 \/ d = 8 \/ d = 9) by lia;
  repeat (destruct H as [H | H]); subst d.

Lemma is_digit_digit_char (d : Z) : 0 <= d < 10 -> is_digit (digit_char d) = true.
Proof. intros Hd. digit_cases d; reflexivity. Qed.

Lemma digit_val_digit_char (d : Z) : 0 <= d < 10 -> digit_val (digit_char d) = d.
Proof. intros Hd. digit_cases d; reflexivity. Qed.

Lemma digit_char_zero (d : Z) :
  0 <= d < 10 -> Ascii.eqb (digit_char d) "0" = true -> d = 0.
Proof. intros Hd. digit_cases d; simpl; intros; (reflexivity || discriminate). Qed.

Lemma all_digits_cons (c : ascii) (r : string) :
  all_digits (String c r) = is_digit c && all_digits r.
Proof. reflexivity. Qed.

Lemma all_digits_one (d : Z) :
  0 <= d < 10 -> all_digits (String (digit_char d) "") = true.
Proof. intros Hd. rewrite all_digits_cons, is_digit_digit_char by lia. reflexivity. Qed.

Lemma digits_val_one (d : Z) :
  0 <= d < 10 -> digits_val (String (digit_char d) "") 0 = d.
Proof. intros Hd. cbn [digits_val]. rewrite digit_val_digit_char by lia. lia. Qed.

Lemma all_digits_append (a b : string) :
  all_digits (a +:+ b) = all_digits a && all_digits b.
Proof.
  unfold all_digits. induction a as [|c a IH]; simpl; [reflexivity|].
  now rewrite IH, andb_assoc.
Qed.

Lemma digits_val_append (a b : string) (x : Z) :
  digits_val (a +:+ b) x = digits_val b (digits_val a x).
Proof. revert x; induction a as [|c a IH]; intros x; simpl; [reflexivity | apply IH]. Qed.

(** The value of a numeral that is read after [x]. *)
Lemma digits_val_shift (s : string) (x : Z) :
  digits_val s x = x * 10 ^ Z.of_nat (String.length s) + digits_val s 0.
Proof.
  revert x; induction s as [|c s IH]; intros x.
  - simpl. lia.
  - cbn [digits_val String.length]. rewrite IH, (IH (10 * 0 + digit_val c)).
    rewrite Nat2Z.inj_succ, Z.pow_succ_r by lia. ring.
Qed.

(** What [digits_fuel] puts in front of the accumulator: digits, not
    empty, of the value [n], with no leading zero unless [n] is 0. *)
Lemma digits_fuel_spec (fuel : nat) :
  forall n acc,
    0 <= n < 10 ^ Z.of_nat (S fuel) ->
    exists c r,
      digits_fuel fuel n acc = String c r +:+ acc
      /\ all_digits (String c r) = true
      /\ digits_val (String c r) 0 = n
      /\ (Ascii.eqb c "0" = true -> r = ""%string).
Proof.
  induction fuel as [|fuel IH]; intros n acc Hn.
  - change (10 ^ Z.of_nat 1) with 10 in Hn.
    cbn [digits_fuel]. rewrite Z.mod_small by lia.
    exists (digit_char n), ""%string.
    split; [reflexivity | split; [|split]];
      [now apply all_digits_one | now apply digits_val_one | reflexivity].
  - cbn [digits_fuel]. destruct (Z.ltb_spec n 10) as [Hlt|Hge].
    + rewrite Z.mod_small by lia. exists (digit_char n), ""%string.
      split; [reflexivity | split; [|split]];
        [apply all_digits_one; lia | apply digits_val_one; lia | reflexivity].
    + assert (Hdiv : 0 <= n / 10 < 10 ^ Z.of_nat (S fuel)).
      { split; [apply Z.div_pos; lia|].
        apply Z.div_lt_upper_bound; [lia|].
        rewrite <- Z.pow_succ_r by lia. rewrite <- Nat2Z.inj_succ. lia. }
      destruct (IH (n / 10) (String (digit_char (n mod 10)) acc) Hdiv)
        as [c [r [Hds [Hall [Hval Hz]]]]].
      pose proof (Z.mod_pos_bound n 10 ltac:(lia)) as Hmod.
      exists c, (r +:+ String (digit_char (n mod 10)) "").
      split; [|split; [|split]].
      * rewrite Hds. simpl. now rewrite append_assoc.
      * change (String c (r +:+ String (digit_char (n mod 10)) ""))
          with (String c r +:+ String (digit_char (n mod 10)) "").
        now rewrite all_digits_append, Hall, all_digits_one.
      * change (String c (r +:+ String (digit_char (n mod 10)) ""))
          with (String c r +:+ String (digit_char (n mod 10)) "").
        rewrite digits_val_append, Hval. cbn [digits_val].
        rewrite digit_val_digit_char by lia.
        rewrite (Z.div_mod n 10) at 3 by lia. ring.
      * intros Hc. specialize (Hz Hc). subst r. exfalso.
        apply Ascii.eqb_eq in Hc. subst c. cbn [digits_val] in Hval.
        assert (n / 10 > 0) by (apply Z.lt_gt, Z.div_str_pos; lia).
        change (digit_val "0") with 0 in Hval. lia.
Qed.

Lemma digits_spec (n : Z) :
  0 <= n ->
  all_digits (digits n) = true
  /\ digits_val (digits n) 0 = n
  /\ int_part_ok (digits n) = true
  /\ (exists c r, digits n = String c r /\ is_digit c = true).
Proof.
  intros Hn. unfold digits.
  assert (Hb : 0 <= n < 10 ^ Z.of_nat (S (Z.to_nat (Z.log2 n)))).
  { split; [lia|]. rewrite Nat2Z.inj_succ, Z2Nat.id by apply Z.log2_nonneg.
    destruct (Z.eq_dec n 0) as [->|Hz]; [reflexivity|].
    pose proof (Z.log2_spec n ltac:(lia)) as [_ Hlt].
    eapply Z.lt_le_trans; [exact Hlt|].
    apply Z.pow_le_mono_l. lia. }
  destruct (digits_fuel_spec _ n "" Hb) as [c [r [Hds [Hall [Hval Hz]]]]].
  rewrite Hds, append_nil_r. repeat split; try assumption.
  - unfold int_part_ok.
    destruct (Ascii.eqb c "0") eqn:E; [|reflexivity]. simpl.
    rewrite (Hz eq_refl). reflexivity.
  - exists c, r. split; [reflexivity|].
    unfold all_digits in Hall; simpl in Hall. now apply andb_true_iff in Hall.
Qed.

Lemma span_digits_append (ds rest : string) :
  all_digits ds = true -> head_digit rest = false ->
  span_digits (ds +:+ rest) = (ds, rest).
Proof.
  intros Hall Hrest. induction ds as [|c ds IH].
  - simpl. destruct rest as [|c r]; [reflexivity|].
    simpl in Hrest. cbn [span_digits]. now rewrite Hrest.
  - rewrite all_digits_cons in Hall. apply andb_true_iff in Hall as [Hc Hds].
    change (String c ds +:+ rest) with (String c (ds +:+ rest)).
    cbn [span_digits]. now rewrite Hc, (IH Hds).
Qed.

Lemma is_digit_val (c : ascii) : is_digit c = true -> 0 <= digit_val c < 10.
Proof.
  unfold is_digit, ascii_in_range, digit_val. intros H.
  apply andb_true_iff in H as [H1 H2].
  apply Nat.leb_le in H1, H2. lia.
Qed.

Lemma digits_val_nonneg (s : string) (a : Z) :
  all_digits s = true -> 0 <= a -> 0 <= digits_val s a.
Proof.
  revert a; induction s as [|c s IH]; intros a Hall Ha; [exact Ha|].
  rewrite all_digits_cons in Hall. apply andb_true_iff in Hall as [Hc Hs].
  cbn [digits_val]. apply IH; [exact Hs|].
  pose proof (is_digit_val c Hc). lia.
Qed.

(** A numeral without a leading zero is at least the power of ten of its
    further digits. *)
Lemma digits_val_lower (c : ascii) (r : string) :
  all_digits (String c r) = true -> Ascii.eqb c "0" = false ->
  10 ^ Z.of_nat (String.length r) <= digits_val (String c r) 0.
Proof.
  intros Hall Hc. rewrite all_digits_cons in Hall.
  apply andb_true_iff in Hall as [Hd Hr].
  cbn [digits_val]. rewrite digits_val_shift.
  pose proof (digits_val_nonneg r 0 Hr ltac:(lia)).
  assert (1 <= digit_val c).
  { pose proof (is_digit_val c Hd).
    destruct (Z.eq_dec (digit_val c) 0) as [E|E]; [|lia].
    exfalso. unfold digit_val in E.
    assert (nat_of_ascii c = 48%nat) by lia.
    assert (c = "0"%char).
    { rewrite <- (ascii_nat_embedding c). now rewrite H1. }
    subst c. discriminate. }
  assert (0 < 10 ^ Z.of_nat (String.length r)) by (apply Z.pow_pos_nonneg; lia).
  nia.
Qed.

Lemma length_digits (n : Z) (k : nat) :
  0 <= n < 10 ^ Z.of_nat k -> (0 < k)%nat -> (String.length (digits n) <= k)%nat.
Proof.
  intros Hn Hk. destruct (digits_spec n ltac:(lia)) as [Hall [Hval [Hok [c [r [Hd _]]]]]].
  rewrite Hd in *. unfold int_part_ok in Hok.
  destruct (Ascii.eqb c "0") eqn:E.
  - simpl in Hok. apply String.eqb_eq in Hok. subst r. simpl. lia.
  - pose proof (digits_val_lower c r Hall E) as Hlow. rewrite Hval in Hlow.
    simpl. destruct (Nat.le_gt_cases (S (String.length r)) k) as [|Hgt]; [assumption|].
    exfalso.
    assert (10 ^ Z.of_nat k <= 10 ^ Z.of_nat (String.length r))
      by (apply Z.pow_le_mono_r; lia).
    lia.
Qed.

Lemma string_repeat_zeros (j : nat) :
  all_digits (string_repeat "0" j) = true
  /\ String.length (string_repeat "0" j) = j
  /\ digits_val (string_repeat "0" j) 0 = 0.
Proof.
  induction j as [|j [H1 [H2 H3]]]; [now repeat split|].
  cbn [string_repeat]. rewrite all_digits_cons, H1. cbn [String.length digits_val].
  rewrite H2. repeat split. exact H3.
Qed.

(** The decimals on [k] places. *)
Lemma padStart_decimals (F : Z) (k : nat) :
  0 <= F < 10 ^ Z.of_nat k -> (0 < k)%nat ->
  all_digits (padStart k "0" (digits F)) = true
  /\ String.length (padStart k "0" (digits F)) = k
  /\ digits_val (padStart k "0" (digits F)) 0 = F.
Proof.
  intros HF Hk. unfold padStart.
  destruct (digits_spec F ltac:(lia)) as [Hall [Hval _]].
  pose proof (length_digits F k HF Hk) as Hlen.
  destruct (string_repeat_zeros (k - String.length (digits F))) as [Z1 [Z2 Z3]].
  rewrite all_digits_append, Z1, Hall, length_append, Z2, digits_val_append, Z3, Hval.
  repeat split. lia.
Qed.

Lemma delim_head (rest : string) :
  delim rest = true ->
  head_digit rest = false /\ head_is "." rest = false
  /\ head_is "e" rest = false /\ head_is "E" rest = false
  /\ skip_ws rest = rest.
Proof.
  destruct rest as [|c r]; [now repeat split|]. cbn [delim].
  rewrite !orb_true_iff, !Ascii.eqb_eq.
  intros [[-> | ->] | ->]; now repeat split.
Qed.

Lemma digit_head_not (c x : ascii) :
  is_digit c = true -> is_digit x = false -> Ascii.eqb c x = false.
Proof.
  intros Hc Hx. destruct (Ascii.eqb_spec c x) as [->|]; [congruence | reflexivity].
Qed.

(** Reading a numeral written in positional notation: integer part [I],
    and [k] decimals of value [F]. *)
Lemma parse_unsigned_fixed (neg : bool) (I F : Z) (k : nat) (rest : string) :
  0 <= I -> 0 <= F < 10 ^ Z.of_nat k -> delim rest = true ->
  parse_unsigned neg
    (digits I +:+
     (match k with
      | O => ""
      | S _ => String "." (padStart k "0" (digits F))
      end) +:+ rest)
  = Some (decimal_Q (if neg then - (I * 10 ^ Z.of_nat k + F)
                     else I * 10 ^ Z.of_nat k + F)
                    (- Z.of_nat k), rest).
Proof.
  intros HI HF Hrest.
  destruct (delim_head rest Hrest) as [Hd [Hdot [He [HE _]]]].
  destruct (digits_spec I HI) as [Hall [Hval [Hok _]]].
  unfold parse_unsigned. destruct k as [|k].
  - change (10 ^ Z.of_nat 0) with 1 in *. assert (F = 0) by lia. subst F.
    cbn [String.append]. rewrite (span_digits_append _ _ Hall Hd), Hok. cbn [negb].
    rewrite Hdot, He, HE. cbn [orb]. rewrite append_nil_r, Hval.
    cbn [String.length]. do 3 f_equal; destruct neg; lia.
  - destruct (padStart_decimals F (S k) HF ltac:(lia)) as [Pall [Plen Pval]].
    set (fp := padStart (S k) "0" (digits F)) in *.
    rewrite (span_digits_append (digits I) _ Hall) by reflexivity.
    rewrite Hok. cbn [negb].
    change (String "." fp +:+ rest) with (String "." (fp +:+ rest)).
    cbn [head_is string_drop]. change (Ascii.eqb "." ".") with true. cbv iota.
    rewrite (span_digits_append fp rest Pall Hd).
    replace (String.eqb fp "") with false
      by (destruct fp; [discriminate Plen | reflexivity]).
    rewrite He, HE. cbn [orb].
    rewrite digits_val_append, Hval, digits_val_shift, Plen, Pval.
    reflexivity.
Qed.

Lemma find_places_spec (fuel k0 : nat) (d : Z) (k : nat) :
  find_places fuel k0 d = Some k -> (10 ^ Z.of_nat k) mod d = 0.
Proof.
  revert k0; induction fuel as [|fuel IH]; intros k0; cbn [find_places];
    destruct (Z.eqb_spec ((10 ^ Z.of_nat k0) mod d) 0) as [E|E]; intros H;
    try (injection H as <-; exact E); try discriminate.
  exact (IH _ H).
Qed.

Lemma wf_Q_reduced (q : Q) : wf_Q q = true -> Qred q = q.
Proof.
  unfold wf_Q. rewrite !andb_true_iff, Z.eqb_eq, Pos.eqb_eq.
  intros [[Hn Hd] _]. destruct (Qred q) as [n d], q as [n' d'].
  simpl in *. congruence.
Qed.

(** What was written for [q] denotes [q]. *)
Lemma decimal_Q_exact (q : Q) (k : nat) :
  Qred q = q -> (10 ^ Z.of_nat k) mod Zpos (Qden q) = 0 ->
  let m := Z.abs (Qnum q) * 10 ^ Z.of_nat k / Zpos (Qden q) in
  decimal_Q (if Qnum q <? 0 then - m else m) (- Z.of_nat k) = q.
Proof.
  intros Hred Hdiv m.
  assert (Hpow : 0 < 10 ^ Z.of_nat k) by (apply Z.pow_pos_nonneg; lia).
  apply Z.mod_divide in Hdiv; [|lia]. destruct Hdiv as [e He].
  assert (Hm : m * Zpos (Qden q) = Z.abs (Qnum q) * 10 ^ Z.of_nat k).
  { subst m. rewrite He, Z.mul_assoc, Z.div_mul by lia. ring. }
  assert (Hs : (if Qnum q <? 0 then - m else m) * Zpos (Qden q)
               = Qnum q * 10 ^ Z.of_nat k).
  { destruct (Z.ltb_spec (Qnum q) 0); lia. }
  transitivity (Qred q); [|exact Hred]. unfold decimal_Q. apply Qred_complete.
  destruct (Z.leb_spec 0 (- Z.of_nat k)).
  - assert (k = 0%nat) by lia. subst k. change (10 ^ Z.of_nat 0) with 1 in *.
    change (10 ^ (- Z.of_nat 0)) with 1.
    unfold Qeq, inject_Z. cbn [Qnum Qden]. lia.
  - rewrite Z.opp_involutive. unfold Qeq. cbn [Qnum Qden].
    rewrite Z2Pos.id by lia. lia.
Qed.

(** Reading back the numeral written for a number gives the number. *)
Lemma parse_number_toString (q : Q) (rest : string) :
  wf_Q q = true -> delim rest = true ->
  parse_number (Q_toString q +:+ rest) = Some (q, rest).
Proof.
  intros Hwf Hrest. pose proof (wf_Q_reduced q Hwf) as Hred.
  unfold wf_Q in Hwf. apply andb_true_iff in Hwf as [_ Hdec].
  unfold Q_toString. rewrite Hred.
  destruct (decimal_places q) as [k|] eqn:Hk; [|discriminate]. clear Hdec.
  apply find_places_spec in Hk.
  set (m := Z.abs (Qnum q) * 10 ^ Z.of_nat k / Zpos (Qden q)).
  assert (Hpow : 0 < 10 ^ Z.of_nat k) by (apply Z.pow_pos_nonneg; lia).
  assert (Hm : 0 <= m) by (subst m; apply Z.div_pos; [|lia]; lia).
  assert (HI : 0 <= m / 10 ^ Z.of_nat k) by (apply Z.div_pos; lia).
  pose proof (Z.mod_pos_bound m (10 ^ Z.of_nat k) Hpow) as HF.
  pose proof (parse_unsigned_fixed (Qnum q <? 0) _ _ k rest HI HF Hrest) as Hp.
  rewrite (Z.mul_comm (m / _)), <- Z.div_mod in Hp by lia.
  pose proof (decimal_Q_exact q k Hred Hk) as Hex. cbv zeta in Hex.
  fold m in Hex. rewrite Hex in Hp. clear Hex.
  rewrite !append_assoc. unfold parse_number.
  destruct (Z.ltb_spec (Qnum q) 0) as [Hneg|Hpos].
  - cbn [String.append head_is string_drop].
    change (Ascii.eqb "-" "-") with true. cbv iota.
    destruct k; exact Hp.
  - cbn [String.append].
    destruct (digits_spec _ HI) as [_ [_ [_ [c [r [Hc Hdig]]]]]].
    replace (head_is "-" (digits (m / 10 ^ Z.of_nat k) +:+
               match k with O => "" | S _ => String "." (padStart k "0" (digits (m mod 10 ^ Z.of_nat k))) end
               +:+ rest)) with false
      by (rewrite Hc; cbn [String.append head_is]; symmetry;
          now apply digit_head_not).
    destruct k; exact Hp.
Qed.

(** *** Strings *)

Lemma parse_escape_char (c : ascii) (r : string) :
  parse_string_body (escape_char c +:+ r)
  = prepend (String c "") (parse_string_body r).
Proof. destruct c as [[] [] [] [] [] [] [] []]; reflexivity. Qed.

(** Reading back a quoted string gives the string. *)
Lemma parse_string_quote (s rest : string) :
  parse_string_body (escape s +:+ String dquote rest) = Some (s, rest).
Proof.
  induction s as [|c s IH].
  - reflexivity.
  - cbn [escape]. rewrite append_assoc, parse_escape_char, IH. reflexivity.
Qed.

(** *** Values *)

Lemma value_ind (P : value -> Prop) :
  P VUndefined -> P VNull -> (forall b, P (VBool b)) -> (forall n, P (VNum n)) ->
  (forall s, P (VStr s)) ->
  (forall l, Forall P l -> P (VArr l)) ->
  (forall o, Forall (fun kx => P (snd kx)) o -> P (VObj o)) ->
  (forall f, P (VFile f)) ->
  forall v, P v.
Proof.
  intros Hu Hn Hb Hnum Hs Ha Ho Hf.
  fix IH 1. intros v. destruct v as [| |b|n|s|l|o|f].
  - exact Hu.
  - exact Hn.
  - apply Hb.
  - apply Hnum.
  - apply Hs.
  - apply Ha. induction l as [|x l IHl]; constructor; [apply IH | exact IHl].
  - apply Ho. induction o as [|[k x] o IHo]; constructor; [apply IH | exact IHo].
  - apply Hf.
Qed.

Lemma value_head_facts (c : ascii) :
  is_value_head c = true ->
  is_ws c = false /\ Ascii.eqb c "]" = false /\ Ascii.eqb c "}" = false.
Proof.
  destruct c as [[] [] [] [] [] [] [] []]; intros H;
    try discriminate H; repeat split.
Qed.

Lemma number_head_facts (c : ascii) :
  is_number_head c = true ->
  is_ws c = false /\ Ascii.eqb c "{" = false /\ Ascii.eqb c "[" = false
  /\ Ascii.eqb c dquote = false /\ Ascii.eqb "t" c = false
  /\ Ascii.eqb "f" c = false /\ Ascii.eqb "n" c = false.
Proof.
  destruct c as [[] [] [] [] [] [] [] []]; intros H;
    try discriminate H; repeat split.
Qed.

Lemma Q_toString_head (q : Q) :
  exists c r, Q_toString q = String c r /\ is_number_head c = true.
Proof.
  unfold Q_toString.
  set (k := match decimal_places (Qred q) with Some k => k | None => 17%nat end).
  set (m := Z.abs (Qnum (Qred q)) * 10 ^ Z.of_nat k / Zpos (Qden (Qred q))).
  destruct (Qnum (Qred q) <? 0).
  - eexists _, _; split; [reflexivity | reflexivity].
  - assert (HI : 0 <= m / 10 ^ Z.of_nat k).
    { apply Z.div_pos; [|apply Z.pow_pos_nonneg; lia].
      subst m. apply Z.div_pos; [|lia].
      apply Z.mul_nonneg_nonneg; [lia|]. apply Z.pow_nonneg; lia. }
    destruct (digits_spec _ HI) as [_ [_ [_ [c [r [Hc Hd]]]]]].
    rewrite Hc. eexists _, _; split; [reflexivity|].
    unfold is_number_head. now rewrite Hd.
Qed.

(** A numeral at the head of the text is read as a number. *)
Lemma parse_value_number (fuel : nat) (c : ascii) (r : string) (q : Q) (rest : string) :
  is_number_head c = true ->
  parse_number (String c r) = Some (q, rest) ->
  parse_value (S fuel) (String c r) = Some (VNum (Fin q), rest).
Proof.
  intros Hc Hp.
  destruct (number_head_facts c Hc) as [Hws [H1 [H2 [H3 [H4 [H5 H6]]]]]].
  cbn [parse_value skip_ws startsWith]. rewrite Hws, H1, H2, H3, H4, H5, H6.
  cbn [andb]. now rewrite Hp.
Qed.

Lemma stringify_defined (v : value) :
  is_defined v = true -> JSON_stringify v = Some (elem_text v).
Proof.
  unfold elem_text. destruct v as [| |[]|[]|s|l|o|f]; intros H;
    try discriminate H; reflexivity.
Qed.

Lemma join_cons2 (sep x y : string) (l : list string) :
  join sep (x :: y :: l) = x +:+ sep +:+ join sep (y :: l).
Proof. reflexivity. Qed.

Lemma elem_text_head (v : value) :
  exists c r, elem_text v = String c r /\ is_value_head c = true.
Proof.
  unfold elem_text.
  destruct v as [| |[]|[| | |q]|s|l|o|f]; cbn [JSON_stringify];
    try (eexists _, _; split; reflexivity).
  destruct (Q_toString_head q) as [c [r [Hq Hc]]]. rewrite Hq.
  exists c, r. split; [reflexivity|].
  unfold is_number_head in Hc. unfold is_value_head.
  apply orb_true_iff in Hc as [-> | ->]; [reflexivity | now rewrite orb_true_r].
Qed.

Lemma elem_text_length (v : value) : (1 <= String.length (elem_text v))%nat.
Proof.
  destruct (elem_text_head v) as [c [r [H _]]]. rewrite H. simpl. lia.
Qed.

(** The elements of an array, up to the closing bracket. *)
Lemma parse_elems_join (l : list value) :
  l <> [] -> Forall reads_back l ->
  forall acc rest fuel,
    (String.length (join "," (map elem_text l)) + 1 <= fuel)%nat ->
    parse_elems fuel (join "," (map elem_text l) +:+ String "]" rest) acc
    = Some (VArr (acc ++ map elem_image l), rest).
Proof.
  induction l as [|x l IH]; [contradiction|]. intros _ Hall acc rest fuel Hfuel.
  inversion Hall as [|? ? Hx Hl]; subst.
  destruct fuel as [|fuel]; [lia|]. cbn [parse_elems].
  destruct l as [|y l].
  - cbn [map join] in *.
    rewrite Hx by (reflexivity || lia). reflexivity.
  - cbn [map] in *. rewrite join_cons2 in *.
    rewrite !length_append in Hfuel. cbn [String.length] in Hfuel.
    rewrite !append_assoc. cbn [String.append].
    rewrite Hx by (reflexivity || lia).
    cbn [skip_ws is_ws head_is string_drop].
    change (is_ws ",") with false. cbv iota.
    change (Ascii.eqb "," ",") with true. cbv iota.
    rewrite (IH ltac:(discriminate) Hl (acc ++ [elem_image x]) rest fuel ltac:(lia)).
    now rewrite <- app_assoc.
Qed.

Lemma props_set_fresh (acc : list (string * value)) (k : string) (v : value) :
  existsb (String.eqb k) (map fst acc) = false ->
  props_set acc k v = acc ++ [(k, v)].
Proof.
  induction acc as [|[k' v'] acc IH]; intros H; [reflexivity|].
  cbn [map existsb fst] in H. apply orb_false_iff in H as [Hk Hacc].
  cbn [props_set]. rewrite Hk. cbn [app]. now rewrite IH.
Qed.

Lemma existsb_app_false (k : string) (a b : list string) :
  existsb (String.eqb k) (a ++ b) = false <->
  existsb (String.eqb k) a = false /\ existsb (String.eqb k) b = false.
Proof. rewrite existsb_app, orb_false_iff. reflexivity. Qed.

Lemma skip_ws_head (c : ascii) (r : string) :
  is_ws c = false -> skip_ws (String c r) = String c r.
Proof. intros H. cbn [skip_ws]. now rewrite H. Qed.

(** One member of an object: its key, the colon, and then its value. *)
Lemma parse_members_member (fuel : nat) (k body : string)
                           (acc : list (string * value)) :
  parse_members (S fuel) (quote k +:+ ":" +:+ body) acc
  = match parse_value fuel body with
    | Some (v, rest') =>
        if head_is "," (skip_ws rest')
        then parse_members fuel (string_drop 1 (skip_ws rest')) (props_set acc k v)
        else if head_is "}" (skip_ws rest')
        then Some (VObj (props_set acc k v), string_drop 1 (skip_ws rest'))
        else None
    | None => None
    end.
Proof.
  unfold quote.
  change (String dquote (escape k +:+ String dquote "") +:+ ":" +:+ body)
    with (String dquote ((escape k +:+ String dquote "") +:+ ":" +:+ body)).
  rewrite append_assoc.
  change (String dquote "" +:+ ":" +:+ body) with (String dquote (String ":" body)).
  cbn [parse_members].
  rewrite (skip_ws_head dquote) by reflexivity.
  cbn [head_is string_drop]. rewrite Ascii.eqb_refl.
  rewrite parse_string_quote.
  rewrite (skip_ws_head ":") by reflexivity.
  cbn [head_is string_drop]. rewrite Ascii.eqb_refl. reflexivity.
Qed.

(** The members of an object, up to the closing brace. *)
Lemma parse_members_join (o : list (string * value)) :
  o <> [] -> Forall (fun kx => reads_back (snd kx)) o ->
  forallb (fun kx => is_defined (snd kx)) o = true ->
  forall acc rest fuel,
    nodup_keys (map fst (acc ++ o)) = true ->
    (String.length (join "," (map member_text o)) + 1 <= fuel)%nat ->
    parse_members fuel (join "," (map member_text o) +:+ String "}" rest) acc
    = Some (VObj (acc ++ map member_image o), rest).
Proof.
  induction o as [|[k x] o IH]; [contradiction|].
  intros _ Hall Hdef acc rest fuel Hnd Hfuel.
  inversion Hall as [|? ? Hx Ho]; subst. cbn [snd] in Hx.
  cbn [forallb snd] in Hdef. apply andb_true_iff in Hdef as [Hdx Hdo].
  assert (Himg : elem_image x = json_image x) by (destruct x; (discriminate || reflexivity)).
  assert (Hfresh : existsb (String.eqb k) (map fst acc) = false).
  { clear - Hnd. induction acc as [|[k' v'] acc IHa].
    - reflexivity.
    - cbn [app map fst nodup_keys] in Hnd. apply andb_true_iff in Hnd as [H1 H2].
      cbn [map fst existsb]. rewrite (IHa H2), orb_false_r.
      apply negb_true_iff in H1. rewrite map_app in H1.
      apply existsb_app_false in H1 as [_ H1]. cbn [map fst existsb] in H1.
      apply orb_false_iff in H1 as [H1 _].
      now rewrite String.eqb_sym. }
  assert (Hnd' : nodup_keys (map fst ((acc ++ [(k, json_image x)]) ++ o)) = true).
  { rewrite <- app_assoc, map_app. rewrite map_app in Hnd. exact Hnd. }
  destruct fuel as [|fuel]; [lia|].
  destruct o as [|[k2 x2] o].
  - cbn [map join] in *. unfold member_text in *. cbn [fst snd] in *.
    rewrite !length_append in Hfuel.
    rewrite !append_assoc, parse_members_member.
    rewrite Hx by (reflexivity || lia). rewrite Himg.
    rewrite (skip_ws_head "}") by reflexivity.
    cbn [head_is string_drop].
    change (Ascii.eqb "}" ",") with false. change (Ascii.eqb "}" "}") with true.
    cbv iota. now rewrite (props_set_fresh acc k _ Hfresh).
  - cbn [map] in *. rewrite join_cons2 in *.
    unfold member_text at 1. unfold member_text at 1 in Hfuel. cbn [fst snd] in *.
    rewrite !length_append in Hfuel. cbn [String.length] in Hfuel.
    rewrite !append_assoc, parse_members_member.
    change ("," +:+ ?X) with (String "," X).
    rewrite Hx by (reflexivity || lia). rewrite Himg.
    rewrite (skip_ws_head ",") by reflexivity.
    cbn [head_is string_drop]. change (Ascii.eqb "," ",") with true. cbv iota.
    rewrite (props_set_fresh acc k _ Hfresh).
    rewrite (IH ltac:(discriminate) Ho Hdo _ rest fuel Hnd' ltac:(lia)).
    now rewrite <- app_assoc.
Qed.

Lemma members_text (o : list (string * value)) :
  flat_map (fun kx => match JSON_stringify (snd kx) with
                      | Some t => [quote (fst kx) +:+ ":" +:+ t]
                      | None => []
                      end) o
  = map member_text (defined_props o).
Proof.
  induction o as [|[k x] o IH]; [reflexivity|].
  cbn [flat_map defined_props List.filter snd fst]. fold (defined_props o).
  rewrite IH. destruct (is_defined x) eqn:E.
  - rewrite (stringify_defined x E). reflexivity.
  - destruct x; try discriminate E. reflexivity.
Qed.

Lemma members_image (o : list (string * value)) :
  flat_map (fun kx => match snd kx with
                      | VUndefined => []
                      | _ => [(fst kx, json_image (snd kx))]
                      end) o
  = map member_image (defined_props o).
Proof.
  induction o as [|[k x] o IH]; [reflexivity|].
  cbn [flat_map defined_props List.filter snd fst]. fold (defined_props o).
  rewrite IH. destruct x; reflexivity.
Qed.

Lemma existsb_defined_props (k : string) (o : list (string * value)) :
  existsb (String.eqb k) (map fst o) = false ->
  existsb (String.eqb k) (map fst (defined_props o)) = false.
Proof.
  induction o as [|[k' x] o IH]; [reflexivity|].
  cbn [map fst existsb]. intros H. apply orb_false_iff in H as [H1 H2].
  cbn [defined_props List.filter snd]. fold (defined_props o).
  destruct (is_defined x); [|now apply IH].
  cbn [map fst existsb]. now rewrite H1, IH.
Qed.

Lemma nodup_defined_props (o : list (string * value)) :
  nodup_keys (map fst o) = true -> nodup_keys (map fst (defined_props o)) = true.
Proof.
  induction o as [|[k x] o IH]; [reflexivity|].
  cbn [map fst nodup_keys]. intros H. apply andb_true_iff in H as [H1 H2].
  cbn [defined_props List.filter snd]. fold (defined_props o).
  destruct (is_defined x); [|now apply IH].
  cbn [map fst nodup_keys]. apply negb_true_iff in H1.
  now rewrite (existsb_defined_props k o H1), IH.
Qed.

Lemma join_head (x : value) (l : list value) :
  exists c r, join "," (map elem_text (x :: l)) = String c r
              /\ is_value_head c = true.
Proof.
  destruct (elem_text_head x) as [c [r [Hx Hc]]].
  destruct l as [|y l].
  - exists c, r. now split.
  - cbn [map]. rewrite join_cons2, Hx. eexists _, _; split; [reflexivity | exact Hc].
Qed.

(** Every value of the model is read back as its image. *)
(** A text is not empty: reading it with no fuel does not arise. *)
Ltac zero_fuel fuel Hfuel :=
  destruct fuel as [|fuel];
  [ match type of Hfuel with
    | (String.length (elem_text ?v) <= _)%nat =>
        pose proof (elem_text_length v); lia
    end | ].

Lemma value_reads_back (v : value) : wf_value v = true -> reads_back v.
Proof.
  induction v as [| |b|n|s|l IHl|o IHo|f] using value_ind; intros Hwf tail fuel Htail Hfuel.
  - zero_fuel fuel Hfuel. reflexivity.
  - zero_fuel fuel Hfuel. reflexivity.
  - zero_fuel fuel Hfuel. destruct b; reflexivity.
  - destruct n as [| | |q]; try (zero_fuel fuel Hfuel; reflexivity).
    zero_fuel fuel Hfuel.
    change (elem_text (VNum (Fin q))) with (Q_toString q) in *.
    cbn [elem_image json_image]. cbn [wf_value] in Hwf.
    destruct (Q_toString_head q) as [c [r [Hq Hc]]].
    pose proof (parse_number_toString q tail Hwf Htail) as Hp.
    rewrite Hq in *. cbn [String.append] in *.
    now apply parse_value_number.
  - zero_fuel fuel Hfuel.
    change (elem_text (VStr s)) with (quote s) in *. unfold quote in *.
    change (String dquote (escape s +:+ String dquote "") +:+ tail)
      with (String dquote ((escape s +:+ String dquote "") +:+ tail)).
    rewrite append_assoc.
    change (String dquote "" +:+ tail) with (String dquote tail).
    cbn [parse_value]. rewrite (skip_ws_head dquote) by reflexivity.
    change (Ascii.eqb dquote "{") with false.
    change (Ascii.eqb dquote "[") with false.
    rewrite Ascii.eqb_refl. cbv iota.
    now rewrite parse_string_quote.
  - cbn [wf_value] in Hwf.
    assert (Hall : Forall reads_back l).
    { clear - IHl Hwf. induction l as [|x l IH]; constructor.
      - inversion IHl; subst. cbn [forallb] in Hwf.
        apply andb_true_iff in Hwf as [Hx _]. auto.
      - inversion IHl; subst. cbn [forallb] in Hwf.
        apply andb_true_iff in Hwf as [_ Hl]. auto. }
    zero_fuel fuel Hfuel.
    change (elem_text (VArr l))
      with ("[" +:+ join "," (map elem_text l) +:+ "]") in *.
    change (elem_image (VArr l)) with (VArr (map elem_image l)).
    destruct l as [|x l].
    + reflexivity.
    + destruct (join_head x l) as [c [r [Hj Hc]]].
      destruct (value_head_facts c Hc) as [Hws [Hsq _]].
      rewrite !append_assoc. cbn [String.append].
      change ("]" +:+ tail) with (String "]" tail).
      cbn [parse_value]. rewrite (skip_ws_head "[") by reflexivity.
      change (Ascii.eqb "[" "{") with false. rewrite Ascii.eqb_refl. cbv iota.
      assert (Hh : head_is "]" (skip_ws (join "," (map elem_text (x :: l))
                                         +:+ String "]" tail)) = false).
      { rewrite Hj. cbn [String.append].
        rewrite (skip_ws_head c) by exact Hws. exact Hsq. }
      rewrite Hh.
      cbn [String.append String.length] in Hfuel.
      rewrite length_append in Hfuel. cbn [String.length] in Hfuel.
      now rewrite (parse_elems_join (x :: l) ltac:(discriminate) Hall [] tail fuel
                     ltac:(lia)).
  - cbn [wf_value] in Hwf. apply andb_true_iff in Hwf as [Hnd Hwf].
    assert (Hall : Forall (fun kx => reads_back (snd kx)) (defined_props o)).
    { clear - IHo Hwf. induction o as [|[k x] o IH]; [constructor|].
      inversion IHo; subst. cbn [forallb snd] in *.
      apply andb_true_iff in Hwf as [Hx Ho].
      cbn [defined_props List.filter snd]. fold (defined_props o).
      destruct (is_defined x); [constructor|]; auto. }
    assert (Hdef : forallb (fun kx => is_defined (snd kx)) (defined_props o) = true).
    { apply forallb_forall. intros kx Hin. unfold defined_props in Hin.
      now apply filter_In in Hin as [_ H]. }
    pose proof (nodup_defined_props o Hnd) as Hnd'.
    assert (Ht : elem_text (VObj o)
                 = "{" +:+ join "," (map member_text (defined_props o)) +:+ "}").
    { unfold elem_text. cbn [JSON_stringify]. now rewrite members_text. }
    assert (Hi : elem_image (VObj o) = VObj (map member_image (defined_props o))).
    { cbn [elem_image json_image]. now rewrite members_image. }
    zero_fuel fuel Hfuel.
    rewrite Ht in *. rewrite Hi. clear Ht Hi.
    destruct (defined_props o) as [|[k x] o'] eqn:Eo.
    + reflexivity.
    + rewrite !append_assoc. cbn [String.append].
      change ("}" +:+ tail) with (String "}" tail).
      cbn [parse_value]. rewrite (skip_ws_head "{") by reflexivity.
      rewrite Ascii.eqb_refl. cbv iota.
      assert (Hj : exists r, join "," (map member_text ((k, x) :: o')) = String dquote r).
      { destruct o'; cbn [map]; [|rewrite join_cons2];
          unfold member_text, quote; cbn [fst String.append]; eexists; reflexivity. }
      destruct Hj as [r Hj].
      assert (Hh : head_is "}" (skip_ws (join "," (map member_text ((k, x) :: o'))
                                         +:+ String "}" tail)) = false).
      { rewrite Hj. cbn [String.append].
        rewrite (skip_ws_head dquote) by reflexivity. reflexivity. }
      rewrite Hh.
      cbn [String.append String.length] in Hfuel.
      rewrite length_append in Hfuel. cbn [String.length] in Hfuel.
      now rewrite (parse_members_join ((k, x) :: o') ltac:(discriminate) Hall Hdef
                     [] tail fuel Hnd' ltac:(lia)).
  - zero_fuel fuel Hfuel. reflexivity.
Qed.

(** Round trip.  For a value of the model, [JSON.parse] of what
    [JSON.stringify] writes is its image. *)
Theorem JSON_parse_stringify (v : value) (text : string) :
  wf_value v = true -> JSON_stringify v = Some text ->
  JSON_parse text = Ret (json_image v).
Proof.
  intros Hwf Ht.
  assert (Hd : is_defined v = true) by (destruct v; (discriminate || reflexivity)).
  pose proof (stringify_defined v Hd) as Htext. rewrite Ht in Htext.
  injection Htext as ->.
  pose proof (value_reads_back v Hwf "" (String.length (elem_text v)) eq_refl
                ltac:(lia)) as Hp.
  rewrite append_nil_r in Hp. unfold JSON_parse. rewrite Hp.
  destruct v; try discriminate Hd; reflexivity.
Qed.

(** *** Plain JSON data *)








(** ** C9: saveToLocalStorage and loadFromLocalStorage *)

Lemma setItem_fits (key text : string) (w : World) :
  fits key text w ->
  setItem key text w = (Ret tt, set_localStorage (<[key := text]> (localStorage w)) w).
Proof.
  unfold fits, setItem. intros H. apply N.leb_le in H. now rewrite H.
Qed.



(** ** C2: the playlist in local storage *)

(** Saving and loading a playlist of one track does not give the playlist
    back: the track comes back with an empty object for its file. *)
Lemma C2_counterexample :
  let w := mkWorld ∅ 5000000 [] None None in
  let file := mkFile "song.mp3" "audio/mpeg" 4096 in
  let playlist := VArr [Home.newTrack 1700000000000 (1 # 2)
                          "data:audio/mpeg;base64,SUQz" file] in
  fst (Home.loadPlaylistEffect (snd (Home.savePlaylistEffect playlist w)))
  = Ret (Some (VArr [persisted_track 1700000000000 (1 # 2)
                       "data:audio/mpeg;base64,SUQz" file]))
  /\ fst (Home.loadPlaylistEffect (snd (Home.savePlaylistEffect playlist w)))
     <> Ret (Some playlist).
Proof.
  intros w file playlist.
  assert (H : fst (Home.loadPlaylistEffect (snd (Home.savePlaylistEffect playlist w)))
              = Ret (Some (VArr [persisted_track 1700000000000 (1 # 2)
                                   "data:audio/mpeg;base64,SUQz" file])))
    by (vm_compute; reflexivity).
  split; [exact H|]. rewrite H. discriminate.
Qed.

Lemma track_image (u : upload) : elem_image (track_of u) = persisted_of u.
Proof.
  destruct u as [[[now random] result] file].
  cbn [track_of persisted_of]. unfold Home.newTrack, persisted_track.
  cbn [elem_image json_image flat_map snd fst app]. unfold js_add, num_of_Z.
  reflexivity.
Qed.

(** C2 (amended).  A playlist saved under the key [musicPlayerPlaylist], in
    a storage area that has room for it, is loaded back as the sequence of
    what JSON keeps of its tracks, in the same order; a track built by
    [handleFileUpload] comes back with its [id], [name] and [url], and with
    an empty object in place of its [file]. *)
Theorem C2_playlist_round_trip (tracks : list value) (w : World) :
  wf_value (VArr tracks) = true ->
  fits "musicPlayerPlaylist" (text_of (JSON_stringify (VArr tracks))) w ->
  let w' := snd (Home.savePlaylistEffect (VArr tracks) w) in
  localStorage w' !! "musicPlayerPlaylist"%string = JSON_stringify (VArr tracks)
  /\ fst (Home.loadPlaylistEffect w') = Ret (Some (VArr (map elem_image tracks)))
  /\ length (map elem_image tracks) = length tracks
  /\ (forall uploads, tracks = map track_of uploads ->
                      map elem_image tracks = map persisted_of uploads).
Proof.
  intros Hwf Hfits w'.
  destruct (JSON_stringify (VArr tracks)) as [text|] eqn:Ht; [|discriminate Ht].
  pose proof (JSON_parse_stringify _ text Hwf Ht) as Hparse.
  assert (Hw' : w' = set_localStorage
                       (<["musicPlayerPlaylist"%string := text]> (localStorage w)) w).
  { subst w'. unfold Home.savePlaylistEffect. rewrite Ht. cbn [text_of] in *.
    now rewrite (setItem_fits _ text w Hfits). }
  assert (Hne : String.eqb text "" = false).
  { pose proof (elem_text_length (VArr tracks)) as Hl.
    unfold elem_text in Hl. rewrite Ht in Hl.
    destruct text; [simpl in Hl; lia | reflexivity]. }
  split; [|split; [|split]].
  - rewrite Hw'. cbn [localStorage set_localStorage]. apply lookup_insert_eq.
  - rewrite Hw'. unfold Home.loadPlaylistEffect, bind, getItem.
    cbn [localStorage set_localStorage]. rewrite lookup_insert_eq.
    rewrite Hne. cbn [negb]. unfold lift. now rewrite Hparse.
  - apply length_map.
  - intros uploads ->. rewrite map_map. apply map_ext. exact track_image.
Qed.

(** C2 on a playlist of two tracks. *)
Lemma C2_playlist_round_trip_witness :
  let w := mkWorld ∅ 5000000 [] None None in
  let a := (1700000000000, 1 # 2, "data:audio/mpeg;base64,SUQz",
            mkFile "first.mp3" "audio/mpeg" 4096)%string in
  let b := (1700000000500, 1 # 4, "data:audio/mpeg;base64,//uQ",
            mkFile "second.mp3" "audio/mpeg" 8192)%string in
  fst (Home.loadPlaylistEffect
         (snd (Home.savePlaylistEffect (VArr [track_of a; track_of b]) w)))
  = Ret (Some (VArr [persisted_of a; persisted_of b])).
Proof.
  intros w a b.
  assert (Hwf : wf_value (VArr [track_of a; track_of b]) = true) by reflexivity.
  assert (Hfits : fits "musicPlayerPlaylist"
                    (text_of (JSON_stringify (VArr [track_of a; track_of b]))) w).
  { unfold fits. apply N.leb_le. vm_compute. reflexivity. }
  destruct (C2_playlist_round_trip [track_of a; track_of b] w Hwf Hfits)
    as [_ [Hload [_ Htracks]]].
  rewrite Hload. now rewrite (Htracks [a; b] eq_refl).
Defined.

(** ** C4: failures and exceptions *)

(** The functions of the audio utilities return whatever the state of the
    page: a failure is caught and ends in a console message. *)
Lemma loadFromLocalStorage_returns (key : string) (w : World) :
  exists v w', AudioUtils.loadFromLocalStorage key w = (Ret v, w').
Proof.
  unfold AudioUtils.loadFromLocalStorage, try_catch, bind, getItem, lift, ret,
    console_error, modify.
  destruct (localStorage w !! key) as [text|]; [|eauto].
  destruct (negb (String.eqb text "")); [|eauto].
  destruct (JSON_parse text); eauto.
Qed.

Lemma saveToLocalStorage_returns (now : Z) (key : string) (data : value) (w : World) :
  exists w', AudioUtils.saveToLocalStorage now key data w = (Ret tt, w').
Proof.
  unfold AudioUtils.saveToLocalStorage, try_catch, setItem, console_error, modify.
  destruct (_ <=? _)%N; eauto.
Qed.

Lemma removeFromLocalStorage_returns (key : string) (w : World) :
  exists w', AudioUtils.removeFromLocalStorage key w = (Ret tt, w').
Proof. unfold AudioUtils.removeFromLocalStorage, try_catch, removeItem, modify. eauto. Qed.

Lemma createAudioContext_returns (w : World) :
  exists c w', AudioUtils.createAudioContext w = (Ret c, w').
Proof.
  unfold AudioUtils.createAudioContext, try_catch, bind, get, new_AudioContext,
    ret, throw, console_error, modify.
  destruct (window_AudioContext w) as [[c|e]|];
    [eauto | eauto | destruct (window_webkitAudioContext w) as [[c|e]|]; eauto].
Qed.

Lemma connectAudioAnalyser_returns (el : option AudioElement)
                                   (ctx : option AudioContext) (w : World) :
  exists r w', AudioUtils.connectAudioAnalyser el ctx w = (Ret r, w').
Proof.
  unfold AudioUtils.connectAudioAnalyser, try_catch, bind, createMediaElementSource,
    ret, throw, console_error, modify.
  destruct ctx as [c|], el as [[[]]|]; eauto.
Qed.

(** C4.  With a stored playlist that is not JSON, the loading effect of
    pages/index.js throws: the [SyntaxError] of [JSON.parse] leaves the
    effect, and the mount of the page with it, where [loadFromLocalStorage]
    of the audio utilities catches it, logs it and returns [null].  The
    saving effect lets the [QuotaExceededError] of [setItem] escape in the
    same way, where [saveToLocalStorage] catches it. *)
Theorem C4_corrupted_playlist_escapes :
  let w := mkWorld {[ "musicPlayerPlaylist"%string := "{"%string ]} 5000000 [] None None in
  let full := mkWorld ∅ 10 [] None None in
  fst (Home.loadPlaylistEffect w) = Throw SyntaxError
  /\ fst (Home.mount w) = Throw SyntaxError
  /\ AudioUtils.loadFromLocalStorage "musicPlayerPlaylist" w
     = (Ret VNull,
        mkWorld (localStorage w) 5000000 ["Failed to load from localStorage:"%string]
                None None)
  /\ fst (Home.savePlaylistEffect (VArr [VStr "a track"]) full)
     = Throw QuotaExceededError
  /\ fst (AudioUtils.saveToLocalStorage 0 "musicPlayerPlaylist"
            (VObj [("name", VStr "a")]%string) full)
     = Ret tt.
Proof. vm_compute. repeat split; reflexivity. Qed.

(** ** C5: the configuration of the analyser *)

Ltac run_monad :=
  unfold new_AudioContext, createMediaElementSource, console_error in *;
  unfold bind, get, modify, ret, throw, lift, try_catch in *.








(** *** The visualizer component *)

Ltac av_done Ha :=
  repeat split; auto; try discriminate;
  try (match goal with
       | H : _ = Some ?a |- _ => destruct (Ha a H); assumption
       end).

Lemma AV_cancel_pending (s : AudioVisualizer.State) :
  AV_base s ->
  exists s', AudioVisualizer.cancel_pending s = (Ret tt, s')
             /\ AV_base s' /\ pending (AudioVisualizer.frames s') = []
             /\ AV_keeps s s'
             /\ AudioVisualizer.cleanup_animation s' = AudioVisualizer.cleanup_animation s
             /\ AudioVisualizer.cleanup_init s' = AudioVisualizer.cleanup_init s
             /\ AudioVisualizer.queued_isInitialized s'
                = AudioVisualizer.queued_isInitialized s.
Proof.
  destruct s as [el ip ii q m acr anr sr dar anim ci ca [pend next] rd w].
  unfold AV_base, AV_keeps. simpl. intros [Hr [Ha [Hn Hp]]].
  unfold AudioVisualizer.cancel_pending, AudioVisualizer.cancelAnimationFrame.
  run_monad. simpl.
  destruct Hp as [-> | [id [-> [-> Hid]]]].
  - destruct anim as [id|]; [destruct (id =? 0)%nat|]; eexists; (split; [reflexivity|]);
      simpl; av_done Ha.
  - apply Nat.eqb_neq in Hid. rewrite Hid. eexists; split; [reflexivity|].
    simpl. rewrite Nat.eqb_refl. simpl. av_done Ha.
Qed.

Lemma AV_initializeAudioContext (el0 : AudioElement) (s : AudioVisualizer.State) :
  AV_base s ->
  exists s', AudioVisualizer.initializeAudioContext el0 s = (Ret tt, s')
             /\ AV_base s'
             /\ pending (AudioVisualizer.frames s') = pending (AudioVisualizer.frames s)
             /\ AV_keeps s s'
             /\ AudioVisualizer.cleanup_animation s' = AudioVisualizer.cleanup_animation s
             /\ AudioVisualizer.cleanup_init s' = AudioVisualizer.cleanup_init s.
Proof.
  destruct s as [el ip ii q m acr anr sr dar anim ci ca [pend next] rd w].
  unfold AV_base, AV_keeps. simpl. intros [Hr [Ha [Hn Hp]]].
  unfold AudioVisualizer.initializeAudioContext, AudioVisualizer.in_world.
  run_monad.
  destruct acr as [ctx|];
    [simpl; eexists; split; [reflexivity|]; simpl; av_done Ha|].
  simpl.
  destruct (window_AudioContext w) as [[c|e]|];
    [| | destruct (window_webkitAudioContext w) as [[c|e]|]];
    simpl; try destruct sr; try destruct el0 as [[]]; simpl;
    (eexists; split; [reflexivity|]); simpl;
    (split; [split; [exact Hr | split; [| split; [exact Hn | exact Hp]]]|]);
    try exact Ha; try (intros a' [= <-]; split; reflexivity);
    av_done Ha.
Qed.

Lemma AV_keeps_refl (s : AudioVisualizer.State) : AV_keeps s s.
Proof. repeat split; auto. Qed.

Lemma AV_keeps_trans (s1 s2 s3 : AudioVisualizer.State) :
  AV_keeps s1 s2 -> AV_keeps s2 s3 -> AV_keeps s1 s3.
Proof.
  intros [A1 [A2 [A3 A4]]] [B1 [B2 [B3 B4]]].
  repeat split; try congruence. auto.
Qed.

Lemma AV_set_cleanup_init (b : bool) (s : AudioVisualizer.State) :
  AV_base s ->
  AV_base (AudioVisualizer.set_cleanup_init b s)
  /\ pending (AudioVisualizer.frames (AudioVisualizer.set_cleanup_init b s))
     = pending (AudioVisualizer.frames s)
  /\ AV_keeps s (AudioVisualizer.set_cleanup_init b s)
  /\ AudioVisualizer.cleanup_animation (AudioVisualizer.set_cleanup_init b s)
     = AudioVisualizer.cleanup_animation s.
Proof.
  destruct s. intros H. split; [exact H|]. split; [reflexivity|].
  split; [|reflexivity]. repeat split; auto.
Qed.

Lemma AV_init_effect (s : AudioVisualizer.State) :
  AV_base s ->
  exists s', AudioVisualizer.init_effect s = (Ret tt, s')
             /\ AV_base s'
             /\ pending (AudioVisualizer.frames s') = pending (AudioVisualizer.frames s)
             /\ AV_keeps s s'
             /\ AudioVisualizer.cleanup_animation s' = AudioVisualizer.cleanup_animation s.
Proof.
  intros Hb. unfold AudioVisualizer.init_effect. unfold bind at 1, get at 1.
  destruct (AudioVisualizer.audioElement s) as [el|] eqn:Eel;
    [destruct (AudioVisualizer.mounted s) eqn:Em|].
  - destruct (AV_initializeAudioContext el s Hb) as [s1 [E1 [B1 [P1 [K1 [C1 _]]]]]].
    unfold bind. rewrite E1. unfold modify. eexists; split; [reflexivity|].
    destruct (AV_set_cleanup_init true s1 B1) as [B2 [P2 [K2 C2]]].
    split; [exact B2|]. split; [congruence|].
    split; [exact (AV_keeps_trans _ _ _ K1 K2) | congruence].
  - unfold modify. eexists; split; [reflexivity|].
    exact (AV_set_cleanup_init false s Hb).
  - unfold modify. eexists; split; [reflexivity|].
    exact (AV_set_cleanup_init false s Hb).
Qed.

Lemma AV_draw (s : AudioVisualizer.State) :
  AV_base s -> pending (AudioVisualizer.frames s) = [] ->
  AudioVisualizer.analyserRef s <> None ->
  exists s', AudioVisualizer.draw true s = (Ret tt, s')
             /\ AV_base s' /\ AV_keeps s s'
             /\ AudioVisualizer.cleanup_animation s' = AudioVisualizer.cleanup_animation s
             /\ AudioVisualizer.cleanup_init s' = AudioVisualizer.cleanup_init s
             /\ AudioVisualizer.queued_isInitialized s'
                = AudioVisualizer.queued_isInitialized s.
Proof.
  destruct s as [el ip ii q m acr anr sr dar anim ci ca [pend next] rd w].
  unfold AV_base, AV_keeps. simpl. intros [Hr [Ha [Hn Hp]]] -> Hanr.
  unfold AudioVisualizer.draw, AudioVisualizer.requestAnimationFrame. run_monad.
  destruct anr as [a|]; [|contradiction]. simpl.
  eexists; split; [reflexivity|]. simpl.
  split; [split; [|split; [exact Ha | split; [lia|]]]|].
  - apply Forall_app; split; [exact Hr|]. constructor; [|constructor]. now apply Ha.
  - right. exists next. repeat split. lia.
  - repeat split; auto.
Qed.

Lemma AV_resume (s : AudioVisualizer.State) :
  AV_base s ->
  exists s', AudioVisualizer.resume_if_suspended s = (Ret tt, s')
             /\ AV_base s'
             /\ pending (AudioVisualizer.frames s') = pending (AudioVisualizer.frames s)
             /\ AV_keeps s s'
             /\ AudioVisualizer.cleanup_animation s' = AudioVisualizer.cleanup_animation s
             /\ AudioVisualizer.cleanup_init s' = AudioVisualizer.cleanup_init s
             /\ AudioVisualizer.queued_isInitialized s'
                = AudioVisualizer.queued_isInitialized s.
Proof.
  destruct s as [el ip ii q m acr anr sr dar anim ci ca [pend next] rd w].
  unfold AV_base, AV_keeps. simpl. intros [Hr [Ha [Hn Hp]]].
  unfold AudioVisualizer.resume_if_suspended. run_monad.
  destruct acr as [[[]]|]; simpl; (eexists; split; [reflexivity|]); simpl;
    (split; [split; [exact Hr | split; [exact Ha | split; [exact Hn | exact Hp]]]|]);
    repeat split; auto.
Qed.

Lemma AV_set_cleanup_animation (b : bool) (s : AudioVisualizer.State) :
  AV_base s ->
  AV_base (AudioVisualizer.set_cleanup_animation b s)
  /\ pending (AudioVisualizer.frames (AudioVisualizer.set_cleanup_animation b s))
     = pending (AudioVisualizer.frames s)
  /\ AV_keeps s (AudioVisualizer.set_cleanup_animation b s)
  /\ AudioVisualizer.cleanup_animation (AudioVisualizer.set_cleanup_animation b s) = b
  /\ AudioVisualizer.queued_isInitialized (AudioVisualizer.set_cleanup_animation b s)
     = AudioVisualizer.queued_isInitialized s.
Proof.
  destruct s. intros H. split; [exact H|]. split; [reflexivity|].
  split; [|split; reflexivity]. repeat split; auto.
Qed.

(** The animation effect, run with no frame pending. *)
Lemma AV_animation_effect (s : AudioVisualizer.State) :
  AV_base s -> pending (AudioVisualizer.frames s) = [] ->
  exists s', AudioVisualizer.animation_effect s = (Ret tt, s')
             /\ AV_inv s' /\ AV_keeps s s'
             /\ AudioVisualizer.queued_isInitialized s'
                = AudioVisualizer.queued_isInitialized s.
Proof.
  intros Hb Hp. unfold AudioVisualizer.animation_effect.
  unfold bind at 1, get at 1.
  destruct (negb (AudioVisualizer.isInitialized s) || negb (AudioVisualizer.isPlaying s)
            || negb (AudioVisualizer.mounted s)
            || negb (is_Some_bool (AudioVisualizer.analyserRef s))) eqn:G.
  - destruct (AV_cancel_pending s Hb) as [s1 [E1 [B1 [P1 [K1 [_ [_ Q1]]]]]]].
    unfold bind. rewrite E1. unfold modify. eexists; split; [reflexivity|].
    destruct (AV_set_cleanup_animation false s1 B1) as [B2 [P2 [K2 [_ Q2]]]].
    split; [split; [exact B2|]|].
    + intros F. rewrite P2, P1 in F. contradiction.
    + split; [exact (AV_keeps_trans _ _ _ K1 K2) | congruence].
  - apply orb_false_iff in G as [G G4]. apply orb_false_iff in G as [G G3].
    apply orb_false_iff in G as [G1 G2].
    apply negb_false_iff in G1, G2, G3, G4.
    assert (Hanr : AudioVisualizer.analyserRef s <> None).
    { destruct (AudioVisualizer.analyserRef s); [discriminate | discriminate G4]. }
    destruct (AV_resume s Hb) as [s1 [E1 [B1 [P1 [K1 [_ [_ Q1]]]]]]].
    unfold bind at 1. rewrite E1. rewrite Hp in P1.
    pose proof K1 as [K11 [K12 [K13 K14]]].
    destruct (AV_draw s1 B1 P1 (K14 Hanr)) as [s2 [E2 [B2 [K2 [_ [_ Q2]]]]]].
    unfold bind. rewrite G2, E2. unfold modify. eexists; split; [reflexivity|].
    destruct (AV_set_cleanup_animation true s2 B2) as [B3 [P3 [K3 [C3 Q3]]]].
    pose proof (AV_keeps_trans _ _ _ (AV_keeps_trans _ _ _ K1 K2) K3) as K.
    split; [split; [exact B3|]|split; [exact K | congruence]].
    destruct K as [Ka [Kb [Kc Kd]]].
    intros _. repeat split; try congruence. now apply Kd.
Qed.

Lemma AV_maybe_cancel (c : bool) (s : AudioVisualizer.State) :
  AV_base s ->
  exists s', (if c then AudioVisualizer.cancel_pending else ret tt) s = (Ret tt, s')
             /\ AV_base s'
             /\ (pending (AudioVisualizer.frames s') = []
                 \/ pending (AudioVisualizer.frames s')
                    = pending (AudioVisualizer.frames s))
             /\ (c = true -> pending (AudioVisualizer.frames s') = [])
             /\ AV_keeps s s'
             /\ AudioVisualizer.cleanup_animation s' = AudioVisualizer.cleanup_animation s
             /\ AudioVisualizer.cleanup_init s' = AudioVisualizer.cleanup_init s.
Proof.
  intros Hb. destruct c.
  - destruct (AV_cancel_pending s Hb) as [s1 [E1 [B1 [P1 [K1 [C1 [C2 _]]]]]]].
    exists s1. split; [exact E1|]. split; [exact B1|]. split; [now left|].
    split; [intros _; exact P1|]. split; [exact K1|]. now split.
  - exists s. split; [reflexivity|]. split; [exact Hb|]. split; [now right|].
    split; [discriminate|]. split; [apply AV_keeps_refl|]. now split.
Qed.

(** The effects of a commit.  A pending frame is covered by the cleanup of
    the animation effect; when that effect does not run again, the
    component is as it was left. *)
Lemma AV_run_effects (init_again animation_again : bool) (s : AudioVisualizer.State) :
  AV_base s ->
  (pending (AudioVisualizer.frames s) <> [] ->
   AudioVisualizer.cleanup_animation s = true) ->
  (animation_again = false -> AV_live s) ->
  exists s', AudioVisualizer.run_effects init_again animation_again s = (Ret tt, s')
             /\ AV_inv s'
             /\ AudioVisualizer.isPlaying s' = AudioVisualizer.isPlaying s
             /\ AudioVisualizer.mounted s' = AudioVisualizer.mounted s.
Proof.
  intros Hb Hclean Hlive. unfold AudioVisualizer.run_effects.
  unfold bind at 1, get at 1.
  destruct (AV_maybe_cancel (init_again && AudioVisualizer.cleanup_init s) s Hb)
    as [s1 [E1 [B1 [P1 [_ [K1 [C1 _]]]]]]].
  unfold bind at 1. rewrite E1.
  destruct (AV_maybe_cancel (animation_again && AudioVisualizer.cleanup_animation s) s1 B1)
    as [s2 [E2 [B2 [P2 [F2 [K2 [C2 _]]]]]]].
  unfold bind at 1. rewrite E2.
  assert (K12 := AV_keeps_trans _ _ _ K1 K2).
  assert (Hs3 : exists s3,
             (if init_again then AudioVisualizer.init_effect else ret tt) s2 = (Ret tt, s3)
             /\ AV_base s3
             /\ pending (AudioVisualizer.frames s3) = pending (AudioVisualizer.frames s2)
             /\ AV_keeps s2 s3
             /\ AudioVisualizer.cleanup_animation s3
                = AudioVisualizer.cleanup_animation s2).
  { destruct init_again.
    - exact (AV_init_effect s2 B2).
    - exists s2. split; [reflexivity|]. split; [exact B2|].
      split; [reflexivity|]. split; [apply AV_keeps_refl | reflexivity]. }
  destruct Hs3 as [s3 [E3 [B3 [P3 [K3 C3]]]]].
  unfold bind. rewrite E3.
  assert (K := AV_keeps_trans _ _ _ K12 K3).
  destruct animation_again.
  - assert (Hempty : pending (AudioVisualizer.frames s3) = []).
    { rewrite P3.
      destruct (pending (AudioVisualizer.frames s)) as [|f fs] eqn:Ep.
      - destruct P2 as [P2|P2]; [exact P2|]. rewrite P2.
        destruct P1 as [P1|P1]; [exact P1 | now rewrite P1].
      - apply F2. rewrite Hclean by discriminate. reflexivity. }
    destruct (AV_animation_effect s3 B3 Hempty) as [s4 [E4 [I4 [K4 _]]]].
    rewrite E4. exists s4. split; [reflexivity|]. split; [exact I4|].
    destruct (AV_keeps_trans _ _ _ K K4) as [Ka [_ [Kc _]]]. now split.
  - exists s3. split; [reflexivity|]. destruct K as [Ka [Kb [Kc Kd]]].
    split; [split; [exact B3|]|now split].
    intros Hne. rewrite P3 in Hne.
    assert (Hs : pending (AudioVisualizer.frames s) <> []).
    { destruct P2 as [P2|P2]; [congruence|]. rewrite P2 in Hne.
      destruct P1 as [P1|P1]; congruence. }
    destruct (Hlive eq_refl Hs) as [L1 [L2 [L3 [L4 L5]]]].
    repeat split; try congruence. now apply Kd.
Qed.

Lemma AV_set_isInitialized (b : bool) (q : option bool) (s : AudioVisualizer.State) :
  AV_base s ->
  AV_base (AudioVisualizer.set_isInitialized b q s)
  /\ pending (AudioVisualizer.frames (AudioVisualizer.set_isInitialized b q s))
     = pending (AudioVisualizer.frames s)
  /\ AudioVisualizer.cleanup_animation (AudioVisualizer.set_isInitialized b q s)
     = AudioVisualizer.cleanup_animation s
  /\ AudioVisualizer.isPlaying (AudioVisualizer.set_isInitialized b q s)
     = AudioVisualizer.isPlaying s
  /\ AudioVisualizer.mounted (AudioVisualizer.set_isInitialized b q s)
     = AudioVisualizer.mounted s
  /\ AudioVisualizer.isInitialized (AudioVisualizer.set_isInitialized b q s) = b
  /\ AudioVisualizer.analyserRef (AudioVisualizer.set_isInitialized b q s)
     = AudioVisualizer.analyserRef s.
Proof. destruct s. intros H. split; [exact H|]. repeat split. Qed.

Lemma AV_flush_state (s : AudioVisualizer.State) :
  AV_inv s ->
  exists s', AudioVisualizer.flush_state s = (Ret tt, s')
             /\ AV_inv s'
             /\ AudioVisualizer.isPlaying s' = AudioVisualizer.isPlaying s
             /\ AudioVisualizer.mounted s' = AudioVisualizer.mounted s.
Proof.
  intros [Hb Hl]. unfold AudioVisualizer.flush_state. unfold bind at 1, get at 1.
  destruct (AudioVisualizer.queued_isInitialized s) as [b|];
    [|exists s; split; [reflexivity|]; split; [exact (conj Hb Hl)|]; now split].
  unfold bind, modify.
  destruct (AV_set_isInitialized b None s Hb) as [B1 [P1 [C1 [I1 [M1 [N1 A1]]]]]].
  set (s1 := AudioVisualizer.set_isInitialized b None s) in *.
  destruct (Bool.eqb b (AudioVisualizer.isInitialized s)) eqn:E.
  - exists s1. split; [reflexivity|]. split; [split; [exact B1|]|now split].
    intros Hne. rewrite P1 in Hne. destruct (Hl Hne) as [L1 [L2 [L3 [L4 L5]]]].
    apply Bool.eqb_prop in E. repeat split; congruence.
  - destruct (AV_run_effects false true s1 B1) as [s2 [E2 [I2 [Q2 M2]]]].
    + intros Hne. rewrite P1 in Hne. rewrite C1. apply (Hl Hne).
    + discriminate.
    + rewrite E2. exists s2. split; [reflexivity|]. split; [exact I2|].
      split; congruence.
Qed.

Lemma AV_set_props (el : option AudioElement) (playing : bool)
                   (s : AudioVisualizer.State) :
  AV_base s ->
  AV_base (AudioVisualizer.set_props el playing s)
  /\ pending (AudioVisualizer.frames (AudioVisualizer.set_props el playing s))
     = pending (AudioVisualizer.frames s)
  /\ AudioVisualizer.cleanup_animation (AudioVisualizer.set_props el playing s)
     = AudioVisualizer.cleanup_animation s
  /\ AudioVisualizer.isPlaying (AudioVisualizer.set_props el playing s) = playing
  /\ AudioVisualizer.mounted (AudioVisualizer.set_props el playing s)
     = AudioVisualizer.mounted s
  /\ AudioVisualizer.isInitialized (AudioVisualizer.set_props el playing s)
     = AudioVisualizer.isInitialized s
  /\ AudioVisualizer.analyserRef (AudioVisualizer.set_props el playing s)
     = AudioVisualizer.analyserRef s.
Proof. destruct s. intros H. split; [exact H|]. repeat split. Qed.

Lemma AV_set_mounted (b : bool) (s : AudioVisualizer.State) :
  AV_base s ->
  AV_base (AudioVisualizer.set_mounted b s)
  /\ pending (AudioVisualizer.frames (AudioVisualizer.set_mounted b s))
     = pending (AudioVisualizer.frames s)
  /\ AudioVisualizer.cleanup_animation (AudioVisualizer.set_mounted b s)
     = AudioVisualizer.cleanup_animation s
  /\ AudioVisualizer.cleanup_init (AudioVisualizer.set_mounted b s)
     = AudioVisualizer.cleanup_init s
  /\ AudioVisualizer.mounted (AudioVisualizer.set_mounted b s) = b.
Proof. destruct s. intros H. split; [exact H|]. repeat split. Qed.

Lemma AV_inv_idle (s : AudioVisualizer.State) :
  AV_base s -> pending (AudioVisualizer.frames s) = [] -> AV_inv s.
Proof. intros Hb Hp. split; [exact Hb|]. intros Hne. contradiction. Qed.

Lemma find_frame_single (id id' : nat) (c : bool) (captured : bool) :
  find_frame id [(id', c)] = Some captured -> id = id' /\ captured = c.
Proof.
  cbn [find_frame]. destruct (Nat.eqb_spec id' id) as [->|]; [|discriminate].
  now intros [= ->].
Qed.

(** Every event keeps the invariant; an unmounted component has no frame
    pending. *)
Lemma AV_step_inv (s : AudioVisualizer.State) (e : AudioVisualizer.event) :
  AV_inv s -> AV_inv (AudioVisualizer.step s e).
Proof.
  intros [Hb Hl]. destruct e as [el playing same|id|]; cbn [AudioVisualizer.step].
  - destruct (AudioVisualizer.mounted s) eqn:Em; [|now split].
    set (el' := if same then AudioVisualizer.audioElement s else el).
    destruct (AV_set_props el' playing s Hb) as [B1 [P1 [C1 [I1 [M1 [N1 A1]]]]]].
    set (s1 := AudioVisualizer.set_props el' playing s) in *.
    destruct (AV_run_effects (negb same)
                (negb (Bool.eqb playing (AudioVisualizer.isPlaying s))) s1 B1)
      as [s2 [E2 [I2 _]]].
    + intros Hne. rewrite P1 in Hne. rewrite C1. apply (Hl Hne).
    + intros Heq. apply negb_false_iff, Bool.eqb_prop in Heq.
      intros Hne. rewrite P1 in Hne. destruct (Hl Hne) as [L1 [L2 [L3 [L4 L5]]]].
      repeat split; congruence.
    + unfold bind. rewrite E2.
      destruct (AV_flush_state s2 I2) as [s3 [E3 [I3 _]]]. now rewrite E3.
  - destruct (find_frame id (pending (AudioVisualizer.frames s))) as [captured|] eqn:Ef;
      [|now split].
    destruct Hb as [Hr [Ha [Hn Hp]]].
    destruct Hp as [Hp | [id' [Hp [Hanim Hid]]]]; [rewrite Hp in Ef; discriminate|].
    rewrite Hp in Ef. apply find_frame_single in Ef as [-> ->].
    assert (Hne : pending (AudioVisualizer.frames s) <> []) by (rewrite Hp; discriminate).
    destruct (Hl Hne) as [L1 [L2 [L3 [L4 L5]]]].
    set (s1 := AudioVisualizer.set_frames
                 (cancel_frame id' (AudioVisualizer.frames s)) s).
    assert (B1 : AV_base s1 /\ pending (AudioVisualizer.frames s1) = []
                 /\ AudioVisualizer.analyserRef s1 = AudioVisualizer.analyserRef s
                 /\ AudioVisualizer.isPlaying s1 = AudioVisualizer.isPlaying s
                 /\ AudioVisualizer.mounted s1 = AudioVisualizer.mounted s
                 /\ AudioVisualizer.isInitialized s1 = AudioVisualizer.isInitialized s
                 /\ AudioVisualizer.cleanup_animation s1
                    = AudioVisualizer.cleanup_animation s).
    { subst s1. destruct s as [? ? ? ? ? ? ? ? ? ? ? ? [pend next] ? ?].
      simpl in *. subst pend. unfold AV_base, cancel_frame. simpl.
      rewrite Nat.eqb_refl. simpl.
      split; [split; [exact Hr | split; [exact Ha | split; [exact Hn | now left]]]|].
      repeat split. }
    destruct B1 as [B1 [P1 [A1 [I1 [M1 [N1 C1]]]]]].
    destruct (AV_draw s1 B1 P1 ltac:(congruence)) as [s2 [E2 [B2 [K2 [C2 _]]]]].
    rewrite E2. cbn [snd]. split; [exact B2|].
    destruct K2 as [Ka [Kb [Kc Kd]]].
    intros _. repeat split; try congruence. apply Kd. congruence.
  - destruct (AudioVisualizer.mounted s) eqn:Em; [|now split].
    destruct (AV_set_mounted false s Hb) as [B1 [P1 [C1 [D1 M1]]]].
    set (s1 := AudioVisualizer.set_mounted false s) in *.
    destruct (AV_maybe_cancel (AudioVisualizer.cleanup_init s) s1 B1)
      as [s2 [E2 [B2 [P2 [_ [K2 [C2 _]]]]]]].
    unfold bind at 1. rewrite E2.
    destruct (AV_maybe_cancel (AudioVisualizer.cleanup_animation s) s2 B2)
      as [s3 [E3 [B3 [P3 [F3 [K3 [C3 _]]]]]]].
    unfold bind at 1. rewrite E3. unfold bind, modify. cbn [snd].
    destruct (AV_set_cleanup_init false s3 B3) as [B4 [P4 [K4 C4]]].
    destruct (AV_set_cleanup_animation false _ B4) as [B5 [P5 _]].
    apply AV_inv_idle; [exact B5|]. rewrite P5, P4.
    destruct (pending (AudioVisualizer.frames s)) as [|f fs] eqn:Ep.
    + destruct P3 as [P3|P3]; [exact P3|]. rewrite P3.
      destruct P2 as [P2|P2]; [exact P2|]. now rewrite P2, P1.
    + assert (Hne : pending (AudioVisualizer.frames s) <> [])
        by (rewrite Ep; discriminate).
      destruct (Hl Hne) as [_ [_ [_ [L4 _]]]]. apply F3. exact L4.
Qed.

Lemma AV_base_init (w : World) : AV_base (AudioVisualizer.init w).
Proof.
  split; [constructor|]. split; [intros a H; discriminate H|].
  split; [apply Nat.le_refl | now left].
Qed.

Lemma AV_mount_inv (el : option AudioElement) (playing : bool) (w : World) :
  AV_inv (AudioVisualizer.mount el playing w).
Proof.
  unfold AudioVisualizer.mount.
  destruct (AV_set_props el playing _ (AV_base_init w)) as [B1 [P1 _]].
  destruct (AV_set_mounted true _ B1) as [B2 [P2 _]].
  destruct (AV_run_effects true true _ B2) as [s2 [E2 [I2 _]]].
  - intros Hne. rewrite P2, P1 in Hne. now contradiction Hne.
  - discriminate.
  - unfold bind. rewrite E2.
    destruct (AV_flush_state s2 I2) as [s3 [E3 [I3 _]]]. now rewrite E3.
Qed.

Lemma AV_run_inv (evs : list AudioVisualizer.event) :
  forall s, AV_inv s -> AV_inv (AudioVisualizer.run s evs).
Proof.
  induction evs as [|e evs IH]; intros s H; [exact H|].
  apply IH. now apply AV_step_inv.
Qed.

(** An unmounted visualizer stays as it is. *)
Lemma AV_unmounted_stays (s : AudioVisualizer.State) (e : AudioVisualizer.event) :
  AV_inv s -> AudioVisualizer.mounted s = false -> AudioVisualizer.step s e = s.
Proof.
  intros [Hb Hl] Hm. destruct e as [el playing same|id|]; cbn [AudioVisualizer.step];
    rewrite ?Hm; try reflexivity.
  destruct (pending (AudioVisualizer.frames s)) as [|f fs] eqn:Ep; [reflexivity|].
  assert (Hne : pending (AudioVisualizer.frames s) <> []) by (rewrite Ep; discriminate).
  destruct (Hl Hne) as [_ [L2 _]]. congruence.
Qed.

(** In the visualizer a frame is pending only while the component is
    mounted and playing: pausing and unmounting cancel it, and nothing is
    scheduled after either until the component plays again. *)
Lemma AudioVisualizer_frames (el : option AudioElement) (playing : bool) (w : World)
                             (evs : list AudioVisualizer.event) :
  let s := AudioVisualizer.run (AudioVisualizer.mount el playing w) evs in
  (pending (AudioVisualizer.frames s) <> [] ->
   AudioVisualizer.isPlaying s = true /\ AudioVisualizer.mounted s = true)
  /\ (forall more, AudioVisualizer.mounted s = false ->
                   AudioVisualizer.run s more = s).
Proof.
  intros s.
  assert (Hinv : AV_inv s) by (apply AV_run_inv, AV_mount_inv).
  split.
  - intros Hne. destruct Hinv as [_ Hl]. destruct (Hl Hne) as [L1 [L2 _]]. now split.
  - intros more Hm. induction more as [|e more IH]; [reflexivity|].
    cbn [AudioVisualizer.run fold_left]. rewrite (AV_unmounted_stays s e Hinv Hm).
    exact IH.
Qed.


(** ** C7: the draw callback *)

(** In pages/index.js a frame that fires always schedules the next one,
    whether the page is mounted or playing or not. *)
Lemma Home_frame_reschedules (s : Home.State) (id : nat) :
  find_frame id (pending (Home.frames s)) <> None ->
  pending (Home.frames (Home.step s (Home.AnimationFrame id))) <> [].
Proof.
  intros Hf. cbn [Home.step].
  destruct (find_frame id (pending (Home.frames s))); [|contradiction].
  destruct s as [ct ip pl ar acr anr dar anim [pend next] rd w].
  unfold Home.updateVisualization, Home.requestAnimationFrame, request_frame.
  run_monad. simpl.
  destruct anr as [a|]; [destruct dar as [n|]|]; simpl;
    intros H; apply app_eq_nil in H as [_ H]; discriminate H.
Qed.

(** C7.  In pages/index.js unmounting cancels nothing: after play and
    unmount the frame is still pending, and when it fires it reads the
    analyser and schedules the next one, and so on; pausing does cancel
    the pending frame.  The visualizer component cancels its frame on
    unmount. *)
Theorem C7_Home_draws_after_unmount :
  let w := mkWorld ∅ 5000000 [] (Some (Constructs (mkAudioContext Running))) None in
  let file := mkFile "song.mp3" "audio/mpeg" 4096 in
  let playing := Home.run (Home.init w)
                   [Home.FileLoaded VNull 1700000000000 (1 # 2)
                      "data:audio/mpeg;base64,SUQz" file;
                    Home.PlayPauseClick (Ret tt)] in
  let unmounted := Home.step playing Home.Unmount in
  pending (Home.frames playing) = [(1%nat, tt)]
  /\ pending (Home.frames (Home.step playing (Home.PlayPauseClick (Ret tt)))) = []
  /\ Home.audioRef unmounted = None
  /\ pending (Home.frames unmounted) = [(1%nat, tt)]
  /\ pending (Home.frames (Home.step unmounted (Home.AnimationFrame 1))) = [(2%nat, tt)]
  /\ length (Home.reads (Home.run unmounted [Home.AnimationFrame 1; Home.AnimationFrame 2]))
     = 3%nat
  /\ pending (AudioVisualizer.frames
                (AudioVisualizer.run
                   (AudioVisualizer.mount (Some (mkAudioElement false)) true w)
                   [AudioVisualizer.AnimationFrame 1; AudioVisualizer.Unmount]))
     = [].
Proof. vm_compute. repeat split; reflexivity. Qed.

(** * Further properties of the code *)

(** ** Object URLs *)

Lemma startsWith_append (p s : string) : startsWith (p +:+ s) p = true.
Proof.
  induction p as [|c p IH]; [reflexivity|].
  cbn [String.append startsWith]. now rewrite Ascii.eqb_refl.
Qed.

Lemma revoke_blob_url (uuid : string) (live : ObjectURLs.Live) :
  ObjectURLs.revokeAudioUrl (VStr (ObjectURLs.blob_url uuid)) live
  = (Ret tt, live ∖ {[ ObjectURLs.blob_url uuid ]}).
Proof.
  unfold ObjectURLs.revokeAudioUrl, ObjectURLs.revokeObjectURL, modify,
    ObjectURLs.blob_url.
  assert (Ht : truthy (VStr ("blob:" +:+ uuid)) = true) by reflexivity.
  now rewrite Ht, (startsWith_append "blob:" uuid).
Qed.

Lemma revoke_fresh (url : string) (live : ObjectURLs.Live) :
  url ∉ live -> ({[ url ]} ∪ live) ∖ {[ url ]} = live /\ live ∖ {[ url ]} = live.
Proof.
  intros H. split; apply set_eq; intros x;
    rewrite elem_of_difference, ?elem_of_union, elem_of_singleton.
  - split; [intros [[->|Hx] Hn]; [now contradiction Hn | exact Hx]|].
    intros Hx. split; [now right | now intros ->].
  - split; [now intros [Hx _] | intros Hx; split; [exact Hx | now intros ->]].
Qed.

(** X1.  For a file that [validateAudioFile] accepts, [createAudioUrl]
    hands out a URL of the scheme [blob:] (the URL of the abstract model of
    the utilities) and makes it alive; [revokeAudioUrl] on that URL leaves
    the set of live URLs as it was before the creation, and revoking a URL
    that is not alive changes nothing. *)
Theorem object_url_round_trip (uuid : string) (file : option File)
                              (live : ObjectURLs.Live) :
  AudioUtils.validateAudioFile file = true ->
  ObjectURLs.blob_url uuid ∉ live ->
  exists url,
    ObjectURLs.createAudioUrl uuid file live = (Ret url, {[ url ]} ∪ live)
    /\ startsWith url "blob:" = true
    /\ fst (AudioUtils.createAudioUrl url file live) = Ret url
    /\ ObjectURLs.revokeAudioUrl (VStr url) ({[ url ]} ∪ live) = (Ret tt, live)
    /\ ObjectURLs.revokeAudioUrl (VStr url) live = (Ret tt, live).
Proof.
  intros Hv Hfresh. exists (ObjectURLs.blob_url uuid).
  unfold ObjectURLs.createAudioUrl, AudioUtils.createAudioUrl,
    ObjectURLs.createObjectURL. rewrite Hv. cbn [negb].
  split; [reflexivity|]. split; [apply startsWith_append|]. split; [reflexivity|].
  rewrite !revoke_blob_url. destruct (revoke_fresh _ _ Hfresh) as [-> ->].
  split; reflexivity.
Qed.

Lemma object_url_round_trip_witness :
  let file := Some (mkFile "song.mp3" "audio/mpeg" 4096) in
  AudioUtils.validateAudioFile file = true
  /\ (ObjectURLs.blob_url "3f2a" ∉ (∅ : ObjectURLs.Live))
  /\ exists url,
       ObjectURLs.createAudioUrl "3f2a" file ∅ = (Ret url, {[ url ]} ∪ ∅)
       /\ startsWith url "blob:" = true
       /\ fst (AudioUtils.createAudioUrl url file (∅ : ObjectURLs.Live)) = Ret url
       /\ ObjectURLs.revokeAudioUrl (VStr url) ({[ url ]} ∪ ∅) = (Ret tt, ∅)
       /\ ObjectURLs.revokeAudioUrl (VStr url) ∅ = (Ret tt, ∅).
Proof.
  split; [reflexivity|]. split; [apply not_elem_of_empty|].
  apply object_url_round_trip; [reflexivity | apply not_elem_of_empty].
Defined.

(** X2.  [getAudioMetadata] settles as its model without object URLs
    does; when it resolves, the one URL it has created is alive and is the
    [url] of the metadata; when it rejects (no file, a file that is not
    accepted, an [error] of the audio element) no URL is left alive. *)
Theorem getAudioMetadata_object_url (uuid : string) (answer : AudioUtils.media_event)
                                    (file : option File) (live : ObjectURLs.Live) :
  ObjectURLs.blob_url uuid ∉ live ->
  fst (ObjectURLs.getAudioMetadata uuid answer file live)
  = AudioUtils.getAudioMetadata (ObjectURLs.blob_url uuid) answer file
  /\ match ObjectURLs.getAudioMetadata uuid answer file live with
     | (Ret metadata, live') =>
         live' = {[ ObjectURLs.blob_url uuid ]} ∪ live
         /\ get_prop metadata "url" = VStr (ObjectURLs.blob_url uuid)
     | (Throw _, live') => live' = live
     end.
Proof.
  intros Hfresh.
  unfold ObjectURLs.getAudioMetadata, AudioUtils.getAudioMetadata.
  destruct file as [f|]; [|split; reflexivity].
  unfold ObjectURLs.createAudioUrl.
  destruct (AudioUtils.validateAudioFile (Some f)); cbn [negb];
    [|split; reflexivity].
  unfold ObjectURLs.createObjectURL, bind, ret, throw.
  destruct answer as [duration|].
  - split; [reflexivity|]. split; reflexivity.
  - rewrite revoke_blob_url. split; [reflexivity|].
    now destruct (revoke_fresh _ _ Hfresh) as [-> _].
Qed.

Lemma getAudioMetadata_object_url_witness :
  let file := Some (mkFile "song.mp3" "audio/mpeg" 4096) in
  (ObjectURLs.blob_url "3f2a" ∉ (∅ : ObjectURLs.Live))
  /\ snd (ObjectURLs.getAudioMetadata "3f2a" AudioUtils.MediaError file ∅) = ∅.
Proof.
  split; [apply not_elem_of_empty|].
  pose proof (getAudioMetadata_object_url "3f2a" AudioUtils.MediaError
                (Some (mkFile "song.mp3" "audio/mpeg" 4096)) ∅
                (not_elem_of_empty _)) as [_ H].
  cbv zeta.
  destruct (ObjectURLs.getAudioMetadata "3f2a" AudioUtils.MediaError
              (Some (mkFile "song.mp3" "audio/mpeg" 4096)) ∅) as [[v|e] live'] eqn:E.
  - discriminate E.
  - exact H.
Defined.

(** X3.  Every file that [FileUpload] hands to [onFileSelect] and every
    file that [handleFileUpload] keeps passes [validateAudioFile]; for a file
    that passes, [createAudioUrl] returns a new object URL and
    [getAudioMetadata] resolves on [loadedmetadata] with that URL and the
    size of the file; for a file that does not pass, both fail and no URL
    is created. *)
Theorem accepted_files_are_valid (f : File) :
  ((exists s, FileUpload_accepts f s) \/ (exists files, In f (Home.mp3Files files)) ->
   AudioUtils.validateAudioFile (Some f) = true)
  /\ (AudioUtils.validateAudioFile (Some f) = true ->
      (forall uuid live,
          ObjectURLs.createAudioUrl uuid (Some f) live
          = (Ret (ObjectURLs.blob_url uuid), {[ ObjectURLs.blob_url uuid ]} ∪ live))
      /\ (forall blob duration,
             exists metadata,
               AudioUtils.getAudioMetadata blob (AudioUtils.LoadedMetadata duration) (Some f)
               = Ret metadata
               /\ get_prop metadata "url" = VStr blob
               /\ get_prop metadata "size" = VNum (num_of_Z (file_size f))))
  /\ (AudioUtils.validateAudioFile (Some f) = false ->
      (forall uuid live, exists e,
          ObjectURLs.createAudioUrl uuid (Some f) live = (Throw e, live))
      /\ (forall blob answer, exists e,
             AudioUtils.getAudioMetadata blob answer (Some f) = Throw e)).
Proof.
  split; [|split].
  - intros [[s Hs] | [files Hin]].
    + unfold FileUpload_accepts in Hs.
      pose proof (handleFileSelect_cases f s) as Hc. cbv zeta in Hc.
      unfold AudioUtils.validateAudioFile. cbn [existsb].
      destruct (String.eqb (file_type f) "audio/mpeg") eqn:Et;
        [now rewrite !orb_true_r|].
      destruct (endsWith (toLowerCase (file_name f)) ".mp3") eqn:Ee;
        [now rewrite !orb_true_r|].
      cbn [orb andb] in Hc. destruct Hc as [Hc _]. rewrite Hc in Hs.
      apply (f_equal (@length _)) in Hs. rewrite length_app in Hs.
      cbn [length] in Hs. lia.
    + unfold Home.mp3Files in Hin. apply List.filter_In in Hin as [_ Ht].
      unfold AudioUtils.validateAudioFile. cbn [existsb].
      now rewrite Ht, !orb_true_r.
  - intros Hv. split.
    + intros uuid live. unfold ObjectURLs.createAudioUrl. now rewrite Hv.
    + intros blob duration. unfold AudioUtils.getAudioMetadata. rewrite Hv.
      eexists. split; [reflexivity|]. split; reflexivity.
  - intros Hv. split.
    + intros uuid live. unfold ObjectURLs.createAudioUrl. rewrite Hv.
      eexists. reflexivity.
    + intros blob answer. unfold AudioUtils.getAudioMetadata. rewrite Hv.
      eexists. reflexivity.
Qed.

(** ** The storage area *)

Lemma storage_usage_insert (m : gmap string string) (k t : string) :
  storage_usage (<[k := t]> m)
  = (storage_usage (delete k m) + N.of_nat (String.length k)
     + N.of_nat (String.length t))%N.
Proof.
  rewrite <- insert_delete_eq. unfold storage_usage.
  rewrite map_fold_insert_L; [reflexivity | | apply lookup_delete_eq].
  intros. lia.
Qed.


Lemma set_localStorage_same (w : World) : set_localStorage (localStorage w) w = w.
Proof. now destruct w. Qed.

Lemma set_localStorage_twice (m m' : gmap string string) (w : World) :
  set_localStorage m (set_localStorage m' w) = set_localStorage m w.
Proof. reflexivity. Qed.


Lemma loadFromLocalStorage_entry (key : string) (w : World) :
  fst (AudioUtils.loadFromLocalStorage key w)
  = Ret (loaded_from (localStorage w !! key))
  /\ localStorage (snd (AudioUtils.loadFromLocalStorage key w)) = localStorage w.
Proof.
  unfold AudioUtils.loadFromLocalStorage, try_catch, bind, getItem, lift, ret,
    console_error, modify, loaded_from.
  destruct (localStorage w !! key) as [text|]; [|split; reflexivity].
  destruct (String.eqb text ""); cbn [negb]; [split; reflexivity|].
  destruct (JSON_parse text); split; reflexivity.
Qed.

Lemma saveToLocalStorage_storage (now : Z) (key : string) (audioData : value)
                                 (w : World) :
  localStorage (snd (AudioUtils.saveToLocalStorage now key audioData w))
  = localStorage w
  \/ localStorage (snd (AudioUtils.saveToLocalStorage now key audioData w))
     = <[key := text_of (JSON_stringify (with_timestamp audioData now))]>
         (localStorage w).
Proof.
  unfold AudioUtils.saveToLocalStorage, try_catch, setItem, console_error, modify,
    with_timestamp.
  destruct (_ <=? _)%N; [right | left]; reflexivity.
Qed.

(** X4.  What [loadFromLocalStorage] returns for a key is not changed
    by [saveToLocalStorage] or [removeFromLocalStorage] on another key,
    whether the save goes through or not. *)
Theorem storage_keys_independent (now : Z) (key other : string) (audioData : value)
                                 (w : World) :
  other <> key ->
  fst (AudioUtils.loadFromLocalStorage other
         (snd (AudioUtils.saveToLocalStorage now key audioData w)))
  = fst (AudioUtils.loadFromLocalStorage other w)
  /\ fst (AudioUtils.loadFromLocalStorage other
            (snd (AudioUtils.removeFromLocalStorage key w)))
     = fst (AudioUtils.loadFromLocalStorage other w).
Proof.
  intros Hne.
  rewrite !(proj1 (loadFromLocalStorage_entry other _)). split; do 2 f_equal.
  - destruct (saveToLocalStorage_storage now key audioData w) as [-> | ->];
      [reflexivity|].
    apply lookup_insert_ne. congruence.
  - cbn. apply lookup_delete_ne. congruence.
Qed.

Lemma storage_keys_independent_witness :
  let w := mkWorld {[ "settings"%string := "{}"%string ]} 1000 [] None None in
  "settings"%string <> "track"%string
  /\ fst (AudioUtils.loadFromLocalStorage "settings"
            (snd (AudioUtils.saveToLocalStorage 1700000000000 "track"
                    (VObj [("name", VStr "song")]%string) w)))
     = Ret (VObj []).
Proof.
  split; [discriminate|].
  rewrite (proj1 (storage_keys_independent 1700000000000 "track" "settings"
                    (VObj [("name", VStr "song")]%string) _ ltac:(discriminate))).
  reflexivity.
Defined.

(** X5.  After [saveToLocalStorage] and then [removeFromLocalStorage]
    on the same key, [loadFromLocalStorage] returns [null] for it; the
    removal returns normally and logs nothing, the storage area is the one
    before the save without the key, and removing again changes nothing. *)
Theorem removeFromLocalStorage_then_load (now : Z) (key : string) (audioData : value)
                                         (w : World) :
  let saved := snd (AudioUtils.saveToLocalStorage now key audioData w) in
  let removed := snd (AudioUtils.removeFromLocalStorage key saved) in
  fst (AudioUtils.removeFromLocalStorage key saved) = Ret tt
  /\ fst (AudioUtils.loadFromLocalStorage key removed) = Ret VNull
  /\ localStorage removed = delete key (localStorage w)
  /\ console removed = console saved
  /\ snd (AudioUtils.removeFromLocalStorage key removed) = removed.
Proof.
  intros saved removed. split; [reflexivity|].
  assert (Hst : localStorage removed = delete key (localStorage w)).
  { subst removed. cbn. subst saved.
    destruct (saveToLocalStorage_storage now key audioData w) as [-> | ->];
      [reflexivity | apply delete_insert_eq]. }
  split; [|split; [exact Hst | split; [reflexivity|]]].
  - rewrite (proj1 (loadFromLocalStorage_entry key removed)), Hst.
    now rewrite lookup_delete_eq.
  - unfold AudioUtils.removeFromLocalStorage, try_catch, removeItem, modify.
    cbn [snd]. fold removed. unfold set_localStorage.
    rewrite (delete_id (localStorage removed)); [now destruct removed|].
    rewrite Hst. apply lookup_delete_eq.
Qed.

(** X6.  When the text to store does not fit into the storage area,
    [saveToLocalStorage] returns normally, writes one message on the
    console and leaves the storage area as it was: every key, the one of
    the failed save included, loads as before. *)
Theorem saveToLocalStorage_over_quota (now : Z) (key : string) (audioData : value)
                                      (w : World) :
  ~ fits key (text_of (JSON_stringify (with_timestamp audioData now))) w ->
  AudioUtils.saveToLocalStorage now key audioData w
  = (Ret tt,
     mkWorld (localStorage w) (storage_quota w)
             (console w ++ ["Failed to save to localStorage:"%string])
             (window_AudioContext w) (window_webkitAudioContext w))
  /\ forall k,
       fst (AudioUtils.loadFromLocalStorage k
              (snd (AudioUtils.saveToLocalStorage now key audioData w)))
       = fst (AudioUtils.loadFromLocalStorage k w).
Proof.
  intros Hfit.
  assert (E : AudioUtils.saveToLocalStorage now key audioData w
              = (Ret tt,
                 mkWorld (localStorage w) (storage_quota w)
                         (console w ++ ["Failed to save to localStorage:"%string])
                         (window_AudioContext w) (window_webkitAudioContext w))).
  { unfold AudioUtils.saveToLocalStorage, try_catch, setItem, console_error, modify.
    unfold fits, with_timestamp in Hfit.
    destruct (_ <=? _)%N eqn:El; [|reflexivity].
    apply N.leb_le in El. contradiction. }
  split; [exact E|]. intros k. rewrite E.
  now rewrite !(proj1 (loadFromLocalStorage_entry k _)).
Qed.

Lemma saveToLocalStorage_over_quota_witness :
  let w := mkWorld {[ "track"%string := "{}"%string ]} 20 [] None None in
  let data := VObj [("name", VStr "a long enough name")]%string in
  ~ fits "track" (text_of (JSON_stringify (with_timestamp data 1700000000000))) w
  /\ fst (AudioUtils.loadFromLocalStorage "track"
            (snd (AudioUtils.saveToLocalStorage 1700000000000 "track" data w)))
     = Ret (VObj []).
Proof.
  assert (H : ~ fits "track"
                (text_of (JSON_stringify
                            (with_timestamp (VObj [("name", VStr "a long enough name")]%string)
                                            1700000000000)))
                (mkWorld {[ "track"%string := "{}"%string ]} 20 [] None None)).
  { unfold fits. intros H. apply N.leb_le in H. vm_compute in H. discriminate H. }
  split; [exact H|].
  rewrite (proj2 (saveToLocalStorage_over_quota _ _ _ _ H) "track"%string).
  reflexivity.
Defined.

(** X7.  [loadFromLocalStorage] always returns and never writes the
    storage area.  For a key that is absent or holds the empty text it
    returns [null] and logs nothing; for a text that [JSON.parse] rejects it
    returns [null] after one console message; for a text that is JSON it
    returns the value parsed and changes nothing. *)
Theorem loadFromLocalStorage_unreadable (key : string) (w : World) :
  exists v w',
    AudioUtils.loadFromLocalStorage key w = (Ret v, w')
    /\ localStorage w' = localStorage w
    /\ (localStorage w !! key = None \/ localStorage w !! key = Some ""%string ->
        v = VNull /\ w' = w)
    /\ (forall text e, localStorage w !! key = Some text -> text <> ""%string ->
                       JSON_parse text = Throw e ->
                       v = VNull
                       /\ console w'
                          = console w ++ ["Failed to load from localStorage:"%string])
    /\ (forall text x, localStorage w !! key = Some text -> text <> ""%string ->
                       JSON_parse text = Ret x -> v = x /\ w' = w).
Proof.
  unfold AudioUtils.loadFromLocalStorage, try_catch, bind, getItem, lift, ret,
    console_error, modify.
  destruct (localStorage w !! key) as [text|] eqn:El.
  - destruct (String.eqb_spec text "") as [->|Hne]; cbn [negb].
    + exists VNull, w. split; [reflexivity|]. split; [reflexivity|].
      split; [now intros _|].
      split; intros t y [= <-] Hn; now contradiction Hn.
    + destruct (JSON_parse text) as [v|e] eqn:Ep.
      * exists v, w. split; [reflexivity|]. split; [reflexivity|].
        split; [intros [H|[= H]]; [discriminate H | now contradiction Hne]|].
        split; intros t y [= <-] _ H; [congruence|].
        rewrite Ep in H. injection H as ->. now split.
      * eexists VNull, _. split; [reflexivity|]. cbn.
        split; [reflexivity|].
        split; [intros [H|[= H]]; [discriminate H | now contradiction Hne]|].
        split; intros t y [= <-] _ H; [now split | congruence].
  - exists VNull, w. split; [reflexivity|]. split; [reflexivity|].
    split; [now intros _|]. split; intros; discriminate.
Qed.

(** ** The page and the storage area *)




Lemma array_text_not_empty (l : list value) :
  String.eqb (text_of (JSON_stringify (VArr l))) "" = false.
Proof. reflexivity. Qed.





(** *** Texts that do not fit *)

Lemma escape_char_length (c : ascii) : (1 <= String.length (escape_char c))%nat.
Proof.
  unfold escape_char.
  repeat match goal with
         | |- context [if ?b then _ else _] => destruct b
         end; cbn; lia.
Qed.

Lemma escape_length (s : string) : (String.length s <= String.length (escape s))%nat.
Proof.
  induction s as [|c s IH]; [apply Nat.le_refl|].
  cbn [escape String.length]. rewrite length_append.
  pose proof (escape_char_length c). lia.
Qed.

Lemma quote_length (s : string) : (String.length s <= String.length (quote s))%nat.
Proof.
  unfold quote. cbn [String.length]. rewrite length_append.
  pose proof (escape_length s). lia.
Qed.

Lemma join_length (sep x : string) (l : list string) :
  In x l -> (String.length x <= String.length (join sep l))%nat.
Proof.
  induction l as [|y l IH]; [intros []|].
  intros [->|Hin].
  - destruct l as [|z l]; [apply Nat.le_refl|].
    rewrite join_cons2, length_append. lia.
  - destruct l as [|z l]; [destruct Hin|].
    rewrite join_cons2, !length_append. specialize (IH Hin). lia.
Qed.

(** The text of an object is at least as long as the text of each of its
    properties. *)
Lemma object_text_length (o : list (string * value)) (k : string) (x : value)
                         (t : string) :
  props_get o k = Some x -> JSON_stringify x = Some t ->
  (String.length t <= String.length (text_of (JSON_stringify (VObj o))))%nat.
Proof.
  intros Hget Ht.
  change (text_of (JSON_stringify (VObj o)))
    with ("{" +:+
          join "," (flat_map (fun kx => match JSON_stringify (snd kx) with
                                        | Some t => [quote (fst kx) +:+ ":" +:+ t]
                                        | None => []
                                        end) o)
          +:+ "}").
  assert (Hin : In (quote k +:+ ":" +:+ t)
                   (flat_map (fun kx => match JSON_stringify (snd kx) with
                                        | Some t => [quote (fst kx) +:+ ":" +:+ t]
                                        | None => []
                                        end) o)).
  { induction o as [|[k' x'] o IH]; [discriminate Hget|].
    cbn [props_get] in Hget. cbn [flat_map fst snd]. apply in_or_app.
    destruct (String.eqb_spec k k') as [<-|Hne].
    - injection Hget as ->. rewrite Ht. left. now left.
    - right. exact (IH Hget). }
  apply (join_length ",") in Hin. rewrite !length_append in *. lia.
Qed.

Lemma array_text_elem (l : list value) (x : value) :
  In x l ->
  (String.length (elem_text x) <= String.length (text_of (JSON_stringify (VArr l))))%nat.
Proof.
  intros Hin.
  change (text_of (JSON_stringify (VArr l)))
    with ("[" +:+ join "," (map elem_text l) +:+ "]").
  apply (in_map elem_text) in Hin. apply (join_length ",") in Hin.
  rewrite !length_append. lia.
Qed.

(** X9.  A playlist with a track whose [url] is longer than the quota of
    the storage area cannot be saved: the saving effect of the page throws
    a [QuotaExceededError] and the storage area keeps what it held. *)
Theorem Home_save_over_quota (tracks : list value) (track : value) (url : string)
                             (w : World) :
  In track tracks ->
  get_prop track "url" = VStr url ->
  (storage_quota w < N.of_nat (String.length url))%N ->
  Home.savePlaylistEffect (VArr tracks) w = (Throw QuotaExceededError, w).
Proof.
  intros Hin Hurl Hq.
  assert (Hlen : (String.length url
                  <= String.length (text_of (JSON_stringify (VArr tracks))))%nat).
  { pose proof (array_text_elem tracks track Hin) as Ha.
    assert (Ht : (String.length url <= String.length (elem_text track))%nat);
      [|lia].
    destruct track as [| | | | | |o|f]; try discriminate Hurl.
    cbn [get_prop] in Hurl.
    destruct (props_get o "url") as [x|] eqn:Eg; [|discriminate Hurl].
    subst x.
    pose proof (object_text_length o "url" (VStr url) (quote url) Eg eq_refl) as Ho.
    pose proof (quote_length url). unfold elem_text.
    change (JSON_stringify (VObj o)) with (Some (text_of (JSON_stringify (VObj o)))).
    lia. }
  unfold Home.savePlaylistEffect, setItem.
  destruct (_ <=? _)%N eqn:El; [|reflexivity].
  apply N.leb_le in El. rewrite storage_usage_insert in El. lia.
Qed.

Lemma Home_save_over_quota_witness :
  let file := mkFile "song.mp3" "audio/mpeg" 4096 in
  let track := Home.newTrack 1700000000000 (1 # 2)
                 "data:audio/mpeg;base64,SUQzBAAAAAAAI1RTU0UAAAAPAAADTGF2ZjU4" file in
  let w := mkWorld {[ "musicPlayerPlaylist"%string := "[]"%string ]} 40 [] None None in
  In track [track]
  /\ get_prop track "url"
     = VStr "data:audio/mpeg;base64,SUQzBAAAAAAAI1RTU0UAAAAPAAADTGF2ZjU4"
  /\ (storage_quota w
      < N.of_nat (String.length
                    "data:audio/mpeg;base64,SUQzBAAAAAAAI1RTU0UAAAAPAAADTGF2ZjU4"))%N
  /\ Home.savePlaylistEffect (VArr [track]) w = (Throw QuotaExceededError, w).
Proof.
  intros file track w.
  assert (H1 : In track [track]) by (now left).
  assert (H2 : get_prop track "url"
               = VStr "data:audio/mpeg;base64,SUQzBAAAAAAAI1RTU0UAAAAPAAADTGF2ZjU4")
    by reflexivity.
  assert (H3 : (storage_quota w
                < N.of_nat (String.length
                     "data:audio/mpeg;base64,SUQzBAAAAAAAI1RTU0UAAAAPAAADTGF2ZjU4"))%N)
    by (apply N.ltb_lt; vm_compute; reflexivity).
  split; [exact H1|]. split; [exact H2|]. split; [exact H3|].
  exact (Home_save_over_quota [track] track _ w H1 H2 H3).
Defined.



(** ** The audio graph *)

Lemma createAudioContext_cases (w : World) :
  if supports_web_audio w
  then exists ctx, AudioUtils.createAudioContext w = (Ret (Some ctx), w)
  else AudioUtils.createAudioContext w
       = (Ret None, logged "Web Audio API not supported:" w).
Proof.
  destruct w as [m q c [[a|e]|] [[a'|e']|]]; cbn; eauto.
Qed.

(** X11.  An audio element is connected once: on an element without
    a source node [connectAudioAnalyser] returns an analyser with an FFT size
    of 256 and a smoothing time constant of 0.8 and logs nothing; called
    again on the element as the first call left it, it returns [null] and
    writes one message on the console. *)
Theorem connectAudioAnalyser_once (el : AudioElement) (ctx ctx' : AudioContext)
                                  (w : World) :
  has_source el = false ->
  exists a el',
    AudioUtils.connectAudioAnalyser (Some el) (Some ctx) w
    = (Ret (Some a, Some el'), w)
    /\ configured a
    /\ has_source el' = true
    /\ AudioUtils.connectAudioAnalyser (Some el') (Some ctx') w
       = (Ret (None, Some el'), logged "Failed to connect audio analyser:" w).
Proof.
  intros Hs. destruct el as [src]. cbn in Hs. subst src.
  eexists _, _. split; [reflexivity|]. split; [split; reflexivity|].
  split; reflexivity.
Qed.

Lemma connectAudioAnalyser_once_witness :
  let w := mkWorld ∅ 5000000 [] None None in
  let el := mkAudioElement false in
  has_source el = false
  /\ fst (AudioUtils.connectAudioAnalyser (Some el) (Some (mkAudioContext Running)) w)
     = Ret (Some (mkAnalyser 256 (8 # 10)), Some (mkAudioElement true))
  /\ fst (AudioUtils.connectAudioAnalyser (Some (mkAudioElement true))
            (Some (mkAudioContext Running)) w)
     = Ret (None, Some (mkAudioElement true)).
Proof.
  intros w el. split; [reflexivity|].
  destruct (connectAudioAnalyser_once el (mkAudioContext Running)
              (mkAudioContext Running) w eq_refl) as [a [el' [H1 [_ [_ H2]]]]].
  split; [reflexivity|]. injection H1 as <- <-. now rewrite H2.
Defined.

(** X12.  [createAudioContext] followed by [connectAudioAnalyser] never
    throws.  Where an audio context can be made and the element has no source
    node yet, the page is left untouched and the analyser gives 128 bins to
    [getFrequencyData]; otherwise the analyser is [null], the element is left
    as it was, exactly one message is logged (unsupported API, or failed
    connection), and [getFrequencyData] gives the empty array, whose
    average is 0. *)
Theorem audio_graph_setup (sample : nat -> list byte) (el : AudioElement) (w : World) :
  exists ctx w1 analyser w2,
    AudioUtils.createAudioContext w = (Ret ctx, w1)
    /\ AudioUtils.connectAudioAnalyser (Some el) ctx w1
       = (Ret (analyser,
               Some (if is_Some_bool analyser then mkAudioElement true else el)), w2)
    /\ (if supports_web_audio w && negb (has_source el)
        then w2 = w
             /\ exists a, analyser = Some a /\ configured a
                          /\ AudioUtils.getFrequencyData sample analyser
                             = sample 128%nat
        else analyser = None
             /\ w2 = logged (if supports_web_audio w
                             then "Failed to connect audio analyser:"
                             else "Web Audio API not supported:") w
             /\ AudioUtils.getFrequencyData sample analyser = []
             /\ AudioUtils.getAverageFrequency
                  (Some (AudioUtils.getFrequencyData sample analyser)) = Fin 0).
Proof.
  pose proof (createAudioContext_cases w) as Hc.
  destruct (supports_web_audio w).
  - destruct Hc as [ctx Hc]. destruct el as [[]].
    + exists (Some ctx), w, None, (logged "Failed to connect audio analyser:" w).
      split; [exact Hc|]. split; [reflexivity|].
      cbn [andb negb has_source]. repeat split; reflexivity.
    + exists (Some ctx), w, (Some (mkAnalyser 256 (8 # 10))), w.
      split; [exact Hc|]. split; [reflexivity|].
      cbn [andb negb has_source]. split; [reflexivity|].
      eexists. split; [reflexivity|]. split; [split; reflexivity | reflexivity].
  - exists None, (logged "Web Audio API not supported:" w), None,
      (logged "Web Audio API not supported:" w).
    split; [exact Hc|]. split; [reflexivity|].
    cbn [andb]. repeat split; reflexivity.
Qed.

(** ** getAverageFrequency *)

Lemma average_mean (data : list byte) :
  data <> [] ->
  exists mean,
    AudioUtils.getAverageFrequency (Some data) = Fin mean
    /\ (mean == inject_Z (byte_sum data) / inject_Z (Z.of_nat (length data)))%Q.
Proof.
  intros Hne.
  assert (Hlen : (0 < length data)%nat) by (destruct data; [contradiction | simpl; lia]).
  unfold AudioUtils.getAverageFrequency.
  replace (length data =? 0)%nat with false by (symmetry; apply Nat.eqb_neq; lia).
  destruct (sum_frequencies data 0) as [s [Hs Heq]].
  change (num_of_Z 0) with (Fin 0). rewrite Hs.
  unfold js_div, num_of_Z. simpl Qnum.
  replace (Z.of_nat (length data) =? 0) with false by (symmetry; apply Z.eqb_neq; lia).
  eexists; split; [reflexivity|].
  rewrite Qred_correct, Heq. field.
  intros H. unfold inject_Z, Qeq in H. simpl in H. lia.
Qed.

Lemma byte_sum_between (data : list byte) (lo hi : Z) :
  Forall (fun b => lo <= Z.of_N (Byte.to_N b) <= hi) data ->
  lo * Z.of_nat (length data) <= byte_sum data <= hi * Z.of_nat (length data).
Proof.
  induction 1 as [|b data Hb _ IH]; [simpl; lia|].
  cbn [byte_sum fold_right length]. fold (byte_sum data). lia.
Qed.

(** X13.  For a non-empty array whose bytes all lie between [lo] and
    [hi], [getAverageFrequency] returns a finite number between [lo] and
    [hi]. *)
Theorem average_between_extremes (data : list byte) (lo hi : Z) :
  data <> [] ->
  Forall (fun b => lo <= Z.of_N (Byte.to_N b) <= hi) data ->
  exists mean,
    AudioUtils.getAverageFrequency (Some data) = Fin mean
    /\ (inject_Z lo <= mean)%Q /\ (mean <= inject_Z hi)%Q.
Proof.
  intros Hne Hall. destruct (average_mean data Hne) as [mean [Hm Heq]].
  exists mean. split; [exact Hm|]. rewrite Heq.
  pose proof (byte_sum_between data lo hi Hall) as [Hlo Hhi].
  assert (Hlen : (0 < length data)%nat) by (destruct data; [contradiction | simpl; lia]).
  assert (Hpos : (0 < inject_Z (Z.of_nat (length data)))%Q).
  { unfold Qlt, inject_Z; simpl. lia. }
  split.
  - apply Qle_shift_div_l; [exact Hpos|].
    unfold Qle, Qmult, inject_Z; cbn [Qnum Qden Pos.mul]. lia.
  - apply Qle_shift_div_r; [exact Hpos|].
    unfold Qle, Qmult, inject_Z; cbn [Qnum Qden Pos.mul]. lia.
Qed.

Lemma average_between_extremes_witness :
  let data := [Byte.x10; Byte.x20; Byte.x18] in
  data <> []
  /\ Forall (fun b => 16 <= Z.of_N (Byte.to_N b) <= 32) data
  /\ exists mean,
       AudioUtils.getAverageFrequency (Some data) = Fin mean
       /\ (inject_Z 16 <= mean)%Q /\ (mean <= inject_Z 32)%Q.
Proof.
  intros data.
  assert (H1 : data <> []) by discriminate.
  assert (H2 : Forall (fun b => 16 <= Z.of_N (Byte.to_N b) <= 32) data).
  { repeat constructor; discriminate. }
  split; [exact H1|]. split; [exact H2|].
  exact (average_between_extremes data 16 32 H1 H2).
Defined.

(** ** formatTime *)

Lemma digits_colon (a b x y : string) :
  all_digits a = true -> all_digits b = true ->
  a +:+ String ":" x = b +:+ String ":" y -> a = b /\ x = y.
Proof.
  revert b. induction a as [|c a IH]; intros [|d b] Ha Hb H; cbn in H.
  - injection H as <-. now split.
  - injection H as <- _. rewrite all_digits_cons in Hb. discriminate Hb.
  - injection H as -> _. rewrite all_digits_cons in Ha. discriminate Ha.
  - injection H as <- H. rewrite all_digits_cons in Ha, Hb.
    apply andb_true_iff in Ha as [_ Ha]. apply andb_true_iff in Hb as [_ Hb].
    destruct (IH b Ha Hb H) as [<- <-]. now split.
Qed.

Lemma two_digits_inj (r1 r2 : Z) :
  0 <= r1 < 60 -> 0 <= r2 < 60 -> two_digits r1 = two_digits r2 -> r1 = r2.
Proof.
  intros H1 H2 H. unfold two_digits in H. injection H as Ha Hb.
  apply (f_equal digit_val) in Ha, Hb.
  rewrite !digit_val_digit_char in Ha, Hb;
    try (split; [apply Z.div_pos; lia | apply Z.div_lt_upper_bound; lia]);
    try (apply Z.mod_pos_bound; lia).
  rewrite (Z.div_mod r1 10), (Z.div_mod r2 10) by lia. congruence.
Qed.

Lemma clock_whole_seconds (s1 s2 : Q) :
  (0 <= s1)%Q -> (0 <= s2)%Q ->
  clock s1 = clock s2 <-> Qfloor s1 = Qfloor s2.
Proof.
  intros H1 H2. unfold clock. split.
  - intros H.
    destruct (digits_spec (minutes_of s1) (minutes_nonneg s1 H1)) as [Ha [Hva _]].
    destruct (digits_spec (minutes_of s2) (minutes_nonneg s2 H2)) as [Hb [Hvb _]].
    apply (digits_colon _ _ _ _ Ha Hb) in H as [Hm Hs].
    apply two_digits_inj in Hs; try apply seconds_range.
    assert (Hmin : minutes_of s1 = minutes_of s2) by congruence.
    rewrite !minutes_of_div in Hmin. rewrite !seconds_of_mod in Hs.
    rewrite (Z.div_mod (Qfloor s1) 60), (Z.div_mod (Qfloor s2) 60) by lia.
    congruence.
  - intros H. rewrite !minutes_of_div, !seconds_of_mod. now rewrite H.
Qed.

(** X14.  For finite non-negative times, each of the three [formatTime]
    functions shows two times alike exactly when they have the same number
    of whole seconds. *)
Theorem formatTime_whole_seconds (s1 s2 : Q) :
  (0 <= s1)%Q -> (0 <= s2)%Q ->
  (AudioUtils.formatTime (Some (Fin s1)) = AudioUtils.formatTime (Some (Fin s2))
   <-> Qfloor s1 = Qfloor s2)
  /\ (Home.formatTime (Some (Fin s1)) = Home.formatTime (Some (Fin s2))
      <-> Qfloor s1 = Qfloor s2)
  /\ (MusicPlayer.formatTime (Some (Fin s1)) = MusicPlayer.formatTime (Some (Fin s2))
      <-> Qfloor s1 = Qfloor s2).
Proof.
  intros H1 H2.
  destruct (formatTime_finite s1 H1) as [-> [-> ->]].
  destruct (formatTime_finite s2 H2) as [-> [-> ->]].
  pose proof (clock_whole_seconds s1 s2 H1 H2) as H.
  split; [exact H | split; exact H].
Qed.

Lemma formatTime_whole_seconds_witness :
  (0 <= 125 # 2)%Q /\ (0 <= 629 # 10)%Q
  /\ AudioUtils.formatTime (Some (Fin (125 # 2)))
     = AudioUtils.formatTime (Some (Fin (629 # 10))).
Proof.
  assert (H1 : (0 <= 125 # 2)%Q) by discriminate.
  assert (H2 : (0 <= 629 # 10)%Q) by discriminate.
  split; [exact H1|]. split; [exact H2|].
  apply (proj1 (formatTime_whole_seconds (125 # 2) (629 # 10) H1 H2)).
  reflexivity.
Defined.

(** ** The name of a track *)

(** X15.  The name that [getAudioMetadata] gives: when the file name ends
    in a dot followed by one or more units that are neither dots nor
    slashes, that ending is removed and the rest is kept; a name with no
    such ending is kept as it is. *)
Theorem remove_extension_cases (name : string) :
  (exists base e,
      name = base +:+ String "." e /\ e <> ""%string /\ no_dot_slash e = true
      /\ AudioUtils.remove_extension name = base)
  \/ ((forall base e, name = base +:+ String "." e -> e <> ""%string ->
                      no_dot_slash e = false)
      /\ AudioUtils.remove_extension name = name).
Proof.
  induction name as [|c r IH].
  - right. split; [|reflexivity]. intros [|x base] e H; discriminate H.
  - cbn [AudioUtils.remove_extension].
    destruct (Ascii.eqb c "." && negb (String.eqb r "")
              && forallb (fun x => negb (Ascii.eqb x "/" || Ascii.eqb x "."))
                         (list_ascii_of_string r)) eqn:G.
    + left. apply andb_true_iff in G as [G G3]. apply andb_true_iff in G as [G1 G2].
      apply Ascii.eqb_eq in G1. subst c.
      exists ""%string, r. split; [reflexivity|]. split; [|split; [exact G3 | reflexivity]].
      intros ->. discriminate G2.
    + destruct IH as [[base [e [-> [He [Hok Hr]]]]] | [Hno Hr]].
      * left. exists (String c base), e. rewrite Hr. now repeat split.
      * right. rewrite Hr. split; [|reflexivity].
        intros [|x base] e H He; cbn in H.
        -- injection H as -> <-. rewrite Ascii.eqb_refl in G. cbn [andb] in G.
           destruct (String.eqb_spec r "") as [->|_]; [now contradiction He|].
           exact G.
        -- injection H as _ H. exact (Hno base e H He).
Qed.

(** ** The page: uploads *)


Lemma last_cons_default {A : Type} (x d : A) (l : list A) :
  List.last (x :: l) d = List.last l x.
Proof.
  revert x d. induction l as [|y l IH]; intros x d; [reflexivity|].
  change (List.last (x :: y :: l) d) with (List.last (y :: l) d).
  now rewrite !IH.
Qed.




(** ** The page: starting playback *)

Lemma find_frame_requested (id : nat) (l : list (nat * unit)) :
  find_frame id (l ++ [(id, tt)]) = Some tt.
Proof.
  induction l as [|[i []] l IH]; cbn [app find_frame].
  - now rewrite Nat.eqb_refl.
  - destruct (i =? id)%nat; [reflexivity | exact IH].
Qed.

Lemma Home_updateVisualization_frame (s : Home.State) :
  exists s',
    Home.updateVisualization s = (Ret tt, s')
    /\ Home.animationRef s' = Some (next_id (Home.frames s))
    /\ pending (Home.frames s') = pending (Home.frames s) ++ [(next_id (Home.frames s), tt)]
    /\ Home.audioContextRef s' = Home.audioContextRef s
    /\ Home.isPlaying s' = Home.isPlaying s.
Proof.
  destruct s as [ct ip pl ar acr anr dar anim [pend next] rd w].
  unfold Home.updateVisualization, Home.requestAnimationFrame, request_frame,
    bind, get, modify, ret.
  destruct anr as [a|]; [destruct dar as [n|]|]; cbn;
    eexists; (split; [reflexivity|]); cbn; repeat split.
Qed.

Lemma Home_initializeAudioContext_ok (s : Home.State) :
  match Home.initializeAudioContext s with
  | (Ret _, s') =>
      (Home.audioRef s <> None -> Home.audioContextRef s' <> None)
      /\ Home.frames s' = Home.frames s /\ Home.reads s' = Home.reads s
      /\ Home.isPlaying s' = Home.isPlaying s
  | (Throw _, s') =>
      Home.frames s' = Home.frames s /\ Home.reads s' = Home.reads s
      /\ Home.isPlaying s' = Home.isPlaying s
  end.
Proof.
  destruct s as [ct ip pl ar acr anr dar anim fr rd w].
  unfold Home.initializeAudioContext, new_AudioContext, createMediaElementSource,
    bind, get, modify, ret, throw.
  destruct acr as [ctx|]; [cbn; repeat split; discriminate|].
  destruct ar as [[src]|]; [|cbn; repeat split; intros H; now contradiction H].
  cbn.
  destruct (window_AudioContext w) as [[c|e]|];
    [| | destruct (window_webkitAudioContext w) as [[c|e]|]];
    destruct src; cbn; repeat split; discriminate.
Qed.

Lemma Home_resume_keeps (s : Home.State) :
  exists s',
    Home.resume_if_suspended s = (Ret tt, s')
    /\ Home.frames s' = Home.frames s /\ Home.reads s' = Home.reads s
    /\ Home.isPlaying s' = Home.isPlaying s /\ Home.audioRef s' = Home.audioRef s
    /\ (Home.audioContextRef s <> None -> Home.audioContextRef s' <> None).
Proof.
  destruct s as [ct ip pl ar acr anr dar anim fr rd w].
  unfold Home.resume_if_suspended, modify.
  destruct acr as [[[]]|]; cbn; eexists; (split; [reflexivity|]); cbn;
    repeat split; auto; discriminate.
Qed.

(** X17.  A click on play while the page is paused: [isPlaying] becomes
    true only when a track is selected, the page is mounted, an audio
    context exists and [play()] has resolved, and then the frame that
    [animationRef] names is pending; when [isPlaying] stays false, no frame
    has been requested and no sample read. *)
Theorem Home_play_click (s : Home.State) (play : outcome unit) :
  Home.isPlaying s = false ->
  let s' := Home.step s (Home.PlayPauseClick play) in
  (Home.isPlaying s' = true ->
   play = Ret tt
   /\ truthy (Home.currentTrack s) = true
   /\ Home.audioRef s <> None
   /\ Home.audioContextRef s' <> None
   /\ exists id, Home.animationRef s' = Some id
                 /\ find_frame id (pending (Home.frames s')) = Some tt)
  /\ (Home.isPlaying s' = false ->
      Home.frames s' = Home.frames s /\ Home.reads s' = Home.reads s).
Proof.
  intros Hp s'.
  assert (Es : s' = Home.step s (Home.PlayPauseClick play)) by reflexivity.
  clearbody s'. cbn [Home.step] in Es.
  destruct (is_Some_bool (Home.audioRef s)) eqn:Em;
    [|subst s'; rewrite Hp; split; [discriminate | now split]].
  assert (Hm : Home.audioRef s <> None)
    by (destruct (Home.audioRef s); [discriminate | discriminate Em]).
  unfold Home.togglePlayPause in Es. unfold bind at 1, get at 1 in Es.
  rewrite Em, Hp in Es. cbn [negb orb] in Es.
  destruct (truthy (Home.currentTrack s)) eqn:Et; cbn [negb orb] in Es;
    [|subst s'; cbn [snd ret]; rewrite Hp; split; [discriminate | now split]].
  destruct (Home_resume_keeps s) as [s1 [E1 [F1 [R1 [P1 [A1 C1]]]]]].
  unfold try_catch, bind at 1, bind at 1 in Es. rewrite E1 in Es.
  pose proof (Home_initializeAudioContext_ok s1) as H2.
  unfold bind at 1 in Es.
  destruct (Home.initializeAudioContext s1) as [[[]|e] s2].
  - destruct H2 as [C2 [F2 [R2 P2]]].
    unfold bind at 1, lift in Es.
    destruct play as [[]|e].
    + destruct (Home_updateVisualization_frame s2) as [s3 [E3 [N3 [F3 [C3 P3]]]]].
      rewrite E3 in Es. unfold bind, modify in Es. cbn [snd] in Es.
      split.
      * intros _. split; [reflexivity|]. split; [reflexivity|]. split; [exact Hm|].
        split; [subst s'; destruct s3; cbn in *; rewrite C3; apply C2; congruence|].
        exists (next_id (Home.frames s2)).
        split; [subst s'; destruct s3; exact N3|].
        replace (pending (Home.frames s')) with (pending (Home.frames s3))
          by (subst s'; now destruct s3).
        rewrite F3. apply find_frame_requested.
      * subst s'. destruct s3; cbn. discriminate.
    + unfold Home.in_world, console_error, modify in Es. cbn [snd] in Es.
      assert (Hs : Home.isPlaying s' = false /\ Home.frames s' = Home.frames s2
                   /\ Home.reads s' = Home.reads s2)
        by (subst s'; destruct s2; cbn in *; repeat split; congruence).
      destruct Hs as [Hs1 [Hs2 Hs3]].
      split; [rewrite Hs1; discriminate|]. intros _. split; congruence.
  - destruct H2 as [F2 [R2 P2]].
    unfold Home.in_world, console_error, modify in Es. cbn [snd] in Es.
    assert (Hs : Home.isPlaying s' = false /\ Home.frames s' = Home.frames s2
                 /\ Home.reads s' = Home.reads s2)
      by (subst s'; destruct s2; cbn in *; repeat split; congruence).
    destruct Hs as [Hs1 [Hs2 Hs3]].
    split; [rewrite Hs1; discriminate|]. intros _. split; congruence.
Qed.

Lemma Home_play_click_witness :
  let w := mkWorld ∅ 5000000 [] (Some (Constructs (mkAudioContext Running))) None in
  let s := Home.step (Home.init w)
             (Home.FileLoaded VNull 1700000000000 (1 # 2)
                "data:audio/mpeg;base64,SUQz" (mkFile "song.mp3" "audio/mpeg" 4096)) in
  Home.isPlaying s = false
  /\ Home.frames (Home.step s (Home.PlayPauseClick (Throw NotSupportedError)))
     = Home.frames s.
Proof.
  intros w s.
  assert (H : Home.isPlaying s = false) by reflexivity.
  split; [exact H|].
  apply (Home_play_click s (Throw NotSupportedError) H). reflexivity.
Defined.

(** ** The page where no audio context can be made *)

Lemma Home_silent_step (s : Home.State) (e : Home.event) :
  Home_silent s -> Home_silent (Home.step s e).
Proof.
  destruct s as [ct ip pl ar acr anr dar anim [pend next] rd w].
  unfold Home_silent at 1. cbn [Home.isPlaying Home.audioContextRef Home.analyserRef
    Home.animationRef Home.frames Home.reads Home.world pending].
  intros (-> & -> & -> & -> & -> & -> & Hw).
  remember (Home.step _ e) as s' eqn:Es.
  destruct e as [captured now random result file|track|play| |id|]; cbn [Home.step] in Es.
  - destruct ar; cbn [is_Some_bool Home.audioRef] in Es; [|subst s'; now repeat split].
    unfold Home.reader_onload, bind, modify, ret in Es.
    destruct (truthy captured); subst s'; cbn; now repeat split.
  - destruct ar; subst s'; cbn; now repeat split.
  - destruct ar as [el|]; cbn [is_Some_bool Home.audioRef] in Es;
      [|subst s'; now repeat split].
    unfold Home.togglePlayPause in Es. unfold bind at 1, get at 1 in Es.
    cbn [Home.currentTrack Home.audioRef Home.isPlaying is_Some_bool negb orb] in Es.
    destruct (truthy ct); cbn [negb orb] in Es; [|subst s'; cbn; now repeat split].
    unfold supports_web_audio in Hw.
    unfold try_catch, Home.resume_if_suspended, Home.initializeAudioContext,
      new_AudioContext, Home.in_world, console_error, bind, get, modify, ret, throw
      in Es.
    cbn in Es.
    destruct (window_AudioContext w) as [[c|e]|] eqn:Ea; try discriminate Hw;
      [|destruct (window_webkitAudioContext w) as [[c|e]|] eqn:Eb;
        try discriminate Hw];
      subst s'; cbn; repeat split; unfold supports_web_audio; cbn;
      now rewrite Ea, ?Eb.
  - destruct ar; subst s'; cbn; now repeat split.
  - subst s'. now repeat split.
  - subst s'. now repeat split.
Qed.

(** X18.  Where no audio context can be made (no constructor, or a
    constructor that throws), the page never starts playing: whatever the
    events, [isPlaying] stays false, no audio context is kept, no frame is
    pending and no sample is read. *)
Theorem Home_without_web_audio (w : World) (evs : list Home.event) :
  supports_web_audio w = false ->
  let s := Home.run (Home.init w) evs in
  Home.isPlaying s = false
  /\ pending (Home.frames s) = []
  /\ Home.reads s = []
  /\ Home.audioContextRef s = None.
Proof.
  intros Hw.
  assert (Hinv : forall s, Home_silent s -> Home_silent (Home.run s evs)).
  { induction evs as [|e evs IH]; intros s H; [exact H|].
    apply IH. now apply Home_silent_step. }
  destruct (Hinv (Home.init w)) as (H1 & H2 & _ & _ & H5 & H6 & _);
    [now repeat split|].
  now repeat split.
Qed.

Lemma Home_without_web_audio_witness :
  let w := mkWorld ∅ 5000000 [] None None in
  let s := Home.run (Home.init w)
             [Home.FileLoaded VNull 1700000000000 (1 # 2)
                "data:audio/mpeg;base64,SUQz" (mkFile "song.mp3" "audio/mpeg" 4096);
              Home.PlayPauseClick (Ret tt)] in
  supports_web_audio w = false
  /\ Home.isPlaying s = false
  /\ console (Home.world s) = ["Error playing audio:"%string].
Proof.
  intros w s.
  assert (H : supports_web_audio w = false) by reflexivity.
  split; [exact H|].
  split; [exact (proj1 (Home_without_web_audio w _ H)) | reflexivity].
Defined.

(** ** The page: pausing and the end of a track *)

Lemma cancel_frame_all (id : nat) (q : FrameQueue unit) :
  (forall f, In f (pending q) -> fst f = id) -> pending (cancel_frame id q) = [].
Proof.
  destruct q as [pend next]. cbn [pending cancel_frame]. intros H.
  induction pend as [|f pend IH]; [reflexivity|].
  cbn [List.filter]. rewrite (H f (or_introl eq_refl)), Nat.eqb_refl. cbn [negb].
  apply IH. intros g Hg. apply H. now right.
Qed.

Lemma Home_cancel_named (s : Home.State) (id : nat) :
  Home.animationRef s = Some id -> id <> 0%nat ->
  (forall f, In f (pending (Home.frames s)) -> fst f = id) ->
  exists s', Home.cancel_pending s = (Ret tt, s')
             /\ pending (Home.frames s') = []
             /\ Home.isPlaying s' = Home.isPlaying s.
Proof.
  intros Ha Hid Hp.
  unfold Home.cancel_pending, Home.cancelAnimationFrame, bind, get, modify, ret.
  rewrite Ha. apply Nat.eqb_neq in Hid. rewrite Hid.
  eexists. split; [reflexivity|]. destruct s; cbn in *.
  split; [now apply cancel_frame_all | reflexivity].
Qed.

(** X19.  When the frame that [animationRef] names is the only one
    pending on the mounted page, a click on pause and the end of the track
    both cancel it: no frame is pending afterwards and [isPlaying] is
    false. *)
Theorem Home_pause_cancels (s : Home.State) (id : nat) (play : outcome unit) :
  Home.audioRef s <> None ->
  Home.animationRef s = Some id -> id <> 0%nat ->
  (forall f, In f (pending (Home.frames s)) -> fst f = id) ->
  (Home.isPlaying s = true -> truthy (Home.currentTrack s) = true ->
   pending (Home.frames (Home.step s (Home.PlayPauseClick play))) = []
   /\ Home.isPlaying (Home.step s (Home.PlayPauseClick play)) = false)
  /\ pending (Home.frames (Home.step s Home.AudioEnded)) = []
  /\ Home.isPlaying (Home.step s Home.AudioEnded) = false.
Proof.
  intros Hm Ha Hid Hp.
  assert (Em : is_Some_bool (Home.audioRef s) = true)
    by (destruct (Home.audioRef s); [reflexivity | contradiction]).
  split.
  - intros Hplay Ht.
    remember (Home.step s (Home.PlayPauseClick play)) as s' eqn:Es.
    cbn [Home.step] in Es. rewrite Em in Es.
    unfold Home.togglePlayPause in Es. unfold bind at 1, get at 1 in Es.
    rewrite Em, Ht, Hplay in Es. cbn [negb orb] in Es.
    destruct (Home_cancel_named s id Ha Hid Hp) as [s1 [E1 [P1 I1]]].
    unfold try_catch, bind in Es. rewrite E1 in Es. unfold modify in Es.
    cbn [snd] in Es. subst s'. destruct s1; cbn in *. now split.
  - remember (Home.step s Home.AudioEnded) as s' eqn:Es.
    cbn [Home.step] in Es. rewrite Em in Es.
    unfold Home.handleEnded in Es. unfold bind at 1, modify at 1 in Es.
    destruct (Home_cancel_named (Home.set_isPlaying false s) id) as [s1 [E1 [P1 I1]]];
      try (destruct s; assumption).
    rewrite E1 in Es. cbn [snd] in Es. subst s'.
    split; [exact P1|]. rewrite I1. now destruct s.
Qed.

Lemma Home_pause_cancels_witness :
  let w := mkWorld ∅ 5000000 [] (Some (Constructs (mkAudioContext Running))) None in
  let s := Home.run (Home.init w)
             [Home.FileLoaded VNull 1700000000000 (1 # 2)
                "data:audio/mpeg;base64,SUQz" (mkFile "song.mp3" "audio/mpeg" 4096);
              Home.PlayPauseClick (Ret tt);
              Home.AnimationFrame 1] in
  Home.audioRef s <> None /\ Home.animationRef s = Some 2%nat /\ 2%nat <> 0%nat
  /\ (forall f, In f (pending (Home.frames s)) -> fst f = 2%nat)
  /\ pending (Home.frames (Home.step s Home.AudioEnded)) = []
  /\ Home.isPlaying (Home.step s Home.AudioEnded) = false.
Proof.
  intros w s.
  assert (H1 : Home.audioRef s <> None) by discriminate.
  assert (H2 : Home.animationRef s = Some 2%nat) by reflexivity.
  assert (H3 : 2%nat <> 0%nat) by discriminate.
  assert (H4 : forall f, In f (pending (Home.frames s)) -> fst f = 2%nat).
  { intros f [<-|[]]. reflexivity. }
  split; [exact H1|]. split; [exact H2|]. split; [exact H3|]. split; [exact H4|].
  exact (proj2 (Home_pause_cancels s 2 (Ret tt) H1 H2 H3 H4)).
Defined.

(** ** MusicPlayer: moving through the playlist *)

Lemma at_index_track (l : list MusicPlayer.Track) (i : Z) :
  0 <= i < Z.of_nat (length l) ->
  exists t, MusicPlayer.at_index l i = VObj t /\ nth_error l (Z.to_nat i) = Some t.
Proof.
  intros Hi. unfold MusicPlayer.at_index.
  destruct (Z.ltb_spec i 0); [lia|].
  destruct (nth_error l (Z.to_nat i)) as [t|] eqn:E; [eauto|].
  apply nth_error_None in E. lia.
Qed.

(** X20.  [handleNext] and [handlePrevious] call [onTrackChange] with a
    track of the playlist, never with [undefined], whatever the current
    track is; for a missing or empty playlist they do not call it. *)
Theorem skip_gives_a_track (playlist : option (list MusicPlayer.Track))
                           (currentTrack : value) :
  match playlist with
  | Some (t :: l) =>
      exists next prev,
        MusicPlayer.handleNext playlist currentTrack = Some (VObj next)
        /\ In next (t :: l)
        /\ MusicPlayer.handlePrevious playlist currentTrack = Some (VObj prev)
        /\ In prev (t :: l)
  | _ =>
      MusicPlayer.handleNext playlist currentTrack = None
      /\ MusicPlayer.handlePrevious playlist currentTrack = None
  end.
Proof.
  destruct playlist as [[|t l]|]; [split; reflexivity| |split; reflexivity].
  set (pl := t :: l).
  unfold MusicPlayer.handleNext, MusicPlayer.handlePrevious.
  change (length pl =? 0)%nat with false. cbv iota.
  set (p := fun track => strict_eq _ _).
  pose proof (findIndex_range p pl) as Hr.
  assert (Hn : 0 < Z.of_nat (length pl)) by (subst pl; cbn [length]; lia).
  destruct (at_index_track pl
              (if MusicPlayer.findIndex p pl <? Z.of_nat (length pl) - 1
               then MusicPlayer.findIndex p pl + 1 else 0)) as [next [En Hn']].
  { destruct (Z.ltb_spec (MusicPlayer.findIndex p pl) (Z.of_nat (length pl) - 1)); lia. }
  destruct (at_index_track pl
              (if MusicPlayer.findIndex p pl >? 0
               then MusicPlayer.findIndex p pl - 1 else Z.of_nat (length pl) - 1))
    as [prev [Ep Hp']].
  { rewrite Z.gtb_ltb. destruct (Z.ltb_spec 0 (MusicPlayer.findIndex p pl)); lia. }
  exists next, prev. rewrite En, Ep.
  split; [reflexivity|]. split; [exact (nth_error_In _ _ Hn')|].
  split; [reflexivity | exact (nth_error_In _ _ Hp')].
Qed.

Lemma findIndex_distinct (playlist : list MusicPlayer.Track) (i : nat)
                         (t : MusicPlayer.Track) :
  distinct_ids playlist -> nth_error playlist i = Some t ->
  MusicPlayer.findIndex
    (fun track => strict_eq (MusicPlayer.track_prop track "id")
                            (get_prop (VObj t) "id")) playlist
  = Z.of_nat i.
Proof.
  intros Hd Hi. apply (findIndex_first _ playlist i t Hi).
  - apply (Hd i i t t Hi Hi). reflexivity.
  - intros j t' Hj Hj'.
    destruct (strict_eq (MusicPlayer.track_prop t' "id") (get_prop (VObj t) "id")) eqn:E;
      [|reflexivity].
    apply (Hd j i t' t Hj' Hi) in E. lia.
Qed.

(** The track after and the track before the one at index [i]. *)
Lemma skip_from_index (playlist : list MusicPlayer.Track) (i : nat)
                      (t : MusicPlayer.Track) :
  distinct_ids playlist -> nth_error playlist i = Some t ->
  let n := length playlist in
  exists next prev,
    nth_error playlist ((i + 1) mod n) = Some next
    /\ MusicPlayer.handleNext (Some playlist) (VObj t) = Some (VObj next)
    /\ nth_error playlist ((i + n - 1) mod n) = Some prev
    /\ MusicPlayer.handlePrevious (Some playlist) (VObj t) = Some (VObj prev).
Proof.
  intros Hd Hi n.
  assert (Hin : (i < n)%nat).
  { subst n. apply nth_error_Some. rewrite Hi. discriminate. }
  assert (Hnth : forall k, (k < n)%nat -> exists t, nth_error playlist k = Some t).
  { intros k Hk. destruct (nth_error playlist k) eqn:E; [eauto|].
    apply nth_error_None in E. subst n. lia. }
  destruct (Hnth ((i + 1) mod n)%nat) as [next Hnext];
    [apply Nat.mod_upper_bound; lia|].
  destruct (Hnth ((i + n - 1) mod n)%nat) as [prev Hprev];
    [apply Nat.mod_upper_bound; lia|].
  exists next, prev. split; [exact Hnext|]. split; [|split; [exact Hprev|]].
  - unfold MusicPlayer.handleNext.
    replace (length playlist =? 0)%nat with false
      by (symmetry; apply Nat.eqb_neq; subst n; lia).
    rewrite (findIndex_distinct playlist i t Hd Hi). fold n. f_equal.
    destruct (Z.ltb_spec (Z.of_nat i) (Z.of_nat n - 1)).
    + replace (Z.of_nat i + 1) with (Z.of_nat (i + 1)) by lia.
      rewrite at_index_nth. rewrite Nat.mod_small in Hnext by lia.
      now rewrite Hnext.
    + replace (i + 1)%nat with n in Hnext by lia.
      rewrite Nat.Div0.mod_same in Hnext.
      change 0 with (Z.of_nat 0). rewrite at_index_nth. now rewrite Hnext.
  - unfold MusicPlayer.handlePrevious.
    replace (length playlist =? 0)%nat with false
      by (symmetry; apply Nat.eqb_neq; subst n; lia).
    rewrite (findIndex_distinct playlist i t Hd Hi). fold n. f_equal.
    rewrite Z.gtb_ltb. destruct (Z.ltb_spec 0 (Z.of_nat i)).
    + replace (Z.of_nat i - 1) with (Z.of_nat (i - 1)) by lia.
      rewrite at_index_nth.
      replace (i + n - 1)%nat with ((i - 1) + 1 * n)%nat in Hprev by lia.
      rewrite Nat.Div0.mod_add, Nat.mod_small in Hprev by lia.
      now rewrite Hprev.
    + replace (Z.of_nat n - 1) with (Z.of_nat (n - 1)) by lia.
      rewrite at_index_nth.
      replace (i + n - 1)%nat with (n - 1)%nat in Hprev by lia.
      rewrite Nat.mod_small in Hprev by lia. now rewrite Hprev.
Qed.

(** X21.  In a playlist whose ids tell its tracks apart,
    [handleNext] and [handlePrevious] undo each other: the track before the
    track after a track of the playlist is that track, and the track after
    the track before it too. *)
Theorem next_previous_inverse (playlist : list MusicPlayer.Track)
                              (t : MusicPlayer.Track) :
  distinct_ids playlist -> In t playlist ->
  exists next prev,
    MusicPlayer.handleNext (Some playlist) (VObj t) = Some (VObj next)
    /\ MusicPlayer.handlePrevious (Some playlist) (VObj next) = Some (VObj t)
    /\ MusicPlayer.handlePrevious (Some playlist) (VObj t) = Some (VObj prev)
    /\ MusicPlayer.handleNext (Some playlist) (VObj prev) = Some (VObj t).
Proof.
  intros Hd Hin. apply In_nth_error in Hin as [i Hi].
  set (n := length playlist).
  assert (Hlt : (i < n)%nat).
  { subst n. apply nth_error_Some. rewrite Hi. discriminate. }
  destruct (skip_from_index playlist i t Hd Hi)
    as [next [prev [Hnext [En [Hprev Ep]]]]].
  fold n in Hnext, Hprev.
  exists next, prev. split; [exact En|]. split; [|split; [exact Ep|]].
  - destruct (skip_from_index playlist _ next Hd Hnext) as [_ [back [_ [_ [Hb Eb]]]]].
    fold n in Hb. rewrite Eb. do 2 f_equal.
    replace (((i + 1) mod n + n - 1) mod n)%nat with i in Hb; [congruence|].
    destruct (Nat.eq_dec (i + 1)%nat n) as [E|E].
    + rewrite E, Nat.Div0.mod_same. rewrite Nat.mod_small; lia.
    + rewrite (Nat.mod_small (i + 1)) by lia.
      replace (i + 1 + n - 1)%nat with (i + 1 * n)%nat by lia.
      rewrite Nat.Div0.mod_add, Nat.mod_small; lia.
  - destruct (skip_from_index playlist _ prev Hd Hprev) as [forth [_ [Hf [Ef _]]]].
    fold n in Hf. rewrite Ef. do 2 f_equal.
    replace (((i + n - 1) mod n + 1) mod n)%nat with i in Hf; [congruence|].
    rewrite Nat.Div0.add_mod_idemp_l.
    replace (i + n - 1 + 1)%nat with (i + 1 * n)%nat by lia.
    rewrite Nat.Div0.mod_add, Nat.mod_small; lia.
Qed.

Lemma next_previous_inverse_witness :
  let track := fun i : Z => [("id", VNum (num_of_Z i))]%string in
  let playlist := [track 10; track 20; track 30] in
  distinct_ids playlist /\ In (track 30) playlist
  /\ exists next prev,
       MusicPlayer.handleNext (Some playlist) (VObj (track 30)) = Some (VObj next)
       /\ MusicPlayer.handlePrevious (Some playlist) (VObj next) = Some (VObj (track 30))
       /\ MusicPlayer.handlePrevious (Some playlist) (VObj (track 30)) = Some (VObj prev)
       /\ MusicPlayer.handleNext (Some playlist) (VObj prev) = Some (VObj (track 30)).
Proof.
  intros track playlist.
  assert (Hd : distinct_ids playlist).
  { intros i j a b Hi Hj.
    destruct i as [|[|[|i]]]; try (destruct i; discriminate Hi);
      destruct j as [|[|[|j]]]; try (destruct j; discriminate Hj);
      injection Hi as <-; injection Hj as <-; split; intros H;
      try reflexivity; try discriminate H. }
  assert (Hin : In (track 30) playlist) by (right; right; now left).
  split; [exact Hd|]. split; [exact Hin|].
  exact (next_previous_inverse playlist (track 30) Hd Hin).
Defined.

(** X22.  In a playlist of [n] tracks whose ids tell them apart, [k]
    calls of [handleNext] in a row, from the track at index [i], lead to the
    track at index [(i + k) mod n]; [n] calls lead back to the track they
    started from. *)
Theorem next_cycles (playlist : list MusicPlayer.Track) (i k : nat)
                    (t : MusicPlayer.Track) :
  distinct_ids playlist -> nth_error playlist i = Some t ->
  (exists track,
      nth_error playlist ((i + k) mod length playlist) = Some track
      /\ next_times playlist k (VObj t) = Some (VObj track))
  /\ next_times playlist (length playlist) (VObj t) = Some (VObj t).
Proof.
  intros Hd Hi.
  set (n := length playlist).
  assert (Hlt : (i < n)%nat).
  { subst n. apply nth_error_Some. rewrite Hi. discriminate. }
  assert (Hk : forall k, exists track,
               nth_error playlist ((i + k) mod n) = Some track
               /\ next_times playlist k (VObj t) = Some (VObj track)).
  { clear k. induction k as [|k [track [Hnth Hk]]].
    - exists t. rewrite Nat.add_0_r, Nat.mod_small by lia. now split.
    - destruct (skip_from_index playlist _ track Hd Hnth) as [next [_ [Hnext [En _]]]].
      fold n in Hnext. exists next. cbn [next_times]. rewrite Hk, En.
      split; [|reflexivity].
      rewrite Nat.Div0.add_mod_idemp_l in Hnext.
      now replace (i + S k)%nat with (i + k + 1)%nat by lia. }
  split; [apply Hk|].
  destruct (Hk n) as [track [Hnth Hn]]. rewrite Hn.
  replace (i + n)%nat with (i + 1 * n)%nat in Hnth by lia.
  rewrite Nat.Div0.mod_add, Nat.mod_small in Hnth by lia. congruence.
Qed.

Lemma next_cycles_witness :
  let track := fun i : Z => [("id", VNum (num_of_Z i))]%string in
  let playlist := [track 10; track 20; track 30] in
  distinct_ids playlist /\ nth_error playlist 1 = Some (track 20)
  /\ next_times playlist 3 (VObj (track 20)) = Some (VObj (track 20)).
Proof.
  intros track playlist.
  assert (Hd : distinct_ids playlist).
  { intros i j a b Hi Hj.
    destruct i as [|[|[|i]]]; try (destruct i; discriminate Hi);
      destruct j as [|[|[|j]]]; try (destruct j; discriminate Hj);
      injection Hi as <-; injection Hj as <-; split; intros H;
      try reflexivity; try discriminate H. }
  split; [exact Hd|]. split; [reflexivity|].
  exact (proj2 (next_cycles playlist 1 3 (track 20) Hd eq_refl)).
Defined.

(** ** MusicPlayer: the end of a track *)

Lemma MusicPlayer_same_track_renders (track : value)
                                     (later : list (option (list MusicPlayer.Track))) :
  forall s,
    MusicPlayerEvents.currentTrack s = track ->
    let s' := MusicPlayerEvents.run s
                (map (fun l => MusicPlayerEvents.Render track l true) later) in
    MusicPlayerEvents.currentTrack s' = track
    /\ MusicPlayerEvents.listeners s' = MusicPlayerEvents.listeners s
    /\ MusicPlayerEvents.isPlaying s' = MusicPlayerEvents.isPlaying s
    /\ MusicPlayerEvents.onTrackChange_calls s'
       = MusicPlayerEvents.onTrackChange_calls s
    /\ MusicPlayerEvents.playlist s' = List.last later (MusicPlayerEvents.playlist s).
Proof.
  induction later as [|l later IH]; intros s Hs; [now repeat split|].
  cbn [map MusicPlayerEvents.run fold_left].
  set (s1 := MusicPlayerEvents.step s _).
  destruct (IH s1) as [H1 [H2 [H3 [H4 H5]]]]; [exact Hs|].
  unfold MusicPlayerEvents.run in H1, H2, H3, H4, H5.
  rewrite H1, H2, H3, H4, H5, last_cons_default. now repeat split.
Qed.

(** X23.  The [ended] listener of MusicPlayer belongs to the render in
    which the current track was set: when the track ends, the next track is
    taken from the playlist of that render, also after renders with other
    playlists and the same track, and [isPlaying] is set to false; a click
    on the skip button uses the playlist of the last render. *)
Theorem MusicPlayer_ended_playlist (s : MusicPlayerEvents.State) (track : value)
    (tracks : option (list MusicPlayer.Track))
    (later : list (option (list MusicPlayer.Track))) :
  truthy track = true ->
  let shown := MusicPlayerEvents.run
                 (MusicPlayerEvents.step s (MusicPlayerEvents.Render track tracks false))
                 (map (fun l => MusicPlayerEvents.Render track l true) later) in
  let calls := fun next : option value =>
                 match next with
                 | Some t => MusicPlayerEvents.onTrackChange_calls s ++ [t]
                 | None => MusicPlayerEvents.onTrackChange_calls s
                 end in
  MusicPlayerEvents.playlist shown = List.last later tracks
  /\ MusicPlayerEvents.onTrackChange_calls
       (MusicPlayerEvents.step shown MusicPlayerEvents.Ended)
     = calls (MusicPlayer.handleNext tracks track)
  /\ MusicPlayerEvents.isPlaying
       (MusicPlayerEvents.step shown MusicPlayerEvents.Ended) = false
  /\ MusicPlayerEvents.onTrackChange_calls
       (MusicPlayerEvents.step shown MusicPlayerEvents.ClickNext)
     = (if MusicPlayerEvents.skip_disabled (List.last later tracks)
        then MusicPlayerEvents.onTrackChange_calls s
        else calls (MusicPlayer.handleNext (List.last later tracks) track)).
Proof.
  intros Ht shown calls.
  destruct (MusicPlayer_same_track_renders track later
              (MusicPlayerEvents.step s (MusicPlayerEvents.Render track tracks false))
              eq_refl) as [H1 [H2 [H3 [H4 H5]]]].
  fold shown in H1, H2, H3, H4, H5. clearbody shown.
  cbn [MusicPlayerEvents.step MusicPlayerEvents.listeners
       MusicPlayerEvents.playlist MusicPlayerEvents.onTrackChange_calls] in H2, H4, H5.
  rewrite Ht in H2.
  split; [exact H5|].
  cbn [MusicPlayerEvents.step]. rewrite H1, H2, H5, Ht. cbn [andb].
  unfold calls.
  split; [|split].
  - destruct (MusicPlayer.handleNext tracks track); cbn; now rewrite H4.
  - destruct (MusicPlayer.handleNext tracks track); reflexivity.
  - destruct (MusicPlayerEvents.skip_disabled (List.last later tracks)); cbn [negb];
      [exact H4|].
    destruct (MusicPlayer.handleNext (List.last later tracks) track); cbn;
      now rewrite H4.
Qed.

Lemma MusicPlayer_ended_playlist_witness :
  let track := fun i : Z => [("id", VNum (num_of_Z i))]%string in
  let shown := MusicPlayerEvents.run MusicPlayerEvents.init
                 [MusicPlayerEvents.Render (VObj (track 10)) (Some [track 10]) false;
                  MusicPlayerEvents.Render (VObj (track 10))
                    (Some [track 10; track 20]) true] in
  truthy (VObj (track 10)) = true
  /\ MusicPlayerEvents.onTrackChange_calls
       (MusicPlayerEvents.step shown MusicPlayerEvents.Ended) = [VObj (track 10)]
  /\ MusicPlayerEvents.onTrackChange_calls
       (MusicPlayerEvents.step shown MusicPlayerEvents.ClickNext) = [VObj (track 20)].
Proof.
  intros track shown. split; [reflexivity|].
  destruct (MusicPlayer_ended_playlist MusicPlayerEvents.init (VObj (track 10))
              (Some [track 10]) [Some [track 10; track 20]] eq_refl)
    as [_ [H1 [_ H2]]].
  split; [exact H1 | exact H2].
Defined.

(** ** FileUpload: the events *)

Lemma FileUpload_handleFileSelect_inv (file : option File) (s : FileUpload.State) :
  FileUpload_inv s -> FileUpload_inv (FileUpload.handleFileSelect file s).
Proof.
  intros [Hc He]. unfold FileUpload.handleFileSelect.
  destruct file as [f|]; [|split; [exact Hc | now left]].
  destruct (String.eqb (file_type f) "audio/mpeg") eqn:Et; cbn [negb andb].
  - destruct (Z.gtb_spec (file_size f) (50 * 1024 * 1024)) as [Hs|Hs].
    + split; [exact Hc | now right; right].
    + split; [|now left]. cbn. apply Forall_app. split; [exact Hc|].
      constructor; [|constructor]. split; [|exact Hs].
      left. now apply String.eqb_eq.
  - destruct (endsWith (toLowerCase (file_name f)) ".mp3") eqn:Ee; cbn [negb].
    + destruct (Z.gtb_spec (file_size f) (50 * 1024 * 1024)) as [Hs|Hs].
      * split; [exact Hc | now right; right].
      * split; [|now left]. cbn. apply Forall_app. split; [exact Hc|].
        constructor; [|constructor]. split; [|exact Hs].
        right. now apply ends_in_mp3_iff.
    + split; [exact Hc | now right; left].
Qed.

Lemma FileUpload_step_inv (s : FileUploadEvents.State) (e : FileUploadEvents.event) :
  FileUpload_inv (FileUploadEvents.upload s) ->
  FileUpload_inv (FileUploadEvents.upload (FileUploadEvents.step s e)).
Proof.
  intros H. destruct e as [path files| | |files|]; cbn [FileUploadEvents.step
    FileUploadEvents.upload]; try exact H.
  - now apply FileUpload_handleFileSelect_inv.
  - now apply FileUpload_handleFileSelect_inv.
  - destruct H as [Hc _]. split; [|now left]. cbn.
    apply Forall_app. split; [exact Hc|]. now repeat constructor.
Qed.

(** X24.  Whatever the events of FileUpload (selections, drags, drops,
    clears), every file handed to [onFileSelect] is an MP3 by type or by
    name of at most 50MB, and the error shown is empty or one of the two
    messages; a drop turns [isDragOver] off and looks at the first of the
    dropped files only. *)
Theorem FileUpload_hands_on_mp3_only (evs : list FileUploadEvents.event) :
  let s := FileUploadEvents.run FileUploadEvents.init evs in
  (forall f, In (Some f) (FileUpload.onFileSelect_calls (FileUploadEvents.upload s)) ->
             acceptable f)
  /\ (FileUpload.error (FileUploadEvents.upload s) = ""%string
      \/ FileUpload.error (FileUploadEvents.upload s)
         = "Please select an MP3 file only"%string
      \/ FileUpload.error (FileUploadEvents.upload s)
         = "File size must be less than 50MB"%string)
  /\ (forall files more,
         FileUploadEvents.isDragOver
           (FileUploadEvents.step s (FileUploadEvents.Drop files)) = false
         /\ FileUploadEvents.step s (FileUploadEvents.Drop (Some (more)))
            = FileUploadEvents.step s
                (FileUploadEvents.Drop (Some (firstn 1 more)))).
Proof.
  intros s.
  assert (Hinv : forall s0, FileUpload_inv (FileUploadEvents.upload s0) ->
                            FileUpload_inv (FileUploadEvents.upload
                                              (FileUploadEvents.run s0 evs))).
  { induction evs as [|e evs IH]; intros s0 H; [exact H|].
    apply IH. now apply FileUpload_step_inv. }
  destruct (Hinv FileUploadEvents.init) as [Hc He].
  { split; [constructor | now left]. }
  fold s in Hc, He. split; [|split; [exact He|]].
  - intros f Hin. rewrite List.Forall_forall in Hc. exact (Hc (Some f) Hin).
  - intros files more. split; [reflexivity|]. now destruct more.
Qed.

(** ** The page: bars and sliders *)

Lemma byte_number_range (b : byte) :
  exists z, AudioUtils.byte_number b = Fin (inject_Z z) /\ 0 <= z <= 255.
Proof.
  exists (Z.of_N (Byte.to_N b)). split; [reflexivity|].
  pose proof (Byte.to_N_bounded b). lia.
Qed.

Lemma percent_of_byte (z : Z) :
  0 <= z <= 255 ->
  exists q, js_mul (js_div (Fin (inject_Z z)) (num_of_Z 255)) (num_of_Z 100) = Fin q
            /\ (q == inject_Z z * (100 # 255))%Q
            /\ (0 <= q)%Q /\ (q <= 100)%Q.
Proof.
  intros Hz. unfold js_div, js_mul, num_of_Z. cbn [Qnum inject_Z Z.eqb].
  eexists. split; [reflexivity|].
  assert (E : (Qred (Qred (inject_Z z / inject_Z 255) * inject_Z 100)
               == inject_Z z * (100 # 255))%Q).
  { rewrite !Qred_correct. unfold Qeq. cbn. lia. }
  split; [exact E|]. rewrite E.
  unfold Qle, Qmult, inject_Z. cbn [Qnum Qden Pos.mul]. lia.
Qed.

Lemma bar_height_range (audioData : list byte) (index : nat) :
  exists q, HomeView.bar_height audioData index = Fin q
            /\ (2 <= q)%Q /\ (q <= 100)%Q.
Proof.
  unfold HomeView.bar_height, HomeView.sample_at.
  assert (Hmin : exists q, Math_max (num_of_Z 0) (num_of_Z 2) = Fin q
                           /\ (2 <= q)%Q /\ (q <= 100)%Q).
  { exists (inject_Z 2). split; [reflexivity|]. split; discriminate. }
  destruct (nth_error audioData index) as [b|]; cbn [option_map]; [|exact Hmin].
  destruct (byte_number_range b) as [z [-> Hz]].
  destruct (number_truthy (Fin (inject_Z z))); [|exact Hmin].
  destruct (percent_of_byte z Hz) as [q [-> [_ [H0 H100]]]].
  unfold Math_max, num_of_Z.
  destruct (Qle_bool q (inject_Z 2)) eqn:El.
  - exists (inject_Z 2). split; [reflexivity|]. split; discriminate.
  - exists q. split; [reflexivity|]. split; [|exact H100].
    apply Qnot_lt_le. intros Hlt. apply Qlt_le_weak in Hlt.
    apply Qle_bool_iff in Hlt. unfold inject_Z in El. congruence.
Qed.

(** X25.  The page shows 32 bars; the height of each is a finite number
    between 2 and 100 percent, 2 for an index outside the array, and all
    bars are at 2 for the initial array of 128 zero bytes. *)
Theorem Home_bar_heights (audioData : list byte) :
  length (HomeView.bars audioData) = 32%nat
  /\ (forall h, In h (HomeView.bars audioData) ->
                exists q, h = Fin q /\ (2 <= q)%Q /\ (q <= 100)%Q)
  /\ (forall index, nth_error audioData index = None ->
                    HomeView.bar_height audioData index = Fin 2)
  /\ HomeView.bars (repeat Byte.x00 128) = repeat (Fin 2) 32.
Proof.
  split; [reflexivity|]. split; [|split; [|reflexivity]].
  - intros h Hin. unfold HomeView.bars in Hin. apply in_map_iff in Hin as [i [<- _]].
    apply bar_height_range.
  - intros index Hn. unfold HomeView.bar_height, HomeView.sample_at. now rewrite Hn.
Qed.

Lemma scaled_range (a b c : Q) :
  (0 <= a)%Q -> (a <= b)%Q -> (0 < b)%Q -> (0 <= c)%Q ->
  (0 <= a / b * c)%Q /\ (a / b * c <= c)%Q.
Proof.
  intros Ha Hab Hb Hc.
  assert (H0 : (0 <= a / b)%Q) by (apply Qle_shift_div_l; [exact Hb | now rewrite Qmult_0_l]).
  assert (H1 : (a / b <= 1)%Q) by (apply Qle_shift_div_r; [exact Hb | now rewrite Qmult_1_l]).
  split.
  - now apply Qmult_le_0_compat.
  - rewrite <- (Qmult_1_l c) at 2. now apply Qmult_le_compat_r.
Qed.

Lemma js_scale (a b c : Q) :
  ~ (b == 0)%Q ->
  exists q, js_mul (js_div (Fin a) (Fin b)) (Fin c) = Fin q /\ (q == a / b * c)%Q.
Proof.
  intros Hb. unfold js_div, js_mul.
  destruct (Z.eqb_spec (Qnum b) 0) as [E|E].
  - exfalso. apply Hb. unfold Qeq. cbn. rewrite E. reflexivity.
  - eexists. split; [reflexivity|]. now rewrite !Qred_correct.
Qed.

(** X26.  For a finite duration [d > 0]: the progress shown for a time
    in [0, d] is a number in [0, 100], the same in the page and in
    MusicPlayer; [handleSeek] for a slider position in [0, 100] and
    [handleProgressClick] for a click inside the bar give a time in
    [0, d].  For a duration that is [0], [NaN] or infinite the progress
    shown is 0. *)
Theorem sliders_stay_in_range (currentTime duration position : Q) :
  (0 <= currentTime)%Q -> (currentTime <= duration)%Q -> (0 < duration)%Q ->
  (0 <= position)%Q -> (position <= 100)%Q ->
  (exists p, HomeView.progress (Fin currentTime) (Fin duration) = Fin p
             /\ MusicPlayerEvents.progressPercentage (Fin currentTime) (Fin duration)
                = Fin p
             /\ (0 <= p)%Q /\ (p <= 100)%Q)
  /\ (exists t, HomeView.handleSeek (Fin position) (Fin duration) = Fin t
                /\ (0 <= t)%Q /\ (t <= duration)%Q)
  /\ (forall left width clientX,
         (0 < width)%Q -> (left <= clientX)%Q -> (clientX <= left + width)%Q ->
         exists t,
           MusicPlayerEvents.handleProgressClick
             (Fin clientX) (Fin left) (Fin width) (Fin duration) = Fin t
           /\ (0 <= t)%Q /\ (t <= duration)%Q)
  /\ (forall time,
         HomeView.progress (Fin time) (Fin 0) = Fin 0
         /\ HomeView.progress (Fin time) NaN = Fin 0
         /\ HomeView.progress (Fin time) PosInfinity = Fin 0
         /\ MusicPlayerEvents.progressPercentage (Fin time) (Fin 0) = Fin 0
         /\ MusicPlayerEvents.progressPercentage (Fin time) NaN = Fin 0
         /\ MusicPlayerEvents.progressPercentage (Fin time) PosInfinity = Fin 0).
Proof.
  intros Ht Htd Hd Hp Hp100.
  assert (Hd0 : ~ (duration == 0)%Q) by (intros E; rewrite E in Hd; discriminate Hd).
  assert (Htruthy : number_truthy (Fin duration) = true).
  { cbn. apply negb_true_iff, Z.eqb_neq. intros E. apply Hd0.
    unfold Qeq. cbn. now rewrite E. }
  split; [|split; [|split]].
  - unfold HomeView.progress, MusicPlayerEvents.progressPercentage. rewrite Htruthy.
    destruct (js_scale currentTime duration (inject_Z 100) Hd0) as [p [Ep Hq]].
    exists p. split; [exact Ep|]. split; [exact Ep|]. rewrite Hq.
    apply scaled_range; try assumption. discriminate.
  - unfold HomeView.handleSeek.
    destruct (js_scale position (inject_Z 100) duration) as [t [Et Hq]];
      [discriminate|].
    exists t. split; [exact Et|]. rewrite Hq.
    apply scaled_range; try assumption; [reflexivity | now apply Qlt_le_weak].
  - intros left width clientX Hw Hl Hr.
    assert (Hw0 : ~ (width == 0)%Q) by (intros E; rewrite E in Hw; discriminate Hw).
    unfold MusicPlayerEvents.handleProgressClick. cbn [js_sub].
    destruct (js_scale (Qred (clientX - left)) width duration Hw0) as [t [Et Hq]].
    exists t. split; [exact Et|]. rewrite Hq, Qred_correct.
    apply scaled_range; try assumption; [| |now apply Qlt_le_weak].
    + unfold Qminus. now apply Qle_minus_iff in Hl.
    + apply Qle_minus_iff. apply Qle_minus_iff in Hr.
      assert (E : (width + - (clientX - left) == left + width + - clientX)%Q) by ring.
      now rewrite E.
  - intros time. repeat split; reflexivity.
Qed.

Lemma sliders_stay_in_range_witness :
  (0 <= 30)%Q /\ (30 <= 120)%Q /\ (0 < 120)%Q /\ (0 <= 25)%Q /\ (25 <= 100)%Q
  /\ (exists p, HomeView.progress (Fin 30) (Fin 120) = Fin p
                /\ (0 <= p)%Q /\ (p <= 100)%Q)
  /\ (exists t, HomeView.handleSeek (Fin 25) (Fin 120) = Fin t
                /\ (0 <= t)%Q /\ (t <= 120)%Q).
Proof.
  assert (H1 : (0 <= 30)%Q) by discriminate.
  assert (H2 : (30 <= 120)%Q) by discriminate.
  assert (H3 : (0 < 120)%Q) by reflexivity.
  assert (H4 : (0 <= 25)%Q) by discriminate.
  assert (H5 : (25 <= 100)%Q) by discriminate.
  repeat (split; [assumption|]).
  destruct (sliders_stay_in_range 30 120 25 H1 H2 H3 H4 H5)
    as [[p [Ep [_ Hp]]] [Hs _]].
  split; [exists p; now split | exact Hs].
Defined.

(** ** The canvas of the visualizer *)

Lemma nth_bars_from (data : list byte) (height : number) (n : nat) (W : number) :
  forall j k i x,
    (j < k)%nat ->
    nth_error (Canvas.bars_from data height n W k i x) j
    = Some (Canvas.bar data height n W (i + j) (Nat.iter j (Canvas.advance W) x)).
Proof.
  induction j as [|j IH]; intros [|k] i x Hj; try lia.
  - cbn. now rewrite Nat.add_0_r.
  - cbn [Canvas.bars_from nth_error]. rewrite IH by lia.
    replace (i + S j)%nat with (S i + j)%nat by lia.
    now rewrite Nat.iter_succ_r.
Qed.

Lemma abscissa_of_bar (i : nat) :
  exists x, Nat.iter i (Canvas.advance (Fin (125 # 16))) (num_of_Z 0) = Fin x
            /\ (x == inject_Z (Z.of_nat i) * (141 # 16))%Q.
Proof.
  induction i as [|i [x [Ex Hx]]].
  - exists 0%Q. split; reflexivity.
  - rewrite Nat.iter_succ, Ex. unfold Canvas.advance, js_add, num_of_Z.
    eexists. split; [reflexivity|].
    rewrite !Qred_correct, Hx, Nat2Z.inj_succ. unfold Z.succ.
    rewrite inject_Z_plus. unfold inject_Z. ring.
Qed.

(** X27.  On the canvas of 400 by 128 and with 128 bins, the call of
    [fillRect] for bin [i] of value [b] draws a bar 7.8125 wide at abscissa
    [8.8125 i], of height [128 b / 255], between 0 and 128, standing on the
    bottom of the canvas, in the colour [(h + 25 i / 128, 250 i / 128, 50)]
    with opacity 0.8.  The bar lies within the width of the canvas exactly
    for [i <= 44], and starts beyond the right edge exactly for
    [i >= 46]. *)
Theorem draw_bars_on_canvas (data : list byte) (i : nat) (b : byte) :
  nth_error data i = Some b -> (i < 128)%nat ->
  exists x y h r g,
    nth_error (Canvas.draw data Canvas.canvas_width Canvas.canvas_height 128) (S i)
    = Some (Canvas.mkFillRect (Fin r) (Fin g) (Fin 50) (Fin (4 # 5))
                              (Fin x) (Fin y) (Fin (125 # 16)) (Fin h))
    /\ (x == inject_Z (Z.of_nat i) * (141 # 16))%Q
    /\ (h == inject_Z (Z.of_N (Byte.to_N b)) * (128 # 255))%Q
    /\ (0 <= h)%Q /\ (h <= 128)%Q
    /\ (y == 128 - h)%Q
    /\ (r == h + 25 * (inject_Z (Z.of_nat i) / 128))%Q
    /\ (g == 250 * (inject_Z (Z.of_nat i) / 128))%Q
    /\ ((x + (125 # 16) <= 400)%Q <-> (i <= 44)%nat)
    /\ ((400 <= x)%Q <-> (46 <= i)%nat).
Proof.
  intros Hb Hi.
  destruct (abscissa_of_bar i) as [x [Ex Hx]].
  unfold Canvas.draw. cbn [nth_error].
  change (js_mul (js_div Canvas.canvas_width (num_of_Z (Z.of_nat 128))) (Fin (5 # 2)))
    with (Fin (125 # 16)).
  rewrite nth_bars_from by exact Hi. cbn [Nat.add]. rewrite Ex.
  unfold Canvas.bar, Canvas.sample_at. rewrite Hb.
  set (z := Z.of_N (Byte.to_N b)).
  assert (Hz : 0 <= z <= 255) by (subst z; pose proof (Byte.to_N_bounded b); lia).
  change (AudioUtils.byte_number b) with (Fin (inject_Z z)).
  unfold Canvas.canvas_height, js_div, js_mul, js_add, js_sub, num_of_Z.
  cbn [Qnum inject_Z Z.eqb].
  eexists x, _, _, _, _. split; [reflexivity|].
  assert (Hh : (Qred (Qred ((z # 1) / (255 # 1)) * (128 # 1))
                == (z # 1) * (128 # 255))%Q).
  { rewrite !Qred_correct. unfold Qeq. cbn. lia. }
  split; [exact Hx|]. split; [exact Hh|].
  split; [rewrite Hh; unfold Qle; cbn; lia|].
  split; [rewrite Hh; unfold Qle; cbn; lia|].
  split; [now rewrite !Qred_correct|].
  split; [now rewrite !Qred_correct|].
  split; [now rewrite !Qred_correct|].
  rewrite Hx. unfold Qle, Qplus, Qmult, inject_Z. cbn [Qnum Qden Pos.mul].
  split; split; lia.
Qed.

Lemma draw_bars_on_canvas_witness :
  let data := repeat Byte.xff 128 in
  nth_error data 46 = Some Byte.xff /\ (46 < 128)%nat
  /\ exists x y h r g,
       nth_error (Canvas.draw data Canvas.canvas_width Canvas.canvas_height 128) 47
       = Some (Canvas.mkFillRect (Fin r) (Fin g) (Fin 50) (Fin (4 # 5))
                                 (Fin x) (Fin y) (Fin (125 # 16)) (Fin h))
       /\ (400 <= x)%Q /\ (h == 128)%Q.
Proof.
  intros data.
  assert (H1 : nth_error data 46 = Some Byte.xff) by reflexivity.
  assert (H2 : (46 < 128)%nat) by lia.
  split; [exact H1|]. split; [exact H2|].
  destruct (draw_bars_on_canvas data 46 Byte.xff H1 H2)
    as [x [y [h [r [g [E [_ [Hh [_ [_ [_ [_ [_ [_ Hx]]]]]]]]]]]]]].
  exists x, y, h, r, g. split; [exact E|]. split; [apply Hx; lia|].
  rewrite Hh. reflexivity.
Defined.

(** ** The visualizer when its set-up fails *)

Ltac av_failed_intro s :=
  destruct s as [el ip ii q m acr anr sr dar anim ci ca [pend next] rd w];
  unfold AV_failed at 1;
  cbn [AudioVisualizer.isInitialized AudioVisualizer.queued_isInitialized
       AudioVisualizer.frames AudioVisualizer.reads AudioVisualizer.audioContextRef
       AudioVisualizer.world pending];
  intros (-> & -> & -> & -> & Hctx).

Lemma AV_failed_cancel (s : AudioVisualizer.State) :
  AV_failed s ->
  exists s', AudioVisualizer.cancel_pending s = (Ret tt, s') /\ AV_failed s'
             /\ AudioVisualizer.mounted s' = AudioVisualizer.mounted s
             /\ AudioVisualizer.audioElement s' = AudioVisualizer.audioElement s.
Proof.
  av_failed_intro s.
  unfold AudioVisualizer.cancel_pending, AudioVisualizer.cancelAnimationFrame,
    bind, get, modify, ret.
  cbn. destruct anim as [id|]; [destruct (id =? 0)%nat|];
    eexists; (split; [reflexivity|]); now repeat split.
Qed.

Lemma AV_failed_initialize (el0 : AudioElement) (s : AudioVisualizer.State) :
  AV_failed s ->
  exists s', AudioVisualizer.initializeAudioContext el0 s = (Ret tt, s')
             /\ AV_failed s'
             /\ AudioVisualizer.mounted s' = AudioVisualizer.mounted s.
Proof.
  av_failed_intro s.
  unfold AudioVisualizer.initializeAudioContext, AudioVisualizer.in_world,
    new_AudioContext, createMediaElementSource, console_error,
    try_catch, bind, get, modify, ret, throw.
  cbn.
  destruct acr as [ctx|].
  - eexists; split; [reflexivity|]. now repeat split.
  - destruct Hctx as [Hctx|Hw]; [now contradiction Hctx|].
    unfold supports_web_audio in Hw.
    destruct (window_AudioContext w) as [[c|e]|] eqn:Ea; try discriminate Hw;
      [|destruct (window_webkitAudioContext w) as [[c|e]|] eqn:Eb;
        try discriminate Hw];
      cbn; (eexists; split; [reflexivity|]); unfold AV_failed; cbn;
      (split; [|reflexivity]);
      (split; [reflexivity|]); (split; [reflexivity|]); (split; [reflexivity|]);
      (split; [reflexivity|]);
      right; unfold supports_web_audio; cbn; now rewrite Ea, ?Eb.
Qed.

Lemma AV_failed_set_cleanup_init (b : bool) (s : AudioVisualizer.State) :
  AV_failed s ->
  AV_failed (AudioVisualizer.set_cleanup_init b s)
  /\ AudioVisualizer.mounted (AudioVisualizer.set_cleanup_init b s)
     = AudioVisualizer.mounted s.
Proof. destruct s. intros H. split; [exact H | reflexivity]. Qed.

Lemma AV_failed_set_cleanup_animation (b : bool) (s : AudioVisualizer.State) :
  AV_failed s ->
  AV_failed (AudioVisualizer.set_cleanup_animation b s)
  /\ AudioVisualizer.mounted (AudioVisualizer.set_cleanup_animation b s)
     = AudioVisualizer.mounted s.
Proof. destruct s. intros H. split; [exact H | reflexivity]. Qed.

Lemma AV_failed_init_effect (s : AudioVisualizer.State) :
  AV_failed s ->
  exists s', AudioVisualizer.init_effect s = (Ret tt, s') /\ AV_failed s'
             /\ AudioVisualizer.mounted s' = AudioVisualizer.mounted s.
Proof.
  intros H. unfold AudioVisualizer.init_effect. unfold bind at 1, get at 1.
  destruct (AudioVisualizer.audioElement s) as [el|];
    [destruct (AudioVisualizer.mounted s) eqn:Em|].
  - destruct (AV_failed_initialize el s H) as [s1 [E1 [H1 M1]]].
    unfold bind. rewrite E1. unfold modify. eexists; split; [reflexivity|].
    destruct (AV_failed_set_cleanup_init true s1 H1) as [H2 M2].
    split; [exact H2 | congruence].
  - unfold modify. eexists; split; [reflexivity|].
    destruct (AV_failed_set_cleanup_init false s H) as [H2 M2].
    split; [exact H2 | congruence].
  - unfold modify. eexists; split; [reflexivity|].
    destruct (AV_failed_set_cleanup_init false s H) as [H2 M2].
    split; [exact H2 | congruence].
Qed.

Lemma AV_failed_animation_effect (s : AudioVisualizer.State) :
  AV_failed s ->
  exists s', AudioVisualizer.animation_effect s = (Ret tt, s') /\ AV_failed s'
             /\ AudioVisualizer.mounted s' = AudioVisualizer.mounted s.
Proof.
  intros H. unfold AudioVisualizer.animation_effect. unfold bind at 1, get at 1.
  destruct H as [Hi H']. rewrite Hi. cbn [negb orb].
  destruct (AV_failed_cancel s (conj Hi H')) as [s1 [E1 [H1 [M1 _]]]].
  unfold bind. rewrite E1. unfold modify. eexists; split; [reflexivity|].
  destruct (AV_failed_set_cleanup_animation false s1 H1) as [H2 M2].
  split; [exact H2 | congruence].
Qed.

Lemma AV_failed_maybe (c : bool) (m : M AudioVisualizer.State unit) :
  (forall s, AV_failed s ->
             exists s', m s = (Ret tt, s') /\ AV_failed s'
                        /\ AudioVisualizer.mounted s' = AudioVisualizer.mounted s) ->
  forall s, AV_failed s ->
            exists s', (if c then m else ret tt) s = (Ret tt, s') /\ AV_failed s'
                       /\ AudioVisualizer.mounted s' = AudioVisualizer.mounted s.
Proof.
  intros Hm s H. destruct c; [now apply Hm|].
  exists s. split; [reflexivity | split; [exact H | reflexivity]].
Qed.

Lemma AV_failed_cancel' (s : AudioVisualizer.State) :
  AV_failed s ->
  exists s', AudioVisualizer.cancel_pending s = (Ret tt, s') /\ AV_failed s'
             /\ AudioVisualizer.mounted s' = AudioVisualizer.mounted s.
Proof.
  intros H. destruct (AV_failed_cancel s H) as [s' [E [H' [M _]]]]. eauto.
Qed.

Lemma AV_failed_run_effects (a b : bool) (s : AudioVisualizer.State) :
  AV_failed s ->
  exists s', AudioVisualizer.run_effects a b s = (Ret tt, s') /\ AV_failed s'
             /\ AudioVisualizer.mounted s' = AudioVisualizer.mounted s.
Proof.
  intros H. unfold AudioVisualizer.run_effects. unfold bind at 1, get at 1.
  destruct (AV_failed_maybe (a && AudioVisualizer.cleanup_init s) _
              AV_failed_cancel' s H) as [s1 [E1 [H1 M1]]].
  unfold bind at 1. rewrite E1.
  destruct (AV_failed_maybe (b && AudioVisualizer.cleanup_animation s) _
              AV_failed_cancel' s1 H1) as [s2 [E2 [H2 M2]]].
  unfold bind at 1. rewrite E2.
  destruct (AV_failed_maybe a _ AV_failed_init_effect s2 H2) as [s3 [E3 [H3 M3]]].
  unfold bind at 1. rewrite E3.
  destruct (AV_failed_maybe b _ AV_failed_animation_effect s3 H3) as [s4 [E4 [H4 M4]]].
  rewrite E4. exists s4. split; [reflexivity|]. split; [exact H4 | congruence].
Qed.

Lemma AV_failed_flush (s : AudioVisualizer.State) :
  AV_failed s -> AudioVisualizer.flush_state s = (Ret tt, s).
Proof.
  intros [_ [Hq _]]. unfold AudioVisualizer.flush_state, bind, get. now rewrite Hq.
Qed.

Lemma AV_failed_commit (a b : bool) (s : AudioVisualizer.State) :
  AV_failed s ->
  AV_failed (snd ((AudioVisualizer.run_effects a b ;; AudioVisualizer.flush_state) s)).
Proof.
  intros H. destruct (AV_failed_run_effects a b s H) as [s1 [E1 [H1 _]]].
  unfold bind. rewrite E1, (AV_failed_flush s1 H1). exact H1.
Qed.

Lemma AV_failed_set_props (el : option AudioElement) (playing : bool)
                          (s : AudioVisualizer.State) :
  AV_failed s -> AV_failed (AudioVisualizer.set_props el playing s).
Proof. destruct s. intros H. exact H. Qed.

Lemma AV_failed_set_mounted (b : bool) (s : AudioVisualizer.State) :
  AV_failed s -> AV_failed (AudioVisualizer.set_mounted b s).
Proof. destruct s. intros H. exact H. Qed.

Lemma AV_failed_step (s : AudioVisualizer.State) (e : AudioVisualizer.event) :
  AV_failed s -> AV_failed (AudioVisualizer.step s e).
Proof.
  intros H. destruct e as [el playing same|id|]; cbn [AudioVisualizer.step].
  - destruct (AudioVisualizer.mounted s); [|exact H].
    apply AV_failed_commit. now apply AV_failed_set_props.
  - destruct H as [Hi [Hq [Hp Hr]]]. rewrite Hp. cbn [find_frame].
    now repeat split.
  - destruct (AudioVisualizer.mounted s); [|exact H].
    pose proof (AV_failed_set_mounted false s H) as H0.
    destruct (AV_failed_maybe (AudioVisualizer.cleanup_init s) _
                AV_failed_cancel' _ H0) as [s1 [E1 [H1 _]]].
    unfold bind at 1. rewrite E1.
    destruct (AV_failed_maybe (AudioVisualizer.cleanup_animation s) _
                AV_failed_cancel' _ H1) as [s2 [E2 [H2 _]]].
    unfold bind at 1. rewrite E2. unfold bind, modify. cbn [snd].
    apply AV_failed_set_cleanup_animation. now apply AV_failed_set_cleanup_init.
Qed.

Lemma AV_failed_mount (el : AudioElement) (playing : bool) (w : World) :
  supports_web_audio w = false \/ has_source el = true ->
  AV_failed (AudioVisualizer.mount (Some el) playing w).
Proof.
  intros H. unfold AudioVisualizer.mount.
  destruct (supports_web_audio w) eqn:Hw.
  - destruct H as [H|H]; [discriminate H|].
    destruct el as [src]. cbn in H. subst src.
    unfold supports_web_audio in Hw.
    unfold AV_failed.
    destruct w as [st quota con wa wk].
    cbn [window_AudioContext window_webkitAudioContext] in Hw.
    destruct wa as [[c|e]|]; try discriminate Hw;
      [|destruct wk as [[c|e]|]; try discriminate Hw];
      destruct playing; cbn; repeat split; left; discriminate.
  - apply AV_failed_commit.
    apply AV_failed_set_mounted, AV_failed_set_props.
    unfold AV_failed. cbn. repeat split. now right.
Qed.

(** X28.  A visualizer whose set-up fails at mount, because no audio
    context can be made or because the audio element has a source node
    already, never draws: whatever renders, frames and unmount follow, also
    with another audio element, it stays uninitialized, no frame is pending
    and no sample is read. *)
Theorem AudioVisualizer_failed_setup (el : AudioElement) (playing : bool) (w : World)
                                     (evs : list AudioVisualizer.event) :
  supports_web_audio w = false \/ has_source el = true ->
  let s := AudioVisualizer.run (AudioVisualizer.mount (Some el) playing w) evs in
  AudioVisualizer.isInitialized s = false
  /\ pending (AudioVisualizer.frames s) = []
  /\ AudioVisualizer.reads s = [].
Proof.
  intros H.
  assert (Hinv : forall s, AV_failed s -> AV_failed (AudioVisualizer.run s evs)).
  { induction evs as [|e evs IH]; intros s Hs; [exact Hs|].
    apply IH. now apply AV_failed_step. }
  destruct (Hinv _ (AV_failed_mount el playing w H)) as [H1 [_ [H3 [H4 _]]]].
  now repeat split.
Qed.

Lemma AudioVisualizer_failed_setup_witness :
  let w := mkWorld ∅ 5000000 [] (Some (Constructs (mkAudioContext Running))) None in
  let s := AudioVisualizer.run
             (AudioVisualizer.mount (Some (mkAudioElement true)) true w)
             [AudioVisualizer.Render (Some (mkAudioElement false)) true false;
              AudioVisualizer.Render None false true;
              AudioVisualizer.Render None true true] in
  (supports_web_audio w = false \/ has_source (mkAudioElement true) = true)
  /\ AudioVisualizer.isInitialized s = false
  /\ pending (AudioVisualizer.frames s) = []
  /\ AudioVisualizer.reads s = [].
Proof.
  intros w s.
  assert (H : supports_web_audio w = false \/ has_source (mkAudioElement true) = true)
    by (now right).
  split; [exact H|].
  exact (AudioVisualizer_failed_setup (mkAudioElement true) true w _ H).
Defined.

(** ** The visualizer: one loop *)

(** X29.  In the visualizer at most one animation frame is pending at
    any time.  A pending frame is the one that [animationRef] names, its
    callback has captured [isPlaying = true], and the component is then
    mounted, playing and initialized, with an analyser.  Once unmounted,
    the component has no frame pending and no event changes it. *)
Theorem AudioVisualizer_single_frame (el : option AudioElement) (playing : bool)
                                     (w : World) (evs : list AudioVisualizer.event) :
  let s := AudioVisualizer.run (AudioVisualizer.mount el playing w) evs in
  (length (pending (AudioVisualizer.frames s)) <= 1)%nat
  /\ (forall id captured,
         In (id, captured) (pending (AudioVisualizer.frames s)) ->
         AudioVisualizer.animationRef s = Some id
         /\ captured = true
         /\ AudioVisualizer.isPlaying s = true
         /\ AudioVisualizer.mounted s = true
         /\ AudioVisualizer.isInitialized s = true
         /\ AudioVisualizer.analyserRef s <> None)
  /\ (AudioVisualizer.mounted s = false ->
      pending (AudioVisualizer.frames s) = []
      /\ forall more, AudioVisualizer.run s more = s).
Proof.
  intros s.
  assert (Hinv : AV_inv s) by (apply AV_run_inv, AV_mount_inv).
  destruct Hinv as [[Hr [Ha [Hn Hp]]] Hl].
  split; [|split].
  - destruct Hp as [-> | [id [-> _]]]; cbn; lia.
  - intros id captured Hin.
    assert (Hne : pending (AudioVisualizer.frames s) <> [])
      by (intros E; rewrite E in Hin; destruct Hin).
    destruct (Hl Hne) as [L1 [L2 [L3 [_ L5]]]].
    destruct Hp as [Hp | [id' [Hp [Hanim _]]]]; [contradiction|].
    rewrite Hp in Hin. destruct Hin as [[= <- <-]|[]].
    now repeat split.
  - intros Hm. split.
    + destruct (pending (AudioVisualizer.frames s)) as [|f fs] eqn:Ep; [reflexivity|].
      assert (Hne : pending (AudioVisualizer.frames s) <> [])
        by (rewrite Ep; discriminate).
      destruct (Hl Hne) as [_ [L2 _]]. congruence.
    + intros more. induction more as [|e more IH]; [reflexivity|].
      cbn [AudioVisualizer.run fold_left].
      rewrite (AV_unmounted_stays s e); [exact IH | | exact Hm].
      exact (conj (conj Hr (conj Ha (conj Hn Hp))) Hl).
Qed.
